(** * claude-code-slack-bot: session streaming and working-directory store

    A shallow embedding of [src/claude-handler.ts] (class [ClaudeHandler]) and
    of the working-directory manager (class [WorkingDirectoryManager]),
    followed by the properties the specification states about them.

    Conventions of the embedding.
    - A JavaScript string is the list of its UTF-16 code units ([jsstring]).
    - [undefined] for an optional field or an absent property is [None].
    - What [JSON.parse] returns is a [value]: the code casts it to an
      interface type without a check, so every value can turn up where the
      interface names a string.
    - Objects that are shared and mutated (a [ConversationSession]) live in a
      heap of locations; the code's references are locations.
    - The Node runtime (JSON.parse, the file system, timers, the clock) is the
      environment: oracles are section variables, timers and the clock are
      explicit state. *)

From Stdlib Require Import ZArith NArith List Ascii String Lia Bool.
From stdpp Require Import base option list gmap fin_maps.

Open Scope Z_scope.

(* ================================================================== *)
(** * JavaScript strings *)
(* ================================================================== *)

Module Js.

(** A string is a sequence of UTF-16 code units. *)
Definition jsstring : Type := list N.

(** String literals of the source, written in ASCII. *)
Definition lit (s : string) : jsstring :=
  map N_of_ascii (list_ascii_of_string s).

(** [if (s)] on a string: the empty string is the only falsy one. *)
Definition truthy (s : jsstring) : bool :=
  match s with [] => false | _ :: _ => true end.

(** [if (s)] on [string | undefined]. *)
Definition truthy_opt (s : option jsstring) : bool :=
  match s with Some v => truthy v | None => false end.

(** ECMAScript LineTerminator: LF, CR, LS, PS. *)
Definition is_line_terminator (c : N) : bool :=
  ((c =? 10) || (c =? 13) || (c =? 8232) || (c =? 8233))%N.

(** ECMAScript WhiteSpace (TAB, VT, FF, ZWNBSP and category Zs) together
    with LineTerminator: the set stripped by [String.prototype.trim] and
    matched by the regular-expression class [\s]. *)
Definition is_space (c : N) : bool :=
  ((c =? 9) || (c =? 11) || (c =? 12) || (c =? 32) || (c =? 160)
   || (c =? 5760) || ((8192 <=? c) && (c <=? 8202)) || (c =? 8239)
   || (c =? 8287) || (c =? 12288) || (c =? 65279))%N
  || is_line_terminator c.

Fixpoint trim_start (s : jsstring) : jsstring :=
  match s with
  | c :: s' => if is_space c then trim_start s' else s
  | [] => []
  end.

Definition trim_end (s : jsstring) : jsstring :=
  rev (trim_start (rev s)).

(** [String.prototype.trim]. *)
Definition trim (s : jsstring) : jsstring := trim_end (trim_start s).

(** [s.startsWith(p)]. *)
Fixpoint startsWith (p s : jsstring) : bool :=
  match p, s with
  | [], _ => true
  | a :: p', b :: s' => (a =? b)%N && startsWith p' s'
  | _ :: _, [] => false
  end.

(** ** Values *)

(** The numbers [JSON.parse] can return: a binary floating-point number
    [mantissa * 2 ^ exponent], an infinity (from a literal too large for a
    double), or the negative zero.  It never returns [NaN]. *)
Inductive number :=
| Double (mantissa exponent : Z)
| Infinity (negative : bool)
| NegativeZero.

(** The values [JSON.parse] can return.  The properties of an object are
    listed in the order [Object.entries] gives them. *)
#[warnings="-register-all"] Inductive value :=
| VNull
| VBool (b : bool)
| VNumber (n : number)
| VString (s : jsstring)
| VArray (items : list value)
| VObject (props : list (jsstring * value)).

(** A string literal as a value. *)
Definition str (s : string) : value := VString (lit s).

(** [if (v)] on a value. *)
Definition truthy_value (v : value) : bool :=
  match v with
  | VNull => false
  | VBool b => b
  | VNumber (Double mantissa _) => negb (mantissa =? 0)
  | VNumber (Infinity _) => true
  | VNumber NegativeZero => false
  | VString s => truthy s
  | VArray _ | VObject _ => true
  end.

(** [if (v)] on a value or [undefined]. *)
Definition truthy_value_opt (v : option value) : bool :=
  match v with Some v => truthy_value v | None => false end.

(** The first property named [k] of a list of properties. *)
Fixpoint property (k : jsstring) (props : list (jsstring * value))
    : option value :=
  match props with
  | [] => None
  | (k', v) :: props' => if decide (k' = k) then Some v else property k props'
  end.

(** [v.k] for one of the property names the code reads ([type],
    [version], [directory], ...; none of them is a property of a string,
    an array, a number or a boolean): [None] when the read throws a
    [TypeError], which it does on [null]; [Some None] for [undefined]. *)
Definition get (v : value) (k : string) : option (option value) :=
  match v with
  | VNull => None
  | VObject props => Some (property (lit k) props)
  | _ => Some None
  end.

(** [v.k] on a value that is not [null]. *)
Definition field (k : string) (v : value) : option value :=
  default None (get v k).

(** [v === 'k'] for a value or [undefined]. *)
Definition is_string (k : string) (v : option value) : bool :=
  match v with
  | Some (VString s) => bool_decide (s = lit k)
  | _ => false
  end.

(** The decimal digits of an array index. *)
Fixpoint digits (fuel : nat) (n : N) (acc : jsstring) : jsstring :=
  match fuel with
  | O => acc
  | S fuel' =>
      let acc' := (48 + n mod 10)%N :: acc in
      if (n <? 10)%N then acc' else digits fuel' (n / 10)%N acc'
  end.

Definition decimal (i : nat) : jsstring := digits (S i) (N.of_nat i) [].

(** [Object.entries(v)]: [None] when it throws a [TypeError], which it
    does on [undefined] and [null].  An array and a string list their
    elements under their indices; a number and a boolean have no entries. *)
Definition entries (v : option value) : option (list (jsstring * value)) :=
  match v with
  | None | Some VNull => None
  | Some (VObject props) => Some props
  | Some (VArray items) => Some (imap (λ i item, (decimal i, item)) items)
  | Some (VString s) =>
      Some (imap (λ i c, (decimal i, VString [c])) s)
  | Some (VNumber _) | Some (VBool _) => Some []
  end.

End Js.
Import Js.

(* ================================================================== *)
(** * ClaudeHandler ([src/claude-handler.ts]) *)
(* ================================================================== *)

Module ClaudeHandler.

(** [interface SDKMessage]: the type [JSON.parse(line)] is cast to.  The
    cast checks nothing, so a message is whatever value the line holds. *)
Definition SDKMessage : Type := value.

(** [message.type], [message.subtype], [message.session_id] on a message
    that is not [null]. *)
Definition type : SDKMessage → option value := field "type".
Definition subtype : SDKMessage → option value := field "subtype".
Definition session_id : SDKMessage → option value := field "session_id".

(** [interface ConversationSession] (declared in [types.ts]); a [Date] is
    its millisecond time value.  [sessionId] is declared a string and
    holds what [streamQuery] assigns to it: the [session_id] of a
    message, whatever value that is. *)
Record ConversationSession := {
  userId : jsstring;
  channelId : jsstring;
  threadTs : option jsstring;
  sessionId : option value;
  isActive : bool;
  lastActivity : Z
}.

(** References to session objects. *)
Definition loc : Type := nat.

(** The handler's state: the objects allocated so far, and
    [this.sessions], a [Map] from session key to object reference. *)
Record handler := {
  heap : gmap loc ConversationSession;
  sessions : gmap jsstring loc
}.

Definition empty_handler : handler := {| heap := ∅; sessions := ∅ |}.

(** [getSessionKey]: [`${userId}-${channelId}-${threadTs || 'direct'}`]. *)
Definition getSessionKey (userId channelId : jsstring)
    (threadTs : option jsstring) : jsstring :=
  userId ++ lit "-" ++ channelId ++ lit "-"
    ++ (if truthy_opt threadTs then default [] threadTs else lit "direct").

(** [getSession]. *)
Definition getSession (h : handler) (userId channelId : jsstring)
    (threadTs : option jsstring) : option loc :=
  sessions h !! getSessionKey userId channelId threadTs.

(** [createSession], called at time [now]. *)
Definition createSession (now : Z) (h : handler)
    (userId channelId : jsstring) (threadTs : option jsstring)
    : loc * handler :=
  let session := {| userId := userId; channelId := channelId;
                    threadTs := threadTs; sessionId := None;
                    isActive := true; lastActivity := now |} in
  let l := fresh (dom (heap h)) in
  (l, {| heap := <[l := session]> (heap h);
         sessions := <[getSessionKey userId channelId threadTs := l]>
                       (sessions h) |}).

(** ** cleanupInactiveSessions *)

(** What a call hands back to its caller. *)
Inductive retval := RUndefined | RNumber (n : nat).

Inductive log_entry := LogCleaned (cleaned : nat).

(** The test of the loop body:
    [now - session.lastActivity.getTime() > maxAge].  A reference held by
    the map points to an allocated object, so the second case does not
    arise. *)
Definition expired (now maxAge : Z) (hp : gmap loc ConversationSession)
    (l : loc) : bool :=
  match hp !! l with
  | Some session => bool_decide (now - lastActivity session > maxAge)
  | None => false
  end.

(** One iteration of [for (const [key, session] of this.sessions.entries())]
    on the pair (map, [cleaned]). *)
Definition sweep_entry (now maxAge : Z) (hp : gmap loc ConversationSession)
    (key : jsstring) (l : loc) (acc : gmap jsstring loc * nat)
    : gmap jsstring loc * nat :=
  if expired now maxAge hp l
  then (delete key acc.1, S acc.2)
  else acc.

(** The loop: every entry of the map is visited once (deleting the entry
    under the cursor does not disturb a [Map] iteration). *)
Definition sweep_loop (now maxAge : Z) (h : handler)
    : gmap jsstring loc * nat :=
  map_fold (sweep_entry now maxAge (heap h)) (sessions h, 0%nat) (sessions h).

(** [cleanupInactiveSessions(maxAge)] run at time [now]: the new state, the
    log lines written, and the value returned (the method has no [return]
    statement). *)
Definition cleanupInactiveSessions (now maxAge : Z) (h : handler)
    : handler * list log_entry * retval :=
  let '(m, cleaned) := sweep_loop now maxAge h in
  ({| heap := heap h; sessions := m |},
   if (0 <? cleaned)%nat then [LogCleaned cleaned] else [],
   RUndefined).

(** The default [maxAge = 30 * 60 * 1000]. *)
Definition default_maxAge : Z := 30 * 60 * 1000.

(** ** streamQuery *)

(** The caller context [{ channel, threadTs?, user }]. *)
Record SlackContext := {
  channel : jsstring;
  context_threadTs : option jsstring;
  user : jsstring
}.

(** [McpServerConfig] (declared in [mcp-manager.ts]), with the fields the
    synthesized permission server fills in. *)
Record McpServerConfig := {
  command : jsstring;
  server_args : list jsstring;
  env : list (jsstring * jsstring)
}.

(** An object used as a record of servers: keys in insertion order. *)
Definition servers : Type := list (jsstring * McpServerConfig).

(** [{ ...o, [k]: v }]: an existing key keeps its place and takes the new
    value, a new key goes last. *)
Fixpoint spread_set (o : servers) (k : jsstring) (v : McpServerConfig)
    : servers :=
  match o with
  | [] => [(k, v)]
  | (k', v') :: o' =>
      if decide (k' = k) then (k, v) :: o' else (k', v') :: spread_set o' k v
  end.

(** The errors of a query: the one the generator throws when the
    subprocess closes with a code other than 0, the one the listener of
    the subprocess's [error] event throws, and the one [spawn] itself
    threw, which the outer [catch] logs and throws again. *)
Inductive error :=
| ExitedWithCode (code : Z)
| FailedToSpawn (message : jsstring)
| SpawnThrew (message : jsstring).

(** What one [next()] on the generator comes to.  The first three are what
    the promise it returns settles to.  [Pending]: the promise never
    settles.  [Uncaught e]: [e] was thrown by an event listener, outside
    the generator and its [try]; no caller of the handler receives it
    ([index.ts] installs no handler for it either). *)
Inductive iter_result :=
| Yielded (message : SDKMessage)
| Done
| Raised (e : error)
| Pending
| Uncaught (e : error).

(** The subprocess as the handler observes it, once spawned: the lines of
    its standard output, the code of its [close] event ([None] for
    [null]), and when the runtime emits that event.  The lines wait in the
    [readline] interface until the generator asks for them, so the event
    can come while the generator is still suspended at a [yield]:
    [closed_early = Some n] when it comes while the consumer holds the
    message of index [n]; [None] when it comes after the generator has
    read the output to its end. *)
Record subprocess := {
  stdout : list jsstring;
  exit_code : option Z;
  closed_early : option nat
}.

(** How [spawn] can fail: it throws (an argument list too long for the
    system, an argument holding a null character), or it returns and the
    subprocess emits an [error] event (no such program, no such working
    directory). *)
Inductive spawn_error :=
| Thrown (message : jsstring)
| Emitted (message : jsstring).

(** What [spawn] gives: a subprocess, or none. *)
Inductive spawned :=
| Child (p : subprocess)
| NoChild (e : spawn_error).

(** A suspended [streamQuery]: the lines not read yet, the code the [close]
    event carries, the number of further messages after whose [yield] the
    event is emitted, whether it has been emitted already, the session
    reference the call was given, whether the generator has completed, and
    how [spawn] fails if the subprocess does not start. *)
Record generator := {
  unread : list jsstring;
  close_code : option Z;
  closes_in : option nat;
  child_closed : bool;
  session : option loc;
  finished : bool;
  spawn_failure : option spawn_error
}.

Section StreamQuery.

(** [JSON.parse(line)]: [None] when it throws. *)
Variable JSON_parse : jsstring -> option value.

(** The tool-server configuration provider ([McpManager]). *)
Variable getServerConfiguration : option servers.
Variable getDefaultAllowedTools : list jsstring.

(** [JSON.stringify] at the two places it is used. *)
Variable stringify_mcp_config : servers -> jsstring.
Variable stringify_context : SlackContext -> jsstring.

(** [process.cwd()] and [process.env.SLACK_BOT_TOKEN]. *)
Variable process_cwd : jsstring.
Variable SLACK_BOT_TOKEN : jsstring.

Definition permissionServer (slackContext : SlackContext)
    : McpServerConfig :=
  {| command := lit "npx";
     server_args :=
       [lit "tsx"; process_cwd ++ lit "/src/permission-mcp-server.ts"];
     env := [(lit "SLACK_BOT_TOKEN", SLACK_BOT_TOKEN);
             (lit "SLACK_CONTEXT", stringify_context slackContext)] |}.

(** [session?.sessionId] *)
Definition session_sessionId (hp : gmap loc ConversationSession)
    (session : option loc) : option value :=
  match session with
  | Some l => match hp !! l with
              | Some s => sessionId s
              | None => None
              end
  | None => None
  end.

(** The [--resume] part of the argument list: [session.sessionId] is
    pushed as it is. *)
Definition resume_args (hp : gmap loc ConversationSession)
    (session : option loc) : list value :=
  match session_sessionId hp session with
  | Some sid => if truthy_value sid then [str "--resume"; sid] else []
  | None => []
  end.

(** The argument list built at the head of [streamQuery]: an array of
    strings, but for the session identifier. *)
Definition build_args (hp : gmap loc ConversationSession)
    (prompt : jsstring) (session : option loc)
    (workingDirectory : option jsstring)
    (slackContext : option SlackContext) : list value :=
  let args0 :=
    [str "--print"; str "--output-format"; str "stream-json";
     str "--verbose"] in
  let args1 :=
    match workingDirectory with
    | Some wd =>
        if truthy wd then args0 ++ [str "--cwd"; VString wd] else args0
    | None => args0
    end in
  let permissionMode :=
    match slackContext with
    | Some _ => str "default"
    | None => str "bypassPermissions"
    end in
  let args2 := args1 ++ [str "--permission-mode"; permissionMode] in
  let mcpServers := default [] getServerConfiguration in
  let finalMcpServers :=
    match slackContext with
    | Some ctx =>
        spread_set mcpServers (lit "permission-prompt")
          (permissionServer ctx)
    | None => mcpServers
    end in
  let args3 :=
    match slackContext with
    | Some _ =>
        args2 ++ [str "--permission-prompt-tool-name";
                  str "mcp__permission-prompt__permission_prompt"]
    | None => args2
    end in
  let args4 :=
    if (0 <? length finalMcpServers)%nat then
      let defaultMcpTools :=
        match slackContext with
        | Some _ => getDefaultAllowedTools ++ [lit "mcp__permission-prompt"]
        | None => getDefaultAllowedTools
        end in
      (args3 ++ [str "--mcp-config";
                 VString (stringify_mcp_config finalMcpServers)])
      ++ (if (0 <? length defaultMcpTools)%nat
          then str "--allowedTools" :: (VString <$> defaultMcpTools)
          else [])
    else args3 in
  let args5 := args4 ++ resume_args hp session in
  args5 ++ [VString prompt].

(** The working directory given to [spawn]. *)
Definition spawn_cwd (workingDirectory : option jsstring) : jsstring :=
  match workingDirectory with
  | Some wd => if truthy wd then wd else process_cwd
  | None => process_cwd
  end.

(** [message.type === 'system' && message.subtype === 'init'] on a message
    that is not [null]. *)
Definition is_init (message : SDKMessage) : bool :=
  is_string "system" (type message) && is_string "init" (subtype message).

(** [session.sessionId = message.session_id] on the shared object. *)
Definition set_sessionId (sid : option value)
    (s : ConversationSession) : ConversationSession :=
  {| userId := userId s; channelId := channelId s;
     threadTs := threadTs s; sessionId := sid;
     isActive := isActive s; lastActivity := lastActivity s |}.

(** The statements between [JSON.parse] and [yield]. *)
Definition handle_init (hp : gmap loc ConversationSession)
    (session : option loc) (message : SDKMessage)
    : gmap loc ConversationSession :=
  match session with
  | Some l =>
      if is_init message
      then alter (set_sessionId (session_id message)) l hp
      else hp
  | None => hp
  end.

(** The body of the inner [try] up to [yield], on one line that is not
    blank: [None] when it throws, which it does when [JSON.parse] throws
    and when the line holds [null] (reading [message.type] throws then);
    the [catch] logs and the loop goes on. *)
Definition parse_message (line : jsstring) : option SDKMessage :=
  match JSON_parse line with
  | Some VNull => None
  | Some message => Some message
  | None => None
  end.

(** The [for await] loop from its current line up to the next [yield]:
    blank lines are passed over, and so are the lines on which the body
    of the [try] throws.  [None] when the input ends first. *)
Fixpoint read_until_yield (hp : gmap loc ConversationSession)
    (session : option loc) (lines : list jsstring)
    : gmap loc ConversationSession * option (SDKMessage * list jsstring) :=
  match lines with
  | [] => (hp, None)
  | line :: rest =>
      if truthy (trim line) then
        match parse_message line with
        | Some message =>
            (handle_init hp session message, Some (message, rest))
        | None => read_until_yield hp session rest
        end
      else read_until_yield hp session rest
  end.

(** The promise on the [close] event, when the event reaches its
    listener: resolved for [0] and [null], rejected otherwise. *)
Definition on_close (code : option Z) : iter_result :=
  match code with
  | None => Done
  | Some c => if c =? 0 then Done else Raised (ExitedWithCode c)
  end.

(** The state of the [close] event after one more [yield]. *)
Definition tick (g : generator) : option nat * bool :=
  match closes_in g with
  | Some O => (None, true)
  | Some (S n) => (Some n, child_closed g)
  | None => (None, child_closed g)
  end.

(** A fresh generator: nothing runs before the first [next()]. *)
Definition start (p : subprocess) (session : option loc) : generator :=
  {| unread := stdout p; close_code := exit_code p;
     closes_in := closed_early p; child_closed := false;
     session := session; finished := false; spawn_failure := None |}.

Definition streamQuery (child : spawned) (session : option loc)
    : generator :=
  match child with
  | Child p => start p session
  | NoChild e =>
      {| unread := []; close_code := None; closes_in := None;
         child_closed := false; session := session; finished := false;
         spawn_failure := Some e |}
  end.

(** One [next()].  When [spawn] throws, the generator throws its error
    and is done.  When the subprocess emits [error], the listener of that
    event throws while the generator waits for a first line.  Otherwise
    the loop runs to its next [yield]; when the lines run out, the
    generator attaches its listener for [close] and waits: for an event
    that was emitted before, it waits for ever. *)
Definition next (g : generator) (hp : gmap loc ConversationSession)
    : iter_result * generator * gmap loc ConversationSession :=
  if finished g then (Done, g, hp)
  else
    match spawn_failure g with
    | Some (Thrown message) =>
        (Raised (SpawnThrew message),
         {| unread := []; close_code := close_code g;
            closes_in := None; child_closed := child_closed g;
            session := session g; finished := true;
            spawn_failure := None |},
         hp)
    | Some (Emitted message) => (Uncaught (FailedToSpawn message), g, hp)
    | None =>
        match read_until_yield hp (session g) (unread g) with
        | (hp', Some (message, rest)) =>
            (Yielded message,
             {| unread := rest; close_code := close_code g;
                closes_in := (tick g).1; child_closed := (tick g).2;
                session := session g; finished := false;
                spawn_failure := None |},
             hp')
        | (hp', None) =>
            if child_closed g then
              (Pending,
               {| unread := []; close_code := close_code g;
                  closes_in := None; child_closed := true;
                  session := session g; finished := false;
                  spawn_failure := None |},
               hp')
            else
              (on_close (close_code g),
               {| unread := []; close_code := close_code g;
                  closes_in := None; child_closed := false;
                  session := session g; finished := true;
                  spawn_failure := None |},
               hp')
        end
    end.

(** A consumer's [for await (const m of streamQuery(...))]: the messages
    received, how the iteration ended, and the heap afterwards.  [None]
    when [fuel] calls of [next] were not enough. *)
Fixpoint consume (fuel : nat) (g : generator)
    (hp : gmap loc ConversationSession)
    : option (list SDKMessage * iter_result
              * gmap loc ConversationSession) :=
  match fuel with
  | O => None
  | S fuel' =>
      match next g hp with
      | (Yielded message, g', hp') =>
          match consume fuel' g' hp' with
          | Some (ms, r, hp'') => Some (message :: ms, r, hp'')
          | None => None
          end
      | (r, _, hp') => Some ([], r, hp')
      end
  end.

(** The decoding of one line, as the loop performs it. *)
Definition decode (line : jsstring) : option SDKMessage :=
  if truthy (trim line) then parse_message line else None.

End StreamQuery.

End ClaudeHandler.

(* ================================================================== *)
(** * Node's [path] module (POSIX flavour) *)
(* ================================================================== *)

(** The functions of Node's own [path] library that the manager calls,
    after the library's behaviour on POSIX: a path is cut into segments at
    the separators, and [normalizeString] is a pass over the segments. *)

Module Path.

Definition SLASH : N := 47.
Definition DOT : N := 46.

(** [path.isAbsolute]. *)
Definition isAbsolute (p : jsstring) : bool :=
  match p with c :: _ => (c =? SLASH)%N | [] => false end.

(** The segments between the separators of a path. *)
Fixpoint split (p : jsstring) : list jsstring :=
  match p with
  | [] => [[]]
  | c :: p' =>
      if (c =? SLASH)%N then [] :: split p'
      else match split p' with
           | seg :: segs => (c :: seg) :: segs
           | [] => [[c]]
           end
  end.

(** The segments joined by the separator. *)
Fixpoint unsplit (segs : list jsstring) : jsstring :=
  match segs with
  | [] => []
  | [seg] => seg
  | seg :: segs' => seg ++ SLASH :: unsplit segs'
  end.

(** One segment of [normalizeString], on the stack of segments kept so
    far (innermost first): empty and [.] segments are dropped, [..]
    removes the segment before it, or is kept when there is none to remove
    and the path is relative. *)
Definition normalize_segment (allowAboveRoot : bool)
    (kept : list jsstring) (seg : jsstring) : list jsstring :=
  if decide (seg = [] ∨ seg = [DOT]) then kept
  else if decide (seg = [DOT; DOT]) then
    match kept with
    | top :: below =>
        if decide (top = [DOT; DOT]) then
          if allowAboveRoot then seg :: kept else kept
        else below
    | [] => if allowAboveRoot then [seg] else []
    end
  else seg :: kept.

(** [normalizeString(path, allowAboveRoot, '/', isPosixPathSeparator)]. *)
Definition normalizeString (path : jsstring) (allowAboveRoot : bool)
    : jsstring :=
  unsplit (rev (fold_left (normalize_segment allowAboveRoot) (split path) [])).

(** One turn of the loop of [path.resolve], from the last argument to the
    working directory. *)
Definition resolve_step (acc : jsstring * bool) (path : jsstring)
    : jsstring * bool :=
  if acc.2 then acc
  else match path with
       | [] => acc
       | c :: _ => (path ++ SLASH :: acc.1, (c =? SLASH)%N)
       end.

(** [path.resolve(...paths)] in a process whose working directory is
    [cwd]. *)
Definition resolve (cwd : jsstring) (paths : list jsstring) : jsstring :=
  let r := fold_left resolve_step (rev paths ++ [cwd]) ([], false) in
  let n := normalizeString r.1 (negb r.2) in
  if r.2 then SLASH :: n
  else if truthy n then n else [DOT].

(** [path.normalize]. *)
Definition normalize (path : jsstring) : jsstring :=
  match path with
  | [] => [DOT]
  | _ :: _ =>
      let isAbs := isAbsolute path in
      let trailingSeparator := bool_decide (last path = Some SLASH) in
      let n := normalizeString path (negb isAbs) in
      match n with
      | [] =>
          if isAbs then [SLASH]
          else if trailingSeparator then [DOT; SLASH] else [DOT]
      | _ :: _ =>
          let n' := if trailingSeparator then n ++ [SLASH] else n in
          if isAbs then SLASH :: n' else n'
      end
  end.

(** [path.join(...paths)]. *)
Definition join (paths : list jsstring) : jsstring :=
  match List.filter truthy paths with
  | [] => [DOT]
  | joined => normalize (unsplit joined)
  end.

End Path.

(* ================================================================== *)
(** * Regular expressions (the fragment the commands use) *)
(* ================================================================== *)

Module RegExp.

(** Patterns without the [u] flag, matched under the [i] flag. *)
Inductive regex :=
| Eps                           (* the empty pattern *)
| Bol                           (* ^ *)
| Eol                           (* $ *)
| Chr (c : N)                   (* a pattern character *)
| Cls (p : N → bool)            (* a class: \s, ., [- ] *)
| Seq (r1 r2 : regex)
| Alt (r1 r2 : regex)           (* r1|r2 *)
| Opt (r : regex)               (* r? *)
| Plus (r : regex)              (* r+ *)
| Group (r : regex).            (* the capturing group ( r ) *)

(** ECMAScript [Canonicalize] with [IgnoreCase] and without [Unicode], on
    the code units it can relate to a pattern character below 128: a code
    unit from 128 up never canonicalizes below 128, and every pattern
    character of this program is below 128. *)
Definition canonicalize (c : N) : N :=
  if ((97 <=? c) && (c <=? 122))%N then (c - 32)%N else c.

(** The class [.] (without the [s] flag) and the class [\s]. *)
Definition any_char (c : N) : bool := negb (is_line_terminator c).
Definition space_char (c : N) : bool := is_space c.

(** A match state: the index reached, the input from there on, and what
    the capturing group holds. *)
Record mstate := {
  index : nat;
  rest : jsstring;
  capture : option jsstring
}.

Definition step (x : mstate) (s : jsstring) : mstate :=
  {| index := S (index x); rest := s; capture := capture x |}.

(** [RepeatMatcher] for a greedy quantifier without upper bound, once its
    mandatory rounds are done: try one more round of the matcher [mr], a
    round that matches the empty string being refused, and fall back on
    the continuation.  [n] bounds the rounds still possible, one per code
    unit left. *)
Fixpoint repeat_greedy (mr : mstate → (mstate → option mstate) → option mstate)
    (c : mstate → option mstate) (n : nat) (x : mstate) : option mstate :=
  match n with
  | O => c x
  | S n' =>
      match mr x (λ y, if decide (index y = index x) then None
                       else repeat_greedy mr c n' y)
      with
      | Some z => Some z
      | None => c x
      end
  end.

(** The matcher of a pattern, in the continuation style of the ECMAScript
    specification: [m r x c] matches [r] at [x] and hands every way of
    doing so, in order of preference, to [c] until one succeeds. *)
Fixpoint m (r : regex) (x : mstate) (c : mstate → option mstate)
    {struct r} : option mstate :=
  match r with
  | Eps => c x
  | Bol => if decide (index x = 0%nat) then c x else None
  | Eol => match rest x with [] => c x | _ :: _ => None end
  | Chr ch =>
      match rest x with
      | a :: s =>
          if (canonicalize a =? canonicalize ch)%N then c (step x s)
          else None
      | [] => None
      end
  | Cls p =>
      match rest x with
      | a :: s => if p a then c (step x s) else None
      | [] => None
      end
  | Seq r1 r2 => m r1 x (λ y, m r2 y c)
  | Alt r1 r2 =>
      match m r1 x c with
      | Some z => Some z
      | None => m r2 x c
      end
  | Opt r1 =>
      match m r1 x (λ y, if decide (index y = index x) then None else c y)
      with
      | Some z => Some z
      | None => c x
      end
  | Plus r1 =>
      m r1 x (λ y, repeat_greedy (m r1) c (length (rest y)) y)
  | Group r1 =>
      m r1 x (λ y,
        c {| index := index y; rest := rest y;
             capture := Some (take (index y - index x) (rest x)) |})
  end.

(** [RegExpBuiltinExec] without the [g] and [y] flags: the first index,
    from 0 on, at which the pattern matches. *)
Fixpoint exec_from (r : regex) (i : nat) (s : jsstring) : option mstate :=
  match m r {| index := i; rest := s; capture := None |} Some with
  | Some y => Some y
  | None =>
      match s with
      | [] => None
      | _ :: s' => exec_from r (S i) s'
      end
  end.

(** [text.match(r)], reduced to what the callers read: whether there is a
    match, and the capturing group [[1]] of it. *)
Definition match_ (text : jsstring) (r : regex) : option (option jsstring) :=
  capture <$> exec_from r 0 text.

(** A sequence of patterns, and a choice among patterns. *)
Fixpoint sequence (rs : list regex) : regex :=
  match rs with
  | [] => Eps
  | [r] => r
  | r :: rs' => Seq r (sequence rs')
  end.

Fixpoint choice (r : regex) (rs : list regex) : regex :=
  match rs with
  | [] => r
  | r' :: rs' => Alt r (choice r' rs')
  end.

(** A literal word of the pattern. *)
Definition word (w : string) : regex := sequence (Chr <$> lit w).

End RegExp.

(* ================================================================== *)
(** * WorkingDirectoryManager *)
(* ================================================================== *)

Module WorkingDirectoryManager.
Import RegExp.

(** [interface WorkingDirectoryConfig] (declared in [types.ts]).  A
    configuration made by [setWorkingDirectory] holds strings; one made
    by [loadFromDisk] holds what the file had under the names of the
    fields, whatever values those are.  The directory is a string in both
    cases.  A [Date] is its time value, [None] for an invalid date. *)
Record WorkingDirectoryConfig := {
  channelId : option value;
  threadTs : option value;
  userId : option value;
  directory : jsstring;
  setAt : option Z
}.

(** [interface PersistenceData], as [saveToDisk] builds it; [entry_setAt]
    stands for the ISO-8601 text of its time value. *)
Inductive scope := channel | dm | thread.

Record PersistedEntry := {
  entry_type : scope;
  entry_channelId : option value;
  entry_threadTs : option value;
  entry_userId : option value;
  entry_directory : jsstring;
  entry_setAt : Z
}.

Record PersistenceData := {
  version : jsstring;
  directories : gmap jsstring PersistedEntry
}.

(** The persistence file as [loadFromDisk] finds it: absent, present but
    failing [readFileSync], or holding a text. *)
Inductive file :=
| Missing
| Unreadable
| Content (text : jsstring).

(** The manager ([configs], [saveTimer]) together with the part of the
    runtime it acts on: the clock, the table of armed timeouts (identifier
    and due time; every callback armed here is [saveToDisk]), the
    persistence file, and the record of the documents written so far. *)
Record world := {
  configs : gmap jsstring WorkingDirectoryConfig;
  saveTimer : option nat;
  now : Z;
  timers : list (nat * Z);
  next_timer : nat;
  disk : file;
  written : list (Z * PersistenceData)
}.

Definition SAVE_DEBOUNCE_MS : Z := 1000.
Definition PERSISTENCE_VERSION : jsstring := lit "1.0".

Definition with_configs (c : gmap jsstring WorkingDirectoryConfig)
    (w : world) : world :=
  {| configs := c; saveTimer := saveTimer w; now := now w;
     timers := timers w; next_timer := next_timer w; disk := disk w;
     written := written w |}.

(** [getConfigKey]. *)
Definition getConfigKey (channelId : jsstring) (threadTs : option jsstring)
    (userId : option jsstring) : jsstring :=
  if truthy_opt threadTs then channelId ++ lit "-" ++ default [] threadTs
  else if truthy_opt userId && startsWith (lit "D") channelId
  then channelId ++ lit "-" ++ default [] userId
  else channelId.

(** [getWorkingDirectory]. *)
Definition getWorkingDirectory (w : world) (channelId : jsstring)
    (threadTs userId : option jsstring) : option jsstring :=
  let threadConfig :=
    if truthy_opt threadTs
    then configs w !! getConfigKey channelId threadTs None
    else None in
  match threadConfig with
  | Some threadConfig => Some (directory threadConfig)
  | None =>
      let channelKey := getConfigKey channelId None userId in
      match configs w !! channelKey with
      | Some channelConfig => Some (directory channelConfig)
      | None => None
      end
  end.

(** [getChannelWorkingDirectory]. *)
Definition getChannelWorkingDirectory (w : world) (channelId : jsstring)
    : option jsstring :=
  directory <$> configs w !! getConfigKey channelId None None.

(** ** Timers *)

(** [clearTimeout(id)]. *)
Definition clearTimeout (id : nat) (w : world) : world :=
  {| configs := configs w; saveTimer := saveTimer w; now := now w;
     timers := List.filter (λ t, negb (bool_decide (t.1 = id))) (timers w);
     next_timer := next_timer w; disk := disk w; written := written w |}.

(** [scheduleSave]: [clearTimeout] of the timer held, if any, then
    [this.saveTimer = setTimeout(saveToDisk, SAVE_DEBOUNCE_MS)]. *)
Definition scheduleSave (w : world) : world :=
  let w1 := match saveTimer w with
            | Some id => clearTimeout id w
            | None => w
            end in
  let id := next_timer w1 in
  {| configs := configs w1; saveTimer := Some id; now := now w1;
     timers := timers w1 ++ [(id, now w1 + SAVE_DEBOUNCE_MS)];
     next_timer := S id; disk := disk w1; written := written w1 |}.

(** ** Persistence *)

(** The entry [saveToDisk] builds for one configuration; [None] when
    building it throws: [config.channelId.startsWith] is no function
    unless the channel is a string, and [toISOString] throws on an invalid
    date. *)
Definition to_entry (config : WorkingDirectoryConfig)
    : option PersistedEntry :=
  type ←
    (if truthy_value_opt (threadTs config) then Some thread
     else match channelId config with
          | Some (VString c) =>
              Some (if startsWith (lit "D") c then dm else channel)
          | _ => None
          end);
  time ← setAt config;
  Some {| entry_type := type;
          entry_channelId := channelId config;
          entry_threadTs := threadTs config;
          entry_userId := userId config;
          entry_directory := directory config;
          entry_setAt := time |}.

(** [data.directories[key] = entry] on the object literal [{}]: under the
    key [__proto__] the assignment sets the prototype of the object and
    adds no property to it. *)
Definition assign (key : jsstring) (entry : PersistedEntry)
    (data : gmap jsstring PersistedEntry) : gmap jsstring PersistedEntry :=
  if decide (key = lit "__proto__") then data else <[key := entry]> data.

(** One turn of the loop of [saveToDisk]; [None] once a turn has
    thrown. *)
Definition save_entry (key : jsstring) (config : WorkingDirectoryConfig)
    (data : option (gmap jsstring PersistedEntry))
    : option (gmap jsstring PersistedEntry) :=
  data ← data; entry ← to_entry config; Some (assign key entry data).

(** The document [saveToDisk] builds: its loop over
    [this.configs.entries()]. *)
Definition snapshot (c : gmap jsstring WorkingDirectoryConfig)
    : option PersistenceData :=
  data ← map_fold save_entry (Some ∅) c;
  Some {| version := PERSISTENCE_VERSION; directories := data |}.

Section Environment.

(** [config.baseDirectory] and [process.cwd()]. *)
Variable baseDirectory : jsstring.
Variable process_cwd : jsstring.

(** The file system: [fs.existsSync], and [fs.statSync(p).isDirectory()]
    ([None] when [statSync] throws). *)
Variable existsSync : jsstring → bool.
Variable statSync_isDirectory : jsstring → option bool.

(** Whether the write of the persistence file begun at a given time goes
    through ([mkdirSync], [writeFile] and [rename] all succeed). *)
Variable write_succeeds : Z → bool.

(** [JSON.stringify(data, null, 2)] on the document, [JSON.parse] on the
    text of the file ([None] when it throws), and the time value of
    [new Date(v)]. *)
Variable JSON_stringify : PersistenceData → jsstring.
Variable JSON_parse : jsstring → option value.
Variable Date_of : option value → option Z.

(** [saveToDisk]: the document is built when the call starts; an
    exception, from building it or from writing it, is caught and logged,
    and leaves the file as it was. *)
Definition saveToDisk (w : world) : world :=
  match snapshot (configs w) with
  | Some data =>
      if write_succeeds (now w) then
        {| configs := configs w; saveTimer := saveTimer w; now := now w;
           timers := timers w; next_timer := next_timer w;
           disk := Content (JSON_stringify data);
           written := written w ++ [(now w, data)] |}
      else w
  | None => w
  end.

(** The loop of [loadFromDisk] over [Object.entries(data.directories)].
    Reading a field of an entry that is [null] throws, and the [catch]
    around the whole method ends the loop with the map as the turns
    before have left it.  [fs.existsSync] answers [false] on what is no
    path. *)
Fixpoint load_entries (es : list (jsstring * value))
    (c : gmap jsstring WorkingDirectoryConfig)
    : gmap jsstring WorkingDirectoryConfig :=
  match es with
  | [] => c
  | (key, entry) :: es' =>
      match entry with
      | VNull => c
      | _ =>
          let config directory :=
            {| channelId := field "channelId" entry;
               threadTs := field "threadTs" entry;
               userId := field "userId" entry;
               directory := directory;
               setAt := Date_of (field "setAt" entry) |} in
          match field "directory" entry with
          | Some (VString directory) =>
              if existsSync directory
              then load_entries es' (<[key := config directory]> c)
              else load_entries es' c
          | _ => load_entries es' c
          end
      end
  end.

(** [data.version !== this.PERSISTENCE_VERSION], [data.version] read. *)
Definition version_mismatch (version : option value) : bool :=
  match version with
  | Some (VString v) => bool_decide (v ≠ PERSISTENCE_VERSION)
  | _ => true
  end.

(** [loadFromDisk].  Every exception is caught and logged: from
    [readFileSync], from [JSON.parse], from reading [data.version] when
    the text holds [null]; and, after [this.configs.clear()], from
    [Object.entries] and from the loop. *)
Definition loadFromDisk (w : world) : world :=
  match disk w with
  | Missing => w
  | Unreadable => w
  | Content text =>
      match JSON_parse text with
      | None => w
      | Some data =>
          match get data "version" with
          | None => w
          | Some version =>
              if version_mismatch version then w
              else
                match entries (field "directories" data) with
                | None => with_configs ∅ w
                | Some es => with_configs (load_entries es ∅) w
                end
          end
      end
  end.

(** The constructor, run at time [t] over the persistence file [f]. *)
Definition new (t : Z) (f : file) : world :=
  loadFromDisk
    {| configs := ∅; saveTimer := None; now := t; timers := [];
       next_timer := 0; disk := f; written := [] |}.

(** ** Resolution *)

(** [resolveDirectory]. *)
Definition resolveDirectory (directory : jsstring) : option jsstring :=
  if Path.isAbsolute directory then
    if existsSync directory
    then Some (Path.resolve process_cwd [directory])
    else None
  else
    let found_in_base :=
      if truthy baseDirectory then
        let baseRelativePath := Path.join [baseDirectory; directory] in
        if existsSync baseRelativePath
        then Some (Path.resolve process_cwd [baseRelativePath])
        else None
      else None in
    match found_in_base with
    | Some resolved => Some resolved
    | None =>
        let cwdRelativePath := Path.resolve process_cwd [directory] in
        if existsSync cwdRelativePath then Some cwdRelativePath else None
    end.

(** The value [setWorkingDirectory] returns. *)
Record set_result := {
  success : bool;
  resolvedPath : option jsstring;
  error : option jsstring
}.

Definition failure (message : jsstring) : set_result :=
  {| success := false; resolvedPath := None; error := Some message |}.

Definition not_found_message (directory : jsstring) : jsstring :=
  lit "Directory not found: " ++ [34%N] ++ directory ++ [34%N]
  ++ (if truthy baseDirectory
      then lit " (checked in base directory: " ++ baseDirectory ++ lit ")"
      else []).

(** A computation on the world that returns or throws. *)
Inductive completion (A : Type) :=
| Returns (a : A)
| Throws.
Arguments Returns {A} a.
Arguments Throws {A}.

Definition action (A : Type) : Type := world → completion A * world.

Definition ret {A} (a : A) : action A := λ w, (Returns a, w).
Definition throw {A} : action A := λ w, (Throws, w).
Definition bind {A B} (x : action A) (f : A → action B) : action B :=
  λ w, match x w with
       | (Returns a, w') => f a w'
       | (Throws, w') => (Throws, w')
       end.
Definition modify (f : world → world) : action unit :=
  λ w, (Returns tt, f w).
(** [try { body } catch (error) { handler }]. *)
Definition try_catch {A} (body handler : action A) : action A :=
  λ w, match body w with
       | (Returns a, w') => (Returns a, w')
       | (Throws, w') => handler w'
       end.

#[local] Instance action_ret : MRet action := @ret.
#[local] Instance action_bind : MBind action := λ A B f x, bind x f.

(** [fs.statSync(p)], which may throw. *)
Definition statSync (p : jsstring) : action bool :=
  match statSync_isDirectory p with
  | Some isDirectory => ret isDirectory
  | None => throw
  end.

(** [setWorkingDirectory], called at the world's current time. *)
Definition setWorkingDirectory (channelId directory : jsstring)
    (threadTs userId : option jsstring) : action set_result :=
  try_catch
    (match resolveDirectory directory with
     | None => ret (failure (not_found_message directory))
     | Some resolvedPath =>
         if negb (truthy resolvedPath)
         then ret (failure (not_found_message directory))
         else
           isDirectory ← statSync resolvedPath;
           if negb isDirectory
           then ret (failure (lit "Path is not a directory"))
           else
             let key := getConfigKey channelId threadTs userId in
             modify (λ w,
               with_configs
                 (<[key := {| channelId := Some (VString channelId);
                              threadTs := VString <$> threadTs;
                              userId := VString <$> userId;
                              directory := resolvedPath;
                              setAt := Some (now w) |}]> (configs w)) w);;
             modify scheduleSave;;
             ret {| success := true; resolvedPath := Some resolvedPath;
                    error := None |}
     end)
    (ret (failure (lit "Directory does not exist or is not accessible"))).

(** [removeWorkingDirectory]. *)
Definition removeWorkingDirectory (channelId : jsstring)
    (threadTs userId : option jsstring) (w : world) : bool * world :=
  let key := getConfigKey channelId threadTs userId in
  match configs w !! key with
  | Some _ => (true, scheduleSave (with_configs (delete key (configs w)) w))
  | None => (false, w)
  end.

(** ** The event loop *)

Definition with_now (t : Z) (w : world) : world :=
  {| configs := configs w; saveTimer := saveTimer w; now := t;
     timers := timers w; next_timer := next_timer w; disk := disk w;
     written := written w |}.

(** Among the armed timers, the one due first by time [t] (the one armed
    first among equals). *)
Fixpoint first_due (t : Z) (ts : list (nat * Z)) : option (nat * Z) :=
  match ts with
  | [] => None
  | (id, due) :: ts' =>
      if due <=? t then
        match first_due t ts' with
        | Some (id', due') =>
            if due' <? due then Some (id', due') else Some (id, due)
        | None => Some (id, due)
        end
      else first_due t ts'
  end.

(** The timers phase up to time [t]: each timer that is due is
    disarmed and its callback, [saveToDisk], runs at the due time. *)
Fixpoint run_timers (fuel : nat) (t : Z) (w : world) : world :=
  match fuel with
  | O => w
  | S fuel' =>
      match first_due t (timers w) with
      | Some (id, due) =>
          run_timers fuel' t
            (saveToDisk (with_now (Z.max (now w) due) (clearTimeout id w)))
      | None => w
      end
  end.

(** Time passes until [t]. *)
Definition advance (t : Z) (w : world) : world :=
  let w' := run_timers (length (timers w)) t w in
  with_now (Z.max (now w') t) w'.

(** The two calls that change the map. *)
Inductive request :=
| SetRequest (channelId directory : jsstring)
    (threadTs userId : option jsstring)
| RemoveRequest (channelId : jsstring) (threadTs userId : option jsstring).

(** A request served: whether it changed the map, and the world after. *)
Definition serve (r : request) (w : world) : bool * world :=
  match r with
  | SetRequest channelId directory threadTs userId =>
      match setWorkingDirectory channelId directory threadTs userId w with
      | (Returns result, w') => (success result, w')
      | (Throws, w') => (false, w')
      end
  | RemoveRequest channelId threadTs userId =>
      removeWorkingDirectory channelId threadTs userId w
  end.

(** Requests arriving at given times, served in turn. *)
Fixpoint run (events : list (Z * request)) (w : world) : world :=
  match events with
  | [] => w
  | (t, r) :: events' => run events' (serve r (advance t w)).2
  end.

(** Every request of the run changes the map. *)
Fixpoint all_mutate (events : list (Z * request)) (w : world) : Prop :=
  match events with
  | [] => True
  | (t, r) :: events' =>
      (serve r (advance t w)).1 = true
      ∧ all_mutate events' (serve r (advance t w)).2
  end.

End Environment.

Arguments Returns {A} a.
Arguments Throws {A}.

(** ** Commands *)

(** [/^cwd\s+(.+)$/i] *)
Definition cwd_pattern : regex :=
  sequence [Bol; word "cwd"; Plus (Cls space_char);
            Group (Plus (Cls any_char)); Eol].

(** The class [[- ]]. *)
Definition dash_or_space (c : N) : bool := ((c =? 45) || (c =? 32))%N.

(** [/^set\s+(?:cwd|dir|directory|working[- ]?directory)\s+(.+)$/i] *)
Definition set_pattern : regex :=
  sequence [Bol; word "set"; Plus (Cls space_char);
            choice (word "cwd")
              [word "dir"; word "directory";
               sequence [word "working"; Opt (Cls dash_or_space);
                         word "directory"]];
            Plus (Cls space_char); Group (Plus (Cls any_char)); Eol].

(** [parseSetCommand]; [None] is [null].  Group 1 takes part in every
    match of either pattern, so [cwdMatch[1]] is always a string. *)
Definition parseSetCommand (text : jsstring) : option jsstring :=
  match match_ text cwd_pattern with
  | Some cwdMatch_1 => trim <$> cwdMatch_1
  | None =>
      match match_ text set_pattern with
      | Some setMatch_1 => trim <$> setMatch_1
      | None => None
      end
  end.

(** [hasChannelWorkingDirectory]: [!!this.getChannelWorkingDirectory(id)]. *)
Definition hasChannelWorkingDirectory (w : world) (channelId : jsstring)
    : bool :=
  truthy_opt (getChannelWorkingDirectory w channelId).

(** [/^(get\s+)?(cwd|dir|directory|working[- ]?directory)(\?)?$/i].  The
    pattern is only tested: what its groups hold is never read. *)
Definition get_pattern : regex :=
  sequence [Bol;
            Opt (Group (sequence [word "get"; Plus (Cls space_char)]));
            Group (choice (word "cwd")
                     [word "dir"; word "directory";
                      sequence [word "working"; Opt (Cls dash_or_space);
                                word "directory"]]);
            Opt (Group (Chr 63));
            Eol].

(** [isGetCommand]: the pattern tested on [text.trim()]. *)
Definition isGetCommand (text : jsstring) : bool :=
  bool_decide (is_Some (match_ (trim text) get_pattern)).

End WorkingDirectoryManager.

(* ================================================================== *)
(** * Specification-side notions and sample data *)
(* ================================================================== *)

Module SessionSpec.
Import ClaudeHandler.

(** A map entry whose record has been idle for more than [maxAge]. *)
Definition stale (now maxAge : Z) (hp : gmap loc ConversationSession)
    (entry : jsstring * loc) : Prop :=
  ∃ session, hp !! entry.2 = Some session
             ∧ now - lastActivity session > maxAge.

#[global] Instance stale_dec now maxAge hp entry :
  Decision (stale now maxAge hp entry).
Proof.
  unfold stale. destruct (hp !! entry.2) as [s|].
  - destruct (decide (now - lastActivity s > maxAge)).
    + left. eauto.
    + right. intros (s' & [= <-] & ?). done.
  - right. intros (s' & [=] & _).
Defined.

(** A protocol message, as [interface SDKMessage] declares it: an object
    with a string under [type]. *)
Definition protocol_message (v : value) : Prop :=
  ∃ props t, v = VObject props ∧ property (lit "type") props = Some (VString t).

(** The init messages of a sequence, and the identifier the last of them
    carries. *)
Definition init_messages (ms : list SDKMessage) : list SDKMessage :=
  filter (λ m, is_init m = true) ms.

(** The messages a sequence of lines decodes to, and the heap after the
    handler has seen them all. *)
Definition delivered (JSON_parse : jsstring → option value)
    (lines : list jsstring) : list SDKMessage :=
  omap (decode JSON_parse) lines.

Definition heap_after (hp : gmap loc ConversationSession)
    (session : option loc) (ms : list SDKMessage)
    : gmap loc ConversationSession :=
  foldl (λ hp' m, handle_init hp' session m) hp ms.

(** The record [s] once the last init message of [ms] has been seen. *)
Definition captured (ms : list SDKMessage) (s : ConversationSession)
    : ConversationSession :=
  match last (init_messages ms) with
  | Some m => set_sessionId (session_id m) s
  | None => s
  end.

(** The [close] event of the subprocess comes while the consumer still
    holds one of the [n] messages of the run. *)
Definition closes_unheard (p : subprocess) (n : nat) : Prop :=
  ∃ i, closed_early p = Some i ∧ (i < n)%nat.

#[global] Instance closes_unheard_dec p n : Decision (closes_unheard p n).
Proof.
  unfold closes_unheard. destruct (closed_early p) as [i|].
  - destruct (decide (i < n)%nat).
    + left. by exists i.
    + right. by intros (? & [= <-] & ?).
  - right. by intros (? & [=] & _).
Defined.

(** Whether the [close] event goes unheard by a generator that has [n]
    messages left to yield, given the number of messages after which the
    event comes and whether it has come. *)
Definition unheard (closes_in : option nat) (child_closed : bool) (n : nat)
    : bool :=
  child_closed
  || match closes_in with Some i => (i <? n)%nat | None => false end.

(** *** Sample data *)

Definition quoted (s : jsstring) : jsstring := [34%N] ++ s ++ [34%N].

Definition member (kv : string * string) : jsstring :=
  quoted (lit kv.1) ++ lit ":" ++ quoted (lit kv.2).

(** An object whose properties are strings, and its JSON text. *)
Definition object (props : list (string * string)) : value :=
  VObject ((λ kv, (lit kv.1, str kv.2)) <$> props).

Fixpoint members (props : list (string * string)) : jsstring :=
  match props with
  | [] => []
  | [kv] => member kv
  | kv :: props' => member kv ++ lit "," ++ members props'
  end.

Definition render (props : list (string * string)) : jsstring :=
  lit "{" ++ members props ++ lit "}".

Definition init_fields (sid : string) : list (string * string) :=
  [("type", "system"); ("subtype", "init"); ("session_id", sid)]%string.

Definition init_message (sid : string) : SDKMessage :=
  object (init_fields sid).

Definition assistant_fields : list (string * string) :=
  [("type", "assistant")]%string.

Definition assistant_message : SDKMessage := object assistant_fields.

(** The number 7, which is JSON and no protocol message. *)
Definition seven : value := VNumber (Double 7 0).

(** [JSON.parse] cut down to the lines of the samples: three messages,
    the number 7 and [null]. *)
Definition sample_table : list (jsstring * value) :=
  [(render (init_fields "A"), init_message "A");
   (render (init_fields "B"), init_message "B");
   (render assistant_fields, assistant_message);
   (lit "7", seven);
   (lit "null", VNull)].

Definition sample_parse (line : jsstring) : option value :=
  snd <$> List.find (λ e, bool_decide (e.1 = line)) sample_table.

(** Three lines, the middle one not JSON. *)
Definition sample_lines : list jsstring :=
  [render (init_fields "A"); lit "oops"; render assistant_fields].

(** Two lines, the second one JSON and no protocol message. *)
Definition plain_lines : list jsstring :=
  [render assistant_fields; lit "7"].

(** A stream with one init message, for the session object of
    [sample_handler]. *)
Definition one_init : subprocess :=
  {| stdout := [render (init_fields "A"); render assistant_fields];
     exit_code := Some 0; closed_early := None |}.

(** A stream with two init messages carrying different identifiers. *)
Definition two_inits : subprocess :=
  {| stdout := [render (init_fields "A"); render (init_fields "B")];
     exit_code := Some 0; closed_early := None |}.

(** A subprocess that prints one message and ends with code 1 while the
    consumer is busy with that message. *)
Definition early_exit : subprocess :=
  {| stdout := [render assistant_fields]; exit_code := Some 1;
     closed_early := Some 0%nat |}.

(** The same subprocess, ending after the generator has read its
    output. *)
Definition late_exit : subprocess :=
  {| stdout := [render assistant_fields]; exit_code := Some 1;
     closed_early := None |}.

Definition sample_session : ConversationSession :=
  {| userId := lit "U1"; channelId := lit "C1"; threadTs := None;
     sessionId := None; isActive := true; lastActivity := 0 |}.

(** One record idle since time 0 under the key of user U1 in channel C1. *)
Definition sample_handler : handler :=
  (createSession 0 empty_handler (lit "U1") (lit "C1") None).2.

End SessionSpec.

Module DirectorySpec.
Import WorkingDirectoryManager.

(** The three scoped keys, in the words of the specification:
    thread-scoped is channel+thread; DM-scoped is channel+user, for a
    channel named like a direct message only; else channel alone. *)
Definition thread_key (channelId threadTs : jsstring) : jsstring :=
  channelId ++ lit "-" ++ threadTs.

Definition channel_or_dm_key (channelId : jsstring)
    (userId : option jsstring) : jsstring :=
  match userId with
  | Some user =>
      if truthy user && startsWith (lit "D") channelId
      then channelId ++ lit "-" ++ user
      else channelId
  | None => channelId
  end.

(** A path segment that normalization keeps as it is. *)
Definition proper_segment (seg : jsstring) : Prop :=
  seg ≠ [] ∧ seg ≠ [Path.DOT] ∧ seg ≠ [Path.DOT; Path.DOT]
  ∧ Path.SLASH ∉ seg.

(** An absolute path in normal form: the root, or proper segments each
    preceded by one separator. *)
Definition normal_absolute (p : jsstring) : Prop :=
  ∃ segs, p = Path.SLASH :: Path.unsplit segs ∧ Forall proper_segment segs.

(** The requests after the first arrive in order of time. *)
Fixpoint ordered_from (t : Z) (events : list (Z * request)) : Prop :=
  match events with
  | [] => True
  | (t', _) :: events' => t ≤ t' ∧ ordered_from t' events'
  end.

(** The time of the last request of a run that starts at [t]. *)
Definition last_time (t : Z) (events : list (Z * request)) : Z :=
  default t (last events.*1).

(** At most one timer is armed, the one [saveTimer] holds, due one window
    after time [t], and the clock reads [t]. *)
Definition one_pending (w : world) (t : Z) : Prop :=
  (∃ id, timers w = [(id, t + SAVE_DEBOUNCE_MS)] ∧ saveTimer w = Some id)
  ∧ now w = t.

(** *** Sample data *)

Definition sample_config (channelId : string) (threadTs : option string)
    (directory : string) : WorkingDirectoryConfig :=
  {| channelId := Some (str channelId); threadTs := str <$> threadTs;
     userId := None; directory := lit directory; setAt := Some 0 |}.

(** A manager holding a directory for channel C1 and another for the
    thread 17.5 of that channel; nothing armed, nothing written. *)
Definition sample_world : world :=
  {| configs :=
       <[lit "C1-17.5" := sample_config "C1" (Some "17.5"%string) "/srv/thread"]>
         (<[lit "C1" := sample_config "C1" None "/srv/channel"]> ∅);
     saveTimer := None; now := 0; timers := []; next_timer := 0;
     disk := Missing; written := [] |}.

(** A file system with the directory [/tmp] and the file [/etc/hosts]. *)
Definition sample_exists (p : jsstring) : bool :=
  bool_decide (p = lit "/tmp" ∨ p = lit "/tmp/" ∨ p = lit "/etc/hosts").

Definition sample_stat (p : jsstring) : option bool :=
  if bool_decide (p = lit "/tmp" ∨ p = lit "/tmp/") then Some true
  else if bool_decide (p = lit "/etc/hosts") then Some false
  else None.

(** Three requests within one second: a directory for channel C1, the
    thread entry removed, a directory for channel C2. *)
Definition sample_burst : list (Z * request) :=
  [(300, RemoveRequest (lit "C1") (Some (lit "17.5")) None);
 (900, SetRequest (lit "C2") (lit "/tmp/") None None)].

Definition sample_first : request :=
  SetRequest (lit "C1") (lit "/tmp") None None.

(** The entry of a file for a channel and a directory, set at the
    epoch. *)
Definition sample_entry (channelId directory : string) : value :=
  VObject [(lit "type", str "channel"); (lit "channelId", str channelId);
           (lit "directory", str directory); (lit "setAt", str "epoch")].

Definition document (version : string) (es : list (jsstring * value))
    : value :=
  VObject [(lit "version", str version); (lit "directories", VObject es)].

(** A document of another schema version, with one entry whose directory
    exists. *)
Definition old_document : value :=
  document "0.9" [(lit "C1", sample_entry "C1" "/tmp")].

(** The same document under the expected version. *)
Definition current_document : value :=
  document "1.0" [(lit "C1", sample_entry "C1" "/tmp")].

(** A document of the expected version whose second entry is [null]. *)
Definition broken_document : value :=
  document "1.0" [(lit "C1", sample_entry "C1" "/tmp"); (lit "C2", VNull);
                  (lit "C3", sample_entry "C3" "/tmp")].

(** [JSON.parse] cut down to three texts, named for what they hold. *)
Definition sample_json (text : jsstring) : option value :=
  if decide (text = lit "old") then Some old_document
  else if decide (text = lit "current") then Some current_document
  else if decide (text = lit "broken") then Some broken_document
  else None.

(** [new Date(v)] cut down to the one text of a time. *)
Definition sample_date (v : option value) : option Z :=
  if is_string "epoch" v then Some 0 else None.

(** [JSON.stringify] on documents: one text for all. *)
Definition sample_stringify (data : PersistenceData) : jsstring :=
  lit "saved".

End DirectorySpec.

Module CommandSpec.
Import RegExp WorkingDirectoryManager.

(** ** The grammar of the set command *)

(** [s] spells the lower-case word [w], each letter in either case. *)
Definition spells (w : string) (s : jsstring) : Prop :=
  Forall2 (λ a ch, a = ch ∨ a = (ch - 32)%N) s (lit w).

(** A non-empty run of white space. *)
Definition blank (s : jsstring) : Prop :=
  s ≠ [] ∧ Forall (λ a, is_space a = true) s.

(** A non-empty text on one line. *)
Definition one_line (s : jsstring) : Prop :=
  s ≠ [] ∧ Forall (λ a, is_line_terminator a = false) s.

(** What may stand between [working] and [directory]. *)
Inductive joint := Joined | Hyphen | Space.

Definition joint_text (j : joint) : jsstring :=
  match j with
  | Joined => []
  | Hyphen => lit "-"
  | Space => lit " "
  end.

(** The names of the setting as the code takes them:
    [cwd], [dir], [directory], [working[- ]?directory]. *)
Inductive setting_name : jsstring → Prop :=
| name_cwd s : spells "cwd" s → setting_name s
| name_dir s : spells "dir" s → setting_name s
| name_directory s : spells "directory" s → setting_name s
| name_working a j b :
    spells "working" a → spells "directory" b →
    setting_name (a ++ joint_text j ++ b).

(** The names as the specification lists them:
    [cwd], [dir], [directory], [working[- ]directory]. *)
Inductive listed_name : jsstring → Prop :=
| listed_cwd s : spells "cwd" s → listed_name s
| listed_dir s : spells "dir" s → listed_name s
| listed_directory s : spells "directory" s → listed_name s
| listed_working a j b :
    spells "working" a → spells "directory" b → j ≠ Joined →
    listed_name (a ++ joint_text j ++ b).

(** The short form [cwd <value>] and the long form [set <name> <value>],
    over a given set of names. *)
Definition short_form (text value : jsstring) : Prop :=
  ∃ kw ws, text = kw ++ ws ++ value
         ∧ spells "cwd" kw ∧ blank ws ∧ one_line value.

Definition long_form (names : jsstring → Prop) (text value : jsstring) : Prop :=
  ∃ kw ws1 name ws2,
  text = kw ++ ws1 ++ name ++ ws2 ++ value
  ∧ spells "set" kw ∧ blank ws1 ∧ names name ∧ blank ws2 ∧ one_line value.

Definition set_command (names : jsstring → Prop) (text value : jsstring)
    : Prop :=
  short_form text value ∨ long_form names text value.

(** ** What a pattern can match *)

(** Rounds of a repetition, each consuming something. *)
Inductive rounds (R : mstate → jsstring → mstate → Prop)
    : mstate → jsstring → mstate → Prop :=
| rounds_done x : rounds R x [] x
| rounds_more x s1 y s2 z :
    R x s1 y → s1 ≠ [] → rounds R y s2 z → rounds R x (s1 ++ s2) z.

(** [walks r x s y]: the pattern [r] can take the state [x] to the state
    [y], consuming [s]. *)
Fixpoint walks (r : regex) (x : mstate) (s : jsstring) (y : mstate) : Prop :=
  match r with
  | Eps => s = [] ∧ y = x
  | Bol => index x = 0%nat ∧ s = [] ∧ y = x
  | Eol => rest x = [] ∧ s = [] ∧ y = x
  | Chr ch =>
    ∃ a, s = [a] ∧ canonicalize a = canonicalize ch
         ∧ rest x = a :: rest y ∧ y = step x (rest y)
  | Cls p =>
    ∃ a, s = [a] ∧ p a = true ∧ rest x = a :: rest y ∧ y = step x (rest y)
  | Seq r1 r2 =>
    ∃ s1 y1 s2, s = s1 ++ s2 ∧ walks r1 x s1 y1 ∧ walks r2 y1 s2 y
  | Alt r1 r2 => walks r1 x s y ∨ walks r2 x s y
  | Opt r1 => (s = [] ∧ y = x) ∨ (s ≠ [] ∧ walks r1 x s y)
  | Plus r1 =>
    ∃ s1 y1 s2, s = s1 ++ s2 ∧ walks r1 x s1 y1
                ∧ rounds (walks r1) y1 s2 y
  | Group r1 =>
    ∃ y1, walks r1 x s y1
          ∧ y = {| index := index y1; rest := rest y1; capture := Some s |}
  end.

(** The state reached from [x] by consuming [s], the captured text
    untouched. *)
Definition after (x : mstate) (s : jsstring) : mstate :=
  {| index := index x + length s; rest := drop (length s) (rest x);
   capture := capture x |}.

(** [s] is what the input holds at [x]. *)
Definition ahead (x : mstate) (s : jsstring) : Prop :=
  ∃ t, rest x = s ++ t.

(** The state in which a match attempt at index 0 starts. *)
Definition start_of (text : jsstring) : mstate :=
  {| index := 0; rest := text; capture := None |}.

(** The state in which a match of the whole of [text] ends. *)
Definition end_of (text value : jsstring) : mstate :=
  {| index := length text; rest := []; capture := Some value |}.

(** A lower-case word. *)
Definition lower_case (w : string) : Prop :=
  Forall (λ ch, (97 ≤ ch ≤ 122)%N) (lit w).

(** The long form over a pattern for the names. *)
Definition long_pattern (names : regex) : regex :=
  sequence [Bol; word "set"; Plus (Cls space_char); names;
          Plus (Cls space_char); Group (Plus (Cls any_char)); Eol].

(** The names of the code's pattern, and the names as the specification
    writes them, [cwd|dir|directory|working[- ]directory]. *)
Definition setting_names : regex :=
  choice (word "cwd")
  [word "dir"; word "directory";
   sequence [word "working"; Opt (Cls dash_or_space); word "directory"]].

Definition listed_names : regex :=
  choice (word "cwd")
  [word "dir"; word "directory";
   sequence [word "working"; Cls dash_or_space; word "directory"]].

End CommandSpec.

Module ArgumentSpec.
Import ClaudeHandler.

(** The flags every query starts with. *)
Definition fixed_flags : list value :=
  [str "--print"; str "--output-format"; str "stream-json"; str "--verbose"].

(** The [--cwd] pair, present for a non-empty working directory. *)
Definition cwd_flags (workingDirectory : option jsstring) : list value :=
  match workingDirectory with
  | Some wd => if truthy wd then [str "--cwd"; VString wd] else []
  | None => []
  end.

(** [JSON.parse] that also answers on blank lines. *)
Definition eager_parse (parse : jsstring → option value)
    (line : jsstring) : option value :=
  if truthy (trim line) then parse line else Some (str "blank").

(** A configured server named like the synthesized one, and another. *)
Definition external_servers : servers :=
  [(lit "files", {| command := lit "fs"; server_args := []; env := [] |});
   (lit "permission-prompt",
    {| command := lit "other"; server_args := []; env := [] |})].

End ArgumentSpec.

Module StoreSpec.
Import WorkingDirectoryManager DirectorySpec CommandSpec.

(** The manager holds at most one armed timer, the one in [saveTimer]. *)
Definition tidy (w : world) : Prop :=
  timers w = [] ∨ ∃ id d, timers w = [(id, d)] ∧ saveTimer w = Some id.

(** The file holds the text of what was written last, or is [f] when
    nothing was. *)
Definition file_is_last_write (stringify : PersistenceData → jsstring)
    (f : file) (w : world) : Prop :=
  disk w = match last (written w) with
           | Some (_, data) => Content (stringify data)
           | None => f
           end.

(** Every configuration of the map is one [saveToDisk] can write: its
    date is valid, and its channel is a string unless its thread is
    truthy. *)
Definition saveable (c : gmap jsstring WorkingDirectoryConfig) : Prop :=
  ∀ key config, c !! key = Some config → is_Some (to_entry config).

(** The entry [e] holds the fields of the configuration [config], and its
    type says which kind of key the configuration has. *)
Definition reflects (config : WorkingDirectoryConfig) (e : PersistedEntry)
    : Prop :=
  entry_channelId e = channelId config
  ∧ entry_threadTs e = threadTs config
  ∧ entry_userId e = userId config
  ∧ entry_directory e = directory config
  ∧ setAt config = Some (entry_setAt e)
  ∧ (entry_type e = thread ↔ truthy_value_opt (threadTs config) = true)
  ∧ (entry_type e = dm
     ↔ truthy_value_opt (threadTs config) = false
       ∧ ∃ c, channelId config = Some (VString c)
              ∧ startsWith (lit "D") c = true).

(** The document [data] holds the map [c]: the expected version, and an
    entry for each configuration, under its key and with its fields, and
    no other entry; but that the key [__proto__] has no entry. *)
Definition holds (data : PersistenceData)
    (c : gmap jsstring WorkingDirectoryConfig) : Prop :=
  version data = PERSISTENCE_VERSION
  ∧ directories data !! lit "__proto__" = None
  ∧ ∀ key, key ≠ lit "__proto__" →
      match c !! key, directories data !! key with
      | Some config, Some e => reflects config e
      | None, None => True
      | _, _ => False
      end.

(** With no timer armed, the file holds the text of a document that
    holds the whole map, unless the map is still the map [c0] and the
    file the file [f] the manager started with. *)
Definition settled (stringify : PersistenceData → jsstring)
    (c0 : gmap jsstring WorkingDirectoryConfig) (f : file)
    (w : world) : Prop :=
  timers w = [] →
  (∃ data, disk w = Content (stringify data) ∧ holds data (configs w))
  ∨ (configs w = c0 ∧ disk w = f).

(** A relative path in normal form: proper segments, one separator
    between two of them. *)
Definition normal_relative (p : jsstring) : Prop :=
  ∃ segs, p = Path.unsplit segs ∧ segs ≠ [] ∧ Forall proper_segment segs.

(** A file system that holds [/code/proj], and [/home/bot/proj] too. *)
Definition code_exists (p : jsstring) : bool :=
  bool_decide (p = lit "/code/proj" ∨ p = lit "/home/bot/proj").

(** The entries of a file [loadFromDisk] gets to: those before the first
    that is [null]. *)
Fixpoint readable (es : list (jsstring * value))
    : list (jsstring * value) :=
  match es with
  | [] => []
  | (key, entry) :: es' =>
      match entry with
      | VNull => []
      | _ => (key, entry) :: readable es'
      end
  end.

(** The entry [entry] of a file is loaded as the configuration [config]:
    its directory is a string and exists, and the fields of [config] are
    what [entry] has under their names, its date what [new Date] makes of
    the entry's. *)
Definition loads (existsSync : jsstring → bool)
    (Date_of : option value → option Z)
    (entry : value) (config : WorkingDirectoryConfig) : Prop :=
  field "directory" entry = Some (VString (directory config))
  ∧ existsSync (directory config) = true
  ∧ channelId config = field "channelId" entry
  ∧ threadTs config = field "threadTs" entry
  ∧ userId config = field "userId" entry
  ∧ setAt config = Date_of (field "setAt" entry).

(** The value [v] is the entry [e] read back from its text. *)
Definition read_back (Date_of : option value → option Z)
    (v : value) (e : PersistedEntry) : Prop :=
  v ≠ VNull
  ∧ field "directory" v = Some (VString (entry_directory e))
  ∧ field "channelId" v = entry_channelId e
  ∧ field "threadTs" v = entry_threadTs e
  ∧ field "userId" v = entry_userId e
  ∧ Date_of (field "setAt" v) = Some (entry_setAt e).

(** [JSON.parse] reads the document [data] back from the text
    [JSON.stringify] made of it: the version, and the entries, each once
    and under its key. *)
Definition parses_back (JSON_parse : jsstring → option value)
    (JSON_stringify : PersistenceData → jsstring)
    (Date_of : option value → option Z) (data : PersistenceData) : Prop :=
  ∃ v es,
    JSON_parse (JSON_stringify data) = Some v
    ∧ get v "version" = Some (Some (VString (version data)))
    ∧ entries (field "directories" v) = Some es
    ∧ NoDup es.*1
    ∧ (∀ key ev, (key, ev) ∈ es →
                 ∃ e, directories data !! key = Some e
                      ∧ read_back Date_of ev e)
    ∧ (∀ key, is_Some (directories data !! key) → key ∈ es.*1).

(** A text whose document has the expected version and lists the
    entries [es]. *)
Definition lists (JSON_parse : jsstring → option value)
    (text : jsstring) (es : list (jsstring * value)) : Prop :=
  ∃ data,
    JSON_parse text = Some data
    ∧ get data "version" = Some (Some (VString PERSISTENCE_VERSION))
    ∧ entries (field "directories" data) = Some es.

(** The query command: an optional [get] and white space, a name of the
    setting, an optional question mark. *)
Definition get_command (t : jsstring) : Prop :=
  ∃ pre name mark,
    t = pre ++ name ++ mark
    ∧ (pre = [] ∨ ∃ kw ws, pre = kw ++ ws ∧ spells "get" kw ∧ blank ws)
    ∧ setting_name name
    ∧ (mark = [] ∨ mark = lit "?").

(** A manager restarted over the file [f] at time 0, then the sample
    requests. *)
Definition sample_new (f : file) : world :=
  new sample_exists sample_json sample_date 0 f.

Definition sample_run (f : file) : world :=
  run [] (lit "/home/bot") sample_exists sample_stat (λ _, true)
    sample_stringify
    ((0, sample_first) :: sample_burst)
    (sample_new f).

(** A manager started without a file, then a directory set for the
    channel named [__proto__], then the save a second later. *)
Definition proto_run : world :=
  advance (λ _, true) sample_stringify 1000
    (run [] (lit "/home/bot") sample_exists sample_stat (λ _, true)
       sample_stringify
       [(0, SetRequest (lit "__proto__") (lit "/tmp") None None)]
       (sample_new Missing)).

(** A manager holding one directory, for channel C1, and the text and
    the value of the document [saveToDisk] builds from it. *)
Definition channel_world : world :=
  {| configs := {[ lit "C1" := sample_config "C1" None "/tmp" ]};
     saveTimer := None; now := 0; timers := []; next_timer := 0;
     disk := Missing; written := [] |}.

Definition channel_data : PersistenceData :=
  {| version := PERSISTENCE_VERSION;
     directories :=
       {[ lit "C1" := {| entry_type := channel;
                        entry_channelId := Some (str "C1");
                        entry_threadTs := None; entry_userId := None;
                        entry_directory := lit "/tmp";
                        entry_setAt := 0 |} ]} |}.

Definition saved_json (text : jsstring) : option value :=
  if decide (text = lit "saved") then Some current_document else None.

End StoreSpec.

(* ================================================================== *)
(** * Properties of ClaudeHandler *)
(* ================================================================== *)

Section SweepProperties.
Import ClaudeHandler SessionSpec.

Variables (now maxAge : Z).
Variable hp : gmap loc ConversationSession.

Lemma expired_stale key l :
  expired now maxAge hp l = true ↔ stale now maxAge hp (key, l).
Proof.
  unfold expired, stale. simpl. destruct (hp !! l) as [s|].
  - rewrite bool_decide_eq_true. split.
    + eauto.
    + by intros (s' & [= <-] & ?).
  - split; [done | by intros (s' & [=] & _)].
Qed.

(** The loop, started on any accumulator, deletes from it the stale keys
    of the map it walks and counts them. *)
Lemma sweep_fold (m0 : gmap jsstring loc) (c0 : nat) (m : gmap jsstring loc) :
  let r := map_fold (sweep_entry now maxAge hp) (m0, c0) m in
  (∀ k, r.1 !! k = match m !! k with
                   | Some l => if expired now maxAge hp l then None
                               else m0 !! k
                   | None => m0 !! k
                   end)
  ∧ r.2 = (c0 + size (filter (stale now maxAge hp) m))%nat.
Proof.
  apply (map_fold_weak_ind (λ r m,
    (∀ k, r.1 !! k = match m !! k with
                     | Some l => if expired now maxAge hp l then None
                                 else m0 !! k
                     | None => m0 !! k
                     end)
    ∧ r.2 = (c0 + size (filter (stale now maxAge hp) m))%nat)).
  - split.
    + intros k. by rewrite lookup_empty.
    + rewrite map_filter_empty, map_size_empty. simpl. lia.
  - intros i x m' r Hi [IH1 IH2]. unfold sweep_entry.
    destruct (expired now maxAge hp x) eqn:Hx.
    + split.
      * intros k. simpl. destruct (decide (k = i)) as [->|Hne].
        -- by rewrite lookup_delete_eq, lookup_insert_eq, Hx.
        -- rewrite lookup_delete_ne, lookup_insert_ne by done. apply IH1.
      * simpl. rewrite map_filter_insert_True by (by apply expired_stale).
        rewrite map_size_insert_None.
        -- lia.
        -- apply map_lookup_filter_None. by left.
    + split.
      * intros k. destruct (decide (k = i)) as [->|Hne].
        -- rewrite lookup_insert_eq, Hx. specialize (IH1 i).
           by rewrite Hi in IH1.
        -- rewrite lookup_insert_ne by done. apply IH1.
      * rewrite map_filter_insert_False.
        -- by rewrite delete_id.
        -- rewrite <- expired_stale. by rewrite Hx.
Qed.

Lemma sweep_loop_spec (ss : gmap jsstring loc) :
  sweep_loop now maxAge {| heap := hp; sessions := ss |}
  = (filter (λ e, ¬ stale now maxAge hp e) ss,
     size (filter (stale now maxAge hp) ss)).
Proof.
  unfold sweep_loop. simpl.
  destruct (sweep_fold ss 0 ss) as [H1 H2].
  destruct (map_fold _ _ _) as [m c] eqn:E. simpl in *. f_equal; [|done].
  apply map_eq. intros k. rewrite H1, map_lookup_filter.
  destruct (ss !! k) as [l|] eqn:Hk; simpl; [|done].
  destruct (expired now maxAge hp l) eqn:Hx.
  - rewrite option_guard_False; [done|].
    intros Hn. apply Hn. by apply expired_stale.
  - rewrite option_guard_True; [done|].
    rewrite <- expired_stale. by rewrite Hx.
Qed.

End SweepProperties.

Section SweepClaims.
Import ClaudeHandler SessionSpec.

(** C8 (as the code has it).  [cleanupInactiveSessions] removes from the
    session map exactly the entries whose record has
    [now - lastActivity > maxAge] and keeps every other entry; the number
    removed is written to the log when it is positive, the call itself
    returns [undefined]; the records are not touched; and a second sweep
    at the same instant removes nothing more. *)
Theorem C8_sweep_removes_exactly_stale (now maxAge : Z) (h : handler) :
  let kept := filter (λ e, ¬ stale now maxAge (heap h) e) (sessions h) in
  let removed := size (filter (stale now maxAge (heap h)) (sessions h)) in
  let h' := {| heap := heap h; sessions := kept |} in
  cleanupInactiveSessions now maxAge h
    = (h', if (0 <? removed)%nat then [LogCleaned removed] else [], RUndefined)
  ∧ (∀ key l, sessions h' !! key = Some l
              ↔ sessions h !! key = Some l ∧ ¬ stale now maxAge (heap h) (key, l))
  ∧ removed = (size (sessions h) - size (sessions h'))%nat
  ∧ cleanupInactiveSessions now maxAge h' = (h', [], RUndefined).
Proof.
  intros kept removed h'. destruct h as [hp ss]. simpl in *.
  assert (Hsize : size ss = (removed + size kept)%nat).
  { rewrite <- (map_filter_union_complement (stale now maxAge hp) ss) at 1.
    apply map_size_disj_union, map_disjoint_filter_complement. }
  assert (Hnone : filter (stale now maxAge hp) kept = ∅).
  { apply map_empty. intros k. apply map_lookup_filter_None. right.
    intros l Hk Hst.
    apply map_lookup_filter_Some in Hk as [_ Hn]. by apply Hn. }
  assert (Hid : filter (λ e, ¬ stale now maxAge hp e) kept = kept).
  { apply map_filter_id. intros k l Hk.
    by apply map_lookup_filter_Some in Hk as [_ Hn]. }
  split; [|split; [|split]].
  - unfold cleanupInactiveSessions. by rewrite sweep_loop_spec.
  - intros key l. unfold h', kept. simpl. apply map_lookup_filter_Some.
  - unfold h'. simpl. lia.
  - unfold cleanupInactiveSessions, h'. rewrite sweep_loop_spec. simpl.
    by rewrite Hnone, Hid, map_size_empty.
Qed.

(** C8 as stated asks for the count to be returned: on a map with one
    stale record the sweep removes one entry and returns [undefined]. *)
Lemma C8_count_is_not_returned :
  let r := cleanupInactiveSessions 10 5 sample_handler in
  (size (sessions sample_handler) - size (sessions r.1.1))%nat = 1%nat
  ∧ r.2 ≠ RNumber 1.
Proof. vm_compute. split; [reflexivity | discriminate]. Qed.

End SweepClaims.

Section StreamProperties.
Import ClaudeHandler SessionSpec.

Variable JSON_parse : jsstring → option value.

Lemma read_until_yield_cons hp session line rest :
  read_until_yield JSON_parse hp session (line :: rest)
  = match decode JSON_parse line with
    | Some m => (handle_init hp session m, Some (m, rest))
    | None => read_until_yield JSON_parse hp session rest
    end.
Proof.
  simpl. unfold decode. destruct (truthy (trim line)); [|done].
  by destruct (parse_message JSON_parse line).
Qed.

Lemma read_until_yield_spec hp session lines :
  match read_until_yield JSON_parse hp session lines with
  | (hp', None) => hp' = hp ∧ delivered JSON_parse lines = []
  | (hp', Some (m, rest)) =>
      hp' = handle_init hp session m
      ∧ delivered JSON_parse lines = m :: delivered JSON_parse rest
      ∧ (length rest < length lines)%nat
  end.
Proof.
  unfold delivered.
  induction lines as [|line rest IH]; [done|].
  rewrite read_until_yield_cons. cbn [omap list_omap length].
  destruct (decode JSON_parse line) as [m|].
  - repeat split; lia.
  - destruct (read_until_yield _ _ _ rest) as [hp' [[m r]|]]; [|done].
    destruct IH as (? & ? & ?). repeat split; [done..|lia].
Qed.

(** Consuming a generator to its end takes at most one [next] per line
    plus one, and gives the decoded messages in order; then the iteration
    ends as the [close] event says if the event is heard, and does not end
    if it is not. *)
Lemma consume_spec fuel lines code c b session hp :
  (length lines < fuel)%nat →
  consume JSON_parse fuel
    {| unread := lines; close_code := code; closes_in := c;
       child_closed := b; session := session; finished := false;
       spawn_failure := None |} hp
  = Some (delivered JSON_parse lines,
          if unheard c b (length (delivered JSON_parse lines))
          then Pending else on_close code,
          heap_after hp session (delivered JSON_parse lines)).
Proof.
  revert lines c b hp.
  induction fuel as [|fuel IH]; intros lines c b hp Hlen; [lia|].
  simpl. unfold next. simpl.
  pose proof (read_until_yield_spec hp session lines) as Hr.
  destruct (read_until_yield _ _ _ lines) as [hp' [[m rest]|]].
  - destruct Hr as (-> & -> & Hlt). rewrite IH by lia.
    cbn [length]. unfold tick, unheard. simpl.
    by destruct c as [[|i]|], b.
  - destruct Hr as [-> ->]. unfold unheard. simpl.
    destruct b; simpl.
    + by destruct c.
    + replace (match c with Some i => (i <? 0)%nat | None => false end)
        with false by (by destruct c).
      unfold on_close. destruct code as [z|]; [destruct (z =? 0)|]; done.
Qed.

Lemma unheard_start p n :
  unheard (closed_early p) false n = bool_decide (closes_unheard p n).
Proof.
  unfold unheard. simpl. case_bool_decide as H.
  - destruct H as (i & -> & Hlt). by apply Nat.ltb_lt.
  - destruct (closed_early p) as [i|] eqn:E; [|done]. apply Nat.ltb_ge.
    destruct (decide (i < n)%nat); [|lia]. exfalso. apply H. by exists i.
Qed.

(** The run of a query over a subprocess that started. *)
Lemma consume_start p session hp :
  consume JSON_parse (S (length (stdout p))) (start p session) hp
  = Some (delivered JSON_parse (stdout p),
          if decide (closes_unheard p
                       (length (delivered JSON_parse (stdout p))))
          then Pending else on_close (exit_code p),
          heap_after hp session (delivered JSON_parse (stdout p))).
Proof.
  unfold start. rewrite consume_spec by lia. rewrite unheard_start.
  by case_bool_decide; [rewrite decide_True|rewrite decide_False].
Qed.

Lemma heap_after_cons hp session m ms :
  heap_after hp session (m :: ms)
  = heap_after (handle_init hp session m) session ms.
Proof. done. Qed.

Lemma heap_after_other hp l l' ms :
  l' ≠ l → heap_after hp (Some l) ms !! l' = hp !! l'.
Proof.
  intros Hne. revert hp. induction ms as [|m ms IH]; intros hp; [done|].
  rewrite heap_after_cons, IH. unfold handle_init.
  destruct (is_init m); [|done]. by rewrite lookup_alter_ne.
Qed.

Lemma heap_after_session hp l ms :
  heap_after hp (Some l) ms !! l = captured ms <$> hp !! l.
Proof.
  revert hp. induction ms as [|m ms IH]; intros hp.
  - unfold heap_after, captured. simpl. by destruct (hp !! l).
  - rewrite heap_after_cons, IH.
    unfold handle_init, captured, init_messages.
    rewrite filter_cons. destruct (is_init m) eqn:Hm.
    + rewrite decide_True by done.
      rewrite lookup_alter_eq. destruct (hp !! l) as [s|]; [|done]. simpl.
      f_equal.
      destruct (filter _ ms) as [|m' ms'] eqn:Hf; [done|].
      change (last (m :: m' :: ms')) with (last (m' :: ms')).
      destruct (last (m' :: ms')) eqn:Hl; [done|].
      by apply last_None in Hl.
    + rewrite decide_False by (by intros [=]). done.
Qed.

Lemma heap_after_None hp ms : heap_after hp None ms = hp.
Proof.
  revert hp. induction ms as [|m ms IH]; intros hp; [done|].
  rewrite heap_after_cons. apply IH.
Qed.

End StreamProperties.

Section StreamClaims.
Import ClaudeHandler SessionSpec.

Variable JSON_parse : jsstring → option value.

(** C2 (where the code departs from it).  The generator attaches its
    listener for the [close] event of the subprocess only after it has
    read the output to its end.  When the event is emitted before that,
    while the generator is suspended at a [yield], the consumer receives
    every decoded message and then waits for ever: the run neither
    completes nor raises, whatever the exit code. *)
Theorem C2_close_before_listener_is_missed
    (p : subprocess) (session : option loc)
    (hp : gmap loc ConversationSession) :
  closes_unheard p (length (delivered JSON_parse (stdout p))) →
  consume JSON_parse (S (length (stdout p))) (start p session) hp
  = Some (delivered JSON_parse (stdout p), Pending,
          heap_after hp session (delivered JSON_parse (stdout p))).
Proof.
  intros Hearly. rewrite consume_start. by rewrite decide_True.
Qed.

Section Malformed.

(** [JSON.parse] throws on a line of white space only. *)
Hypothesis JSON_parse_blank :
  ∀ line, trim line = [] → JSON_parse line = None.

Lemma decode_parse line :
  decode JSON_parse line = parse_message JSON_parse line.
Proof.
  unfold decode. destruct (trim line) eqn:Ht; [|done].
  unfold parse_message. by rewrite JSON_parse_blank.
Qed.

Lemma parse_message_Some line v :
  JSON_parse line = Some v → v ≠ VNull →
  parse_message JSON_parse line = Some v.
Proof. unfold parse_message. intros -> Hv. by destruct v. Qed.

Lemma parse_message_None line :
  JSON_parse line = None ∨ JSON_parse line = Some VNull →
  parse_message JSON_parse line = None.
Proof. unfold parse_message. by intros [-> | ->]. Qed.

Lemma delivered_all_valid lines :
  (∀ i line, lines !! i = Some line →
     ∃ v, JSON_parse line = Some v ∧ v ≠ VNull) →
  Some <$> delivered JSON_parse lines = JSON_parse <$> lines.
Proof.
  unfold delivered. induction lines as [|line rest IH]; intros Hv; [done|].
  cbn [omap list_omap fmap list_fmap]. rewrite decode_parse.
  destruct (Hv 0%nat line eq_refl) as (v & Hp & Hn).
  rewrite (parse_message_Some _ _ Hp Hn), Hp. cbn [fmap list_fmap].
  f_equal. apply IH. intros i l Hi. by apply (Hv (S i)).
Qed.

Lemma delivered_one_malformed lines k :
  (k < length lines)%nat →
  (∀ i line, lines !! i = Some line →
     (i = k ∧ (JSON_parse line = None ∨ JSON_parse line = Some VNull))
     ∨ (i ≠ k ∧ ∃ v, JSON_parse line = Some v ∧ v ≠ VNull)) →
  Some <$> delivered JSON_parse lines = JSON_parse <$> delete k lines
  ∧ delivered JSON_parse lines = delivered JSON_parse (delete k lines).
Proof.
  revert k. induction lines as [|line rest IH]; intros k Hk Hv;
    [simpl in Hk; lia|].
  unfold delivered. cbn [omap list_omap]. rewrite decode_parse.
  destruct k as [|k].
  - destruct (Hv 0%nat line eq_refl) as [[_ Hbad]|[? _]]; [|done].
    rewrite (parse_message_None _ Hbad).
    cbn [delete list_delete]. split; [|done]. apply delivered_all_valid.
    intros i l Hi. by destruct (Hv (S i) l Hi) as [[? _]|[_ ?]].
  - destruct (Hv 0%nat line eq_refl) as [[? _]|[_ (v & Hp & Hn)]]; [done|].
    rewrite (parse_message_Some _ _ Hp Hn).
    cbn [delete list_delete fmap list_fmap omap list_omap].
    rewrite decode_parse, (parse_message_Some _ _ Hp Hn), Hp.
    destruct (IH k) as [IH1 IH2]; [simpl in Hk; lia| |].
    + intros i l Hi. destruct (Hv (S i) l Hi) as [[? ?]|[? ?]].
      * left. split; [lia|done].
      * right. split; [lia|done].
    + unfold delivered in IH1, IH2. split; [by f_equal|by f_equal].
Qed.

(** C3 (as the code has it).  When [JSON.parse] throws on line [k] of the
    subprocess output, or finds [null] there, and every other line holds
    a value that is not [null], the consumer receives the values of the
    other lines, one per line and in the order of the lines, and the run
    goes on and ends as it does over the same output without line [k]:
    the failure ends nothing.  With exit code 0 the iteration ends
    normally, when the [close] event reaches the generator. *)
Theorem C3_malformed_line_is_skipped
    (lines : list jsstring) (code : option Z) (early : option nat)
    (k : nat) (session : option loc) (hp : gmap loc ConversationSession) :
  (k < length lines)%nat →
  (∀ i line, lines !! i = Some line →
     (i = k ∧ (JSON_parse line = None ∨ JSON_parse line = Some VNull))
     ∨ (i ≠ k ∧ ∃ v, JSON_parse line = Some v ∧ v ≠ VNull)) →
  let p := {| stdout := lines; exit_code := code; closed_early := early |} in
  let q := {| stdout := delete k lines; exit_code := code;
              closed_early := early |} in
  ∃ ms r,
    consume JSON_parse (S (length lines)) (start p session) hp
    = Some (ms, r, heap_after hp session ms)
    ∧ length ms = (length lines - 1)%nat
    ∧ Some <$> ms = JSON_parse <$> delete k lines
    ∧ consume JSON_parse (S (length (delete k lines))) (start q session) hp
      = Some (ms, r, heap_after hp session ms)
    ∧ (code = Some 0 → ¬ closes_unheard p (length ms) → r = Done).
Proof.
  intros Hk Hv p q.
  destruct (delivered_one_malformed lines k Hk Hv) as [Hd Hsame].
  eexists (delivered JSON_parse lines), _.
  split; [apply (consume_start JSON_parse p)|].
  split; [|split; [done|split]].
  - apply (f_equal length) in Hd.
    rewrite !length_fmap, length_delete in Hd; [done|].
    by apply lookup_lt_is_Some_2.
  - rewrite (consume_start JSON_parse q).
    change (stdout q) with (delete k lines). change (stdout p) with lines.
    by rewrite <- Hsame.
  - intros -> Hheard. by rewrite decide_False.
Qed.

End Malformed.

End StreamClaims.

Section SampleStream.
Import ClaudeHandler SessionSpec.

Lemma sample_parse_blank line : trim line = [] → sample_parse line = None.
Proof.
  intros Ht. unfold sample_parse, sample_table. cbn [List.find fst].
  repeat case_bool_decide; subst; try done; vm_compute in Ht; discriminate.
Qed.

Lemma sample_lines_valid i line :
  sample_lines !! i = Some line →
  (i = 1%nat ∧ (sample_parse line = None ∨ sample_parse line = Some VNull))
  ∨ (i ≠ 1%nat ∧ ∃ v, sample_parse line = Some v ∧ v ≠ VNull).
Proof.
  destruct i as [|[|[|i]]]; intros [= <-].
  - right. split; [lia|]. eexists. split; [vm_compute; reflexivity|done].
  - left. split; [lia|]. left. vm_compute. reflexivity.
  - right. split; [lia|]. eexists. split; [vm_compute; reflexivity|done].
Qed.

(** C2 on a subprocess that prints one message and ends with code 1
    while the consumer is busy with the message: no error is raised, the
    iteration does not end. *)
Lemma C2_witness :
  closes_unheard early_exit
    (length (delivered sample_parse (stdout early_exit)))
  ∧ exit_code early_exit = Some 1
  ∧ consume sample_parse 2 (start early_exit None) ∅
    = Some ([assistant_message], Pending, ∅).
Proof.
  assert (Hearly : closes_unheard early_exit
                     (length (delivered sample_parse (stdout early_exit)))).
  { exists 0%nat. split; [reflexivity|]. vm_compute. lia. }
  split; [exact Hearly|]. split; [reflexivity|].
  exact (C2_close_before_listener_is_missed sample_parse early_exit None ∅
           Hearly).
Defined.

(** C3 on the sample stream: three lines, the second not JSON. *)
Lemma C3_witness :
  (∀ line, trim line = [] → sample_parse line = None)
  ∧ (1 < length sample_lines)%nat
  ∧ ∃ ms r,
      consume sample_parse (S (length sample_lines))
        (start {| stdout := sample_lines; exit_code := Some 0;
                  closed_early := None |} None) ∅
      = Some (ms, r, heap_after ∅ None ms)
      ∧ length ms = (length sample_lines - 1)%nat
      ∧ Some <$> ms = sample_parse <$> delete 1%nat sample_lines
      ∧ r = Done.
Proof.
  split; [exact sample_parse_blank|]. split; [simpl; lia|].
  destruct (C3_malformed_line_is_skipped sample_parse sample_parse_blank
              sample_lines (Some 0) None 1 None ∅)
    as (ms & r & Hc & Hl & Hm & _ & Hr).
  - simpl. lia.
  - exact sample_lines_valid.
  - exists ms, r. split; [exact Hc|]. split; [exact Hl|].
    split; [exact Hm|]. apply Hr; [reflexivity|].
    intros (i & Hi & _). discriminate Hi.
Defined.

(** C3 as stated takes a line that is no protocol message for a line that
    does not decode.  The number 7 is no protocol message, and it is
    JSON: of two lines, the second holding 7, the consumer receives two
    values, not one. *)
Lemma C3_plain_value_is_delivered :
  protocol_message assistant_message
  ∧ sample_parse (lit "7") = Some seven
  ∧ ¬ protocol_message seven
  ∧ consume sample_parse (S (length plain_lines))
      (start {| stdout := plain_lines; exit_code := Some 0;
                closed_early := None |} None) ∅
    = Some ([assistant_message; seven], Done, ∅)
  ∧ length [assistant_message; seven] ≠ (length plain_lines - 1)%nat.
Proof.
  split; [by eexists _, _|]. split; [vm_compute; reflexivity|].
  split; [by intros (props & t & [=] & _)|].
  split; [vm_compute; reflexivity|]. simpl. lia.
Qed.

End SampleStream.

Section ResumeClaims.
Import ClaudeHandler SessionSpec.

Variable JSON_parse : jsstring → option value.
Variable getServerConfiguration : option servers.
Variable getDefaultAllowedTools : list jsstring.
Variable stringify_mcp_config : servers → jsstring.
Variable stringify_context : SlackContext → jsstring.
Variable process_cwd : jsstring.
Variable SLACK_BOT_TOKEN : jsstring.

Local Abbreviation args :=
  (build_args getServerConfiguration getDefaultAllowedTools
     stringify_mcp_config stringify_context process_cwd SLACK_BOT_TOKEN).

(** The argument list ends with the resume arguments and the prompt. *)
Lemma build_args_tail hp prompt session wd ctx :
  ∃ front, args hp prompt session wd ctx
           = front ++ resume_args hp session ++ [VString prompt].
Proof.
  unfold build_args. eexists. rewrite <- app_assoc. reflexivity.
Qed.

(** C1 (as the code has it).  Consuming a [streamQuery] that was given the
    session object [l] leaves in that object the [session_id] of the last
    init message of the stream: every init message overwrites it, so with a
    single init message it is that message's, and with none the object is
    as before.  Nothing else in the object, and no other object, changes.
    When that identifier is a non-empty string [X], the next [streamQuery]
    using [l] passes [--resume X] right before the prompt. *)
Theorem C1_last_init_session_id_is_resumed
    (p : subprocess) (l : loc) (s : ConversationSession)
    (hp : gmap loc ConversationSession) :
  hp !! l = Some s →
  let ms := delivered JSON_parse (stdout p) in
  ∃ r hp',
    consume JSON_parse (S (length (stdout p))) (start p (Some l)) hp
    = Some (ms, r, hp')
    ∧ (init_messages ms = [] → hp' !! l = Some s)
    ∧ (∀ m, last (init_messages ms) = Some m →
            hp' !! l = Some (set_sessionId (session_id m) s))
    ∧ (∀ l', l' ≠ l → hp' !! l' = hp !! l')
    ∧ (∀ m X prompt wd ctx,
         last (init_messages ms) = Some m →
         session_id m = Some (VString X) → X ≠ [] →
         ∃ front, args hp' prompt (Some l) wd ctx
                  = front ++ [str "--resume"; VString X; VString prompt]).
Proof.
  intros Hl ms. eexists _, (heap_after hp (Some l) ms).
  assert (Hs : heap_after hp (Some l) ms !! l = Some (captured ms s)).
  { by rewrite heap_after_session, Hl. }
  split; [|split; [|split; [|split]]].
  - apply consume_start.
  - intros Hnil. rewrite Hs. unfold captured. by rewrite Hnil.
  - intros m Hm. rewrite Hs. unfold captured. by rewrite Hm.
  - intros l' Hne. by apply heap_after_other.
  - intros m X prompt wd ctx Hm HX Hne.
    destruct (build_args_tail (heap_after hp (Some l) ms) prompt (Some l)
                wd ctx) as [front ->].
    exists front. f_equal. unfold resume_args, session_sessionId.
    rewrite Hs. unfold captured. rewrite Hm. simpl. rewrite HX.
    by destruct X.
Qed.

End ResumeClaims.

Section SampleResume.
Import ClaudeHandler SessionSpec.

(** C1 on a stream with one init message carrying [A]. *)
Lemma C1_witness :
  heap sample_handler !! 0%nat = Some sample_session
  ∧ ∃ r hp',
      consume sample_parse 3 (start one_init (Some 0%nat))
        (heap sample_handler)
      = Some (delivered sample_parse (stdout one_init), r, hp')
      ∧ hp' !! 0%nat
        = Some (set_sessionId (Some (str "A")) sample_session)
      ∧ ∃ front,
          build_args None [] (λ _, []) (λ _, []) (lit "/srv") (lit "xoxb")
            hp' (lit "hello") (Some 0%nat) None None
          = front ++ [str "--resume"; str "A"; str "hello"].
Proof.
  assert (H0 : heap sample_handler !! 0%nat = Some sample_session)
    by (vm_compute; reflexivity).
  split; [exact H0|].
  destruct (C1_last_init_session_id_is_resumed sample_parse None []
              (λ _, []) (λ _, []) (lit "/srv") (lit "xoxb")
              one_init 0%nat sample_session (heap sample_handler) H0)
    as (r & hp' & Hc & _ & Hlast & _ & Hargs).
  exists r, hp'. split; [exact Hc|]. split.
  - apply (Hlast (init_message "A")). vm_compute. reflexivity.
  - apply (Hargs (init_message "A") (lit "A")).
    + vm_compute. reflexivity.
    + reflexivity.
    + discriminate.
Defined.

(** C1 as stated names the first init message: after a stream whose two
    init messages carry [A] then [B], the session object holds [B]. *)
Lemma C1_first_init_is_overwritten :
  ∃ ms r hp',
    consume sample_parse 3 (start two_inits (Some 0%nat))
      (heap sample_handler)
    = Some (ms, r, hp')
    ∧ session_id <$> head (init_messages ms) = Some (Some (str "A"))
    ∧ sessionId <$> hp' !! 0%nat = Some (Some (str "B"))
    ∧ sessionId <$> hp' !! 0%nat ≠ session_id <$> head (init_messages ms).
Proof.
  eexists _, _, _. split; [vm_compute; reflexivity|].
  split; [vm_compute; reflexivity|].
  split; [vm_compute; reflexivity|].
  vm_compute. discriminate.
Qed.

End SampleResume.

(* ================================================================== *)
(** * Properties of WorkingDirectoryManager *)
(* ================================================================== *)

Section LookupClaims.
Import WorkingDirectoryManager DirectorySpec.

Lemma getConfigKey_thread channelId t userId :
  t ≠ [] → getConfigKey channelId (Some t) userId = thread_key channelId t.
Proof. intros Ht. unfold getConfigKey. by destruct t. Qed.

Lemma getConfigKey_no_thread channelId threadTs userId :
  truthy_opt threadTs = false →
  getConfigKey channelId threadTs userId = channel_or_dm_key channelId userId.
Proof.
  intros Ht. unfold getConfigKey, channel_or_dm_key. rewrite Ht.
  destruct userId as [u|]; [|done]. simpl.
  by destruct (truthy u && startsWith (lit "D") channelId).
Qed.

(** Without a usable thread entry the lookup reads the channel/DM key,
    which is built from the channel and the user alone. *)
Lemma getWorkingDirectory_fallback w channelId threadTs userId :
  (truthy_opt threadTs = false
   ∨ configs w !! thread_key channelId (default [] threadTs) = None) →
  getWorkingDirectory w channelId threadTs userId
  = directory <$> configs w !! channel_or_dm_key channelId userId.
Proof.
  intros Hmiss. unfold getWorkingDirectory.
  rewrite (getConfigKey_no_thread channelId None userId) by done.
  destruct (truthy_opt threadTs) eqn:Ht.
  - destruct Hmiss as [|Hmiss]; [done|].
    destruct threadTs as [t|]; [|done]. simpl in Ht, Hmiss.
    rewrite getConfigKey_thread by (by destruct t). rewrite Hmiss.
    by destruct (configs w !! _).
  - by destruct (configs w !! _).
Qed.

(** C4.  With an entry under the thread key of channel and thread [t], and
    an entry under the channel/DM key of the same channel: the lookup with
    thread [t] gives the thread entry's directory; the lookup with no
    thread, or with a thread that has no entry, gives the channel/DM
    entry's directory, read under a key in which no thread id appears. *)
Theorem C4_thread_entry_shadows_channel_entry
    (w : world) (channelId t : jsstring) (userId : option jsstring)
    (threadConfig channelConfig : WorkingDirectoryConfig) :
  t ≠ [] →
  configs w !! thread_key channelId t = Some threadConfig →
  configs w !! channel_or_dm_key channelId userId = Some channelConfig →
  getWorkingDirectory w channelId (Some t) userId
    = Some (directory threadConfig)
  ∧ getWorkingDirectory w channelId None userId
    = Some (directory channelConfig)
  ∧ (∀ t', configs w !! thread_key channelId t' = None →
           getWorkingDirectory w channelId (Some t') userId
           = Some (directory channelConfig)).
Proof.
  intros Ht Hthread Hchannel. split; [|split].
  - unfold getWorkingDirectory. rewrite getConfigKey_thread by done.
    rewrite Hthread. by destruct t.
  - rewrite getWorkingDirectory_fallback by (by left). by rewrite Hchannel.
  - intros t' Hmiss.
    rewrite getWorkingDirectory_fallback by (by right). by rewrite Hchannel.
Qed.

(** C4 on the sample manager. *)
Lemma C4_witness :
  lit "17.5" ≠ []
  ∧ getWorkingDirectory sample_world (lit "C1") (Some (lit "17.5")) None
    = Some (lit "/srv/thread")
  ∧ getWorkingDirectory sample_world (lit "C1") None None
    = Some (lit "/srv/channel")
  ∧ (∀ t', configs sample_world !! thread_key (lit "C1") t' = None →
           getWorkingDirectory sample_world (lit "C1") (Some t') None
           = Some (lit "/srv/channel")).
Proof.
  split; [discriminate|].
  apply (C4_thread_entry_shadows_channel_entry sample_world (lit "C1")
           (lit "17.5") None
           (sample_config "C1" (Some "17.5"%string) "/srv/thread")
           (sample_config "C1" None "/srv/channel")).
  - discriminate.
  - vm_compute. reflexivity.
  - vm_compute. reflexivity.
Defined.

End LookupClaims.

Section LoadClaims.
Import WorkingDirectoryManager DirectorySpec.

Variable existsSync : jsstring → bool.
Variable JSON_parse : jsstring → option value.
Variable Date_of : option value → option Z.

(** C6.  A persistence file holding a document whose version is not the
    expected one leaves the manager as it was: the constructor, which
    starts from the empty map, ends with the empty map whatever the
    document contains. *)
Theorem C6_version_mismatch_loads_nothing (text : jsstring) (data : value) :
  JSON_parse text = Some data →
  get data "version" ≠ Some (Some (VString PERSISTENCE_VERSION)) →
  (∀ w, disk w = Content text →
        loadFromDisk existsSync JSON_parse Date_of w = w)
  ∧ ∀ t, configs (new existsSync JSON_parse Date_of t (Content text)) = ∅.
Proof.
  intros Hdata Hv.
  assert (Hload : ∀ w, disk w = Content text →
                       loadFromDisk existsSync JSON_parse Date_of w = w).
  { intros w Hw. unfold loadFromDisk. rewrite Hw, Hdata.
    destruct (get data "version") as [[[]|]|]; try done.
    unfold version_mismatch. case_bool_decide as Hs; [done|].
    destruct Hv. do 3 f_equal. by destruct (decide (s = PERSISTENCE_VERSION)). }
  split; [done|]. intros t. unfold new. by rewrite Hload.
Qed.

End LoadClaims.

Section LoadSamples.
Import WorkingDirectoryManager DirectorySpec.

(** C6 on a document of version 0.9. *)
Lemma C6_witness :
  sample_json (lit "old") = Some old_document
  ∧ get old_document "version" ≠ Some (Some (VString PERSISTENCE_VERSION))
  ∧ configs (new sample_exists sample_json sample_date 0
               (Content (lit "old"))) = ∅.
Proof.
  assert (Hv : get old_document "version"
               ≠ Some (Some (VString PERSISTENCE_VERSION)))
    by (vm_compute; discriminate).
  split; [reflexivity|]. split; [exact Hv|].
  apply (C6_version_mismatch_loads_nothing sample_exists sample_json
           sample_date (lit "old") old_document eq_refl Hv).
Defined.

(** The same document under the expected version is loaded. *)
Example matching_version_is_loaded :
  configs (new sample_exists sample_json sample_date 0
             (Content (lit "current")))
  = {[ lit "C1" := sample_config "C1" None "/tmp" ]}.
Proof. vm_compute. reflexivity. Qed.

End LoadSamples.

Section PathProperties.
Import DirectorySpec.

Lemma split_segment seg rest :
  Path.SLASH ∉ seg →
  Path.split (seg ++ Path.SLASH :: rest) = seg :: Path.split rest.
Proof.
  induction seg as [|c seg IH]; intros Hs; simpl.
  - done.
  - destruct (c =? Path.SLASH)%N eqn:Hc.
    + apply N.eqb_eq in Hc as ->. exfalso. apply Hs. left.
    + rewrite IH; [done|]. intros Hin. apply Hs. by right.
Qed.

Lemma unsplit_cons seg seg' segs :
  Path.unsplit (seg :: seg' :: segs)
  = seg ++ Path.SLASH :: Path.unsplit (seg' :: segs).
Proof. done. Qed.

Lemma split_unsplit_slash segs :
  segs ≠ [] → Forall proper_segment segs →
  Path.split (Path.unsplit segs ++ [Path.SLASH]) = segs ++ [[]].
Proof.
  induction segs as [|seg segs IH]; intros Hne Hp; [done|].
  apply Forall_cons in Hp as [(_ & _ & _ & Hs) Hp].
  destruct segs as [|seg' segs].
  - simpl. by rewrite split_segment.
  - rewrite unsplit_cons, <- app_assoc.
    change ((Path.SLASH :: Path.unsplit (seg' :: segs)) ++ [Path.SLASH])
      with (Path.SLASH :: (Path.unsplit (seg' :: segs) ++ [Path.SLASH])).
    rewrite split_segment by done. by rewrite IH.
Qed.

Lemma normalize_proper kept segs :
  Forall proper_segment segs →
  fold_left (Path.normalize_segment false) segs kept = rev segs ++ kept.
Proof.
  revert kept. induction segs as [|seg segs IH]; intros kept Hp; [done|].
  apply Forall_cons in Hp as [(H1 & H2 & H3 & _) Hp]. simpl.
  unfold Path.normalize_segment at 2.
  rewrite decide_False by (intros [?|?]; done).
  rewrite decide_False by done.
  rewrite IH by done. by rewrite <- app_assoc.
Qed.

(** [path.resolve] gives back an absolute path in normal form. *)
Lemma resolve_normal_absolute cwd p :
  normal_absolute p → Path.resolve cwd [p] = p.
Proof.
  intros (segs & -> & Hp). unfold Path.resolve. simpl. f_equal.
  unfold Path.normalizeString. simpl.
  destruct segs as [|seg segs]; [done|].
  rewrite split_unsplit_slash by done.
  rewrite fold_left_app, (normalize_proper _ (seg :: segs)) by done.
  change (Path.normalize_segment false [] []) with (@nil jsstring).
  rewrite app_nil_r. cbn [fold_left]. unfold Path.normalize_segment.
  rewrite decide_True by (by left). by rewrite rev_involutive.
Qed.

End PathProperties.

Section SetProperties.
Import WorkingDirectoryManager DirectorySpec.

Variable baseDirectory : jsstring.
Variable process_cwd : jsstring.
Variable existsSync : jsstring → bool.
Variable statSync_isDirectory : jsstring → option bool.

Local Abbreviation resolveDirectory' :=
  (resolveDirectory baseDirectory process_cwd existsSync).
Local Abbreviation setWorkingDirectory' :=
  (setWorkingDirectory baseDirectory process_cwd existsSync
     statSync_isDirectory).

(** The ways out of [setWorkingDirectory]: one of three failures, with
    the world as it was, or success with the entry stored and a save
    scheduled.  It never throws. *)
Lemma setWorkingDirectory_cases channelId directory threadTs userId w :
  (∃ message,
      setWorkingDirectory' channelId directory threadTs userId w
      = (Returns (failure message), w)
      ∧ (message = not_found_message baseDirectory directory
         ∨ message = lit "Path is not a directory"
         ∨ message = lit "Directory does not exist or is not accessible"))
  ∨ (∃ resolved,
      resolveDirectory' directory = Some resolved
      ∧ statSync_isDirectory resolved = Some true
      ∧ setWorkingDirectory' channelId directory threadTs userId w
        = (Returns {| success := true; resolvedPath := Some resolved;
                      error := None |},
           scheduleSave
             (with_configs
                (<[getConfigKey channelId threadTs userId :=
                     {| channelId := Some (VString channelId);
                        threadTs := VString <$> threadTs;
                        userId := VString <$> userId;
                        directory := resolved;
                        setAt := Some (now w) |}]> (configs w)) w))).
Proof.
  unfold setWorkingDirectory, try_catch.
  destruct (resolveDirectory _ _ _ directory) as [resolved|] eqn:Hr.
  - destruct (truthy resolved) eqn:Ht; simpl.
    + unfold mbind, action_bind, bind, statSync.
      destruct (statSync_isDirectory resolved) as [[|]|] eqn:Hs; simpl.
      * right. exists resolved. done.
      * left. eexists. split; [done|]. auto.
      * left. eexists. split; [done|]. auto.
    + left. eexists. split; [done|]. auto.
  - left. eexists. split; [done|]. auto.
Qed.

(** C10.  [setWorkingDirectory] always returns a result value; when the
    result is a failure the world after the call is the world before it:
    the same map, the same [saveTimer], no timer armed. *)
Theorem C10_failed_set_changes_nothing
    (channelId directory : jsstring) (threadTs userId : option jsstring)
    (w : world) :
  ∃ result w',
    setWorkingDirectory' channelId directory threadTs userId w
    = (Returns result, w')
    ∧ (success result = false →
       w' = w ∧ resolvedPath result = None ∧ is_Some (error result)).
Proof.
  destruct (setWorkingDirectory_cases channelId directory threadTs userId w)
    as [(message & -> & _)|(resolved & _ & _ & ->)].
  - eexists _, _. split; [done|]. intros _. by eauto.
  - eexists _, _. split; [done|]. simpl. done.
Qed.

(** C5 (as the code has it).  For an absolute path [p]: when [p] exists,
    [resolveDirectory] returns [path.resolve(p)], the normal form of [p],
    which is [p] itself when [p] is in normal form; when [p] does not
    exist it returns [null], and [setWorkingDirectory] fails with the
    "Directory not found" result and nothing else. *)
Theorem C5_absolute_path_resolution (p : jsstring) :
  Path.isAbsolute p = true →
  (existsSync p = true →
     resolveDirectory' p = Some (Path.resolve process_cwd [p])
     ∧ (normal_absolute p → resolveDirectory' p = Some p))
  ∧ (existsSync p = false →
     resolveDirectory' p = None
     ∧ ∀ channelId threadTs userId w,
         setWorkingDirectory' channelId p threadTs userId w
         = (Returns (failure (not_found_message baseDirectory p)), w)).
Proof.
  intros Habs. unfold resolveDirectory. rewrite Habs.
  split; intros Hex; rewrite Hex.
  - split; [done|]. intros Hn. by rewrite resolve_normal_absolute.
  - split; [done|]. intros channelId threadTs userId w.
    unfold setWorkingDirectory, resolveDirectory, try_catch.
    by rewrite Habs, Hex.
Qed.

End SetProperties.

Section SetSamples.
Import WorkingDirectoryManager DirectorySpec.

Local Abbreviation resolve_sample :=
  (resolveDirectory [] (lit "/home/bot") sample_exists).
Local Abbreviation set_sample :=
  (setWorkingDirectory [] (lit "/home/bot") sample_exists sample_stat).

Lemma tmp_is_normal : normal_absolute (lit "/tmp").
Proof.
  exists [lit "tmp"]. split; [reflexivity|].
  apply Forall_cons. split; [|by apply Forall_nil].
  split; [discriminate|]. split; [discriminate|]. split; [discriminate|].
  change (lit "tmp") with [116%N; 109%N; 112%N].
  rewrite !elem_of_cons, elem_of_nil. intros [|[|[|]]]; done.
Qed.

(** C5 on the sample file system: [/tmp] exists, [/missing] does not. *)
Lemma C5_witness :
  (Path.isAbsolute (lit "/tmp") = true
   ∧ sample_exists (lit "/tmp") = true
   ∧ resolve_sample (lit "/tmp") = Some (lit "/tmp"))
  ∧ (Path.isAbsolute (lit "/missing") = true
     ∧ sample_exists (lit "/missing") = false
     ∧ resolve_sample (lit "/missing") = None
     ∧ set_sample (lit "C1") (lit "/missing") None None sample_world
       = (Returns
            (failure (not_found_message [] (lit "/missing"))),
          sample_world)).
Proof.
  split.
  - split; [reflexivity|]. split; [reflexivity|].
    apply (C5_absolute_path_resolution [] (lit "/home/bot") sample_exists
             sample_stat (lit "/tmp") eq_refl); [reflexivity|].
    exact tmp_is_normal.
  - split; [reflexivity|]. split; [reflexivity|].
    destruct (C5_absolute_path_resolution [] (lit "/home/bot") sample_exists
                sample_stat (lit "/missing") eq_refl) as [_ Hmissing].
    destruct (Hmissing eq_refl) as [Hnone Hset].
    split; [exact Hnone | apply Hset].
Defined.

(** C5 as stated returns the input itself: the existing absolute path
    [/tmp/] comes back as [/tmp]. *)
Lemma C5_result_is_normalized :
  Path.isAbsolute (lit "/tmp/") = true
  ∧ sample_exists (lit "/tmp/") = true
  ∧ resolve_sample (lit "/tmp/") = Some (lit "/tmp")
  ∧ resolve_sample (lit "/tmp/") ≠ Some (lit "/tmp/").
Proof.
  split; [reflexivity|]. split; [reflexivity|].
  split; [vm_compute; reflexivity | vm_compute; discriminate].
Qed.

(** C10 on a path that exists and is not a directory. *)
Lemma C10_witness :
  ∃ result w',
    set_sample (lit "C1") (lit "/etc/hosts") None None sample_world
    = (Returns result, w')
    ∧ success result = false
    ∧ w' = sample_world ∧ resolvedPath result = None
    ∧ is_Some (error result).
Proof.
  destruct (C10_failed_set_changes_nothing [] (lit "/home/bot")
              sample_exists sample_stat (lit "C1") (lit "/etc/hosts")
              None None sample_world) as (result & w' & Hcall & Hfail).
  exists result, w'.
  assert (Hs : success result = false).
  { vm_compute in Hcall. by injection Hcall as <- _. }
  split; [exact Hcall|]. split; [exact Hs|]. exact (Hfail Hs).
Defined.

(** The three failures and the success, on the sample file system. *)
Example set_not_found :
  set_sample (lit "C1") (lit "nowhere") None None sample_world
  = (Returns (failure (not_found_message [] (lit "nowhere"))), sample_world).
Proof. vm_compute. reflexivity. Qed.

Example set_not_a_directory :
  set_sample (lit "C1") (lit "/etc/hosts") None None sample_world
  = (Returns (failure (lit "Path is not a directory")), sample_world).
Proof. vm_compute. reflexivity. Qed.

Example set_stat_throws :
  setWorkingDirectory [] (lit "/home/bot") sample_exists (λ _, None)
    (lit "C1") (lit "/tmp") None None sample_world
  = (Returns
       (failure (lit "Directory does not exist or is not accessible")),
     sample_world).
Proof. vm_compute. reflexivity. Qed.

Example set_succeeds :
  (set_sample (lit "C1") (lit "/tmp/") None None sample_world).1
  = Returns {| success := true; resolvedPath := Some (lit "/tmp");
               error := None |}.
Proof. vm_compute. reflexivity. Qed.

End SetSamples.

Section SnapshotProperties.
Import WorkingDirectoryManager DirectorySpec StoreSpec.

Lemma to_entry_reflects config e :
  to_entry config = Some e → reflects config e.
Proof.
  unfold to_entry, reflects. intros He.
  destruct (if truthy_value_opt (threadTs config) then Some thread else _)
    as [ty|] eqn:Hty; [|done].
  destruct (setAt config) as [t|]; [|done].
  cbn [mbind option_bind] in He. injection He as <-.
  cbn [entry_type entry_channelId entry_threadTs entry_userId
       entry_directory entry_setAt].
  do 5 (split; [done|]).
  destruct (truthy_value_opt (threadTs config)).
  - injection Hty as <-. split; [done|]. split; [done|by intros [[=] _]].
  - destruct (channelId config) as [[| | |c| |]|]; try done.
    destruct (startsWith (lit "D") c) eqn:Hd; injection Hty as <-.
    + split; [done|]. split; [|done]. intros _. split; [done|].
      by exists c.
    + split; [done|]. split; [done|].
      intros (_ & c' & [= <-] & Hd'). by rewrite Hd in Hd'.
Qed.

Lemma saveable_insert key config c :
  c !! key = None →
  saveable (<[key := config]> c)
  ↔ is_Some (to_entry config) ∧ saveable c.
Proof.
  intros Hk. unfold saveable. split.
  - intros H. split; [apply (H key); by rewrite lookup_insert_eq|].
    intros k x Hx. apply (H k). rewrite lookup_insert_ne; [done|].
    intros ->. by rewrite Hk in Hx.
  - intros [He H] k x. destruct (decide (k = key)) as [->|Hne].
    + rewrite lookup_insert_eq. by intros [= <-].
    + rewrite lookup_insert_ne by done. apply H.
Qed.

(** What the loop of [saveToDisk] comes to: it throws when some
    configuration cannot be written, and otherwise builds an entry for
    every key but [__proto__]. *)
Lemma save_loop_spec c :
  match map_fold save_entry (Some ∅) c with
  | Some data =>
      saveable c
      ∧ ∀ key, data !! key
               = if decide (key = lit "__proto__") then None
                 else c !! key ≫= to_entry
  | None => ¬ saveable c
  end.
Proof.
  apply (map_fold_weak_ind
           (λ r m, match r with
                   | Some data =>
                       saveable m
                       ∧ ∀ key, data !! key
                                = if decide (key = lit "__proto__") then None
                                  else m !! key ≫= to_entry
                   | None => ¬ saveable m
                   end)).
  - split; [by intros k x|]. intros k. by destruct (decide _).
  - intros i x m r Hi IH. unfold save_entry.
    destruct r as [data|]; simpl.
    + destruct IH as [Hs Hd]. destruct (to_entry x) as [e|] eqn:He; simpl.
      * split; [by apply saveable_insert|]. intros k. unfold assign.
        destruct (decide (i = lit "__proto__")) as [->|Hip].
        -- rewrite Hd. destruct (decide (k = lit "__proto__")); [done|].
           by rewrite lookup_insert_ne.
        -- destruct (decide (k = i)) as [->|Hne].
           ++ rewrite !lookup_insert_eq, decide_False by done. by simpl.
           ++ rewrite !lookup_insert_ne by done. apply Hd.
      * intros H. apply (saveable_insert i x m Hi) in H as [[? H] _].
        by rewrite He in H.
    + intros H. by apply (saveable_insert i x m Hi) in H as [_ H].
Qed.

Lemma snapshot_holds c data : snapshot c = Some data → holds data c.
Proof.
  unfold snapshot. pose proof (save_loop_spec c) as H.
  destruct (map_fold save_entry (Some ∅) c) as [d|]; [|done].
  destruct H as [Hs Hd]. intros [= <-]. unfold holds. simpl.
  split; [done|]. split; [by rewrite Hd, decide_True|].
  intros key Hk. rewrite Hd, decide_False by done.
  destruct (c !! key) as [config|] eqn:Hc; simpl; [|done].
  destruct (to_entry config) as [e|] eqn:He.
  - by apply to_entry_reflects.
  - destruct (Hs key config Hc) as [e He']. by rewrite He in He'.
Qed.

Lemma snapshot_saveable c : is_Some (snapshot c) ↔ saveable c.
Proof.
  unfold snapshot. pose proof (save_loop_spec c) as H.
  destruct (map_fold save_entry (Some ∅) c) as [d|]; simpl.
  - split; [by intros _; apply H|by eexists].
  - split; [by intros [? ?]|done].
Qed.

End SnapshotProperties.

Section DebounceProperties.
Import WorkingDirectoryManager DirectorySpec StoreSpec.

Variable baseDirectory : jsstring.
Variable process_cwd : jsstring.
Variable existsSync : jsstring → bool.
Variable statSync_isDirectory : jsstring → option bool.
Variable write_succeeds : Z → bool.
Variable JSON_stringify : PersistenceData → jsstring.

Local Abbreviation serve' :=
  (serve baseDirectory process_cwd existsSync statSync_isDirectory).
Local Abbreviation run' :=
  (run baseDirectory process_cwd existsSync statSync_isDirectory
     write_succeeds JSON_stringify).
Local Abbreviation all_mutate' :=
  (all_mutate baseDirectory process_cwd existsSync statSync_isDirectory
     write_succeeds JSON_stringify).
Local Abbreviation advance' := (advance write_succeeds JSON_stringify).

(** A request that changes the map ends in [scheduleSave]. *)
Lemma serve_mutates r w :
  (serve' r w).1 = true →
  ∃ c, (serve' r w).2 = scheduleSave (with_configs c w)
       ∧ configs (serve' r w).2 = c.
Proof.
  destruct r as [channelId directory threadTs userId
                |channelId threadTs userId]; simpl.
  - destruct (setWorkingDirectory_cases baseDirectory process_cwd existsSync
                statSync_isDirectory channelId directory threadTs userId w)
      as [(message & -> & _)|(resolved & _ & _ & ->)]; simpl; [done|].
    intros _. eexists. split; [reflexivity|].
    unfold scheduleSave. simpl. by destruct (saveTimer w).
  - unfold removeWorkingDirectory.
    destruct (configs w !! _); simpl; [|done].
    intros _. eexists. split; [reflexivity|].
    unfold scheduleSave. simpl. by destruct (saveTimer w).
Qed.

Lemma scheduleSave_rearms c w :
  (timers w = [] ∨ ∃ id d, timers w = [(id, d)] ∧ saveTimer w = Some id) →
  one_pending (scheduleSave (with_configs c w)) (now w)
  ∧ written (scheduleSave (with_configs c w)) = written w.
Proof.
  intros Ht. unfold one_pending, scheduleSave. simpl.
  destruct Ht as [Ht|(id & d & Ht & Hs)].
  - destruct (saveTimer w) as [id|]; simpl; rewrite Ht; simpl; eauto.
  - rewrite Hs. simpl. rewrite Ht. simpl.
    rewrite bool_decide_eq_true_2 by done. simpl. eauto.
Qed.

(** No timer is due: time passes and nothing else happens. *)
Lemma advance_quiet w T :
  (timers w = [] ∨ ∃ id d, timers w = [(id, d)] ∧ T < d) →
  advance' T w = with_now (Z.max (now w) T) w.
Proof.
  intros Ht. unfold advance.
  destruct Ht as [Ht|(id & d & Ht & Hd)]; rewrite Ht; simpl; [done|].
  rewrite Ht. simpl. by rewrite (proj2 (Z.leb_gt d T)) by lia.
Qed.

(** The one armed timer is due: [saveToDisk] runs once, at the due time. *)
Lemma advance_fires w T id d :
  timers w = [(id, d)] → now w ≤ d → d ≤ T →
  written (advance' T w)
  = written w ++ match snapshot (configs w) with
                 | Some data => if write_succeeds d then [(d, data)] else []
                 | None => []
                 end
  ∧ timers (advance' T w) = [].
Proof.
  intros Ht Hn Hd. unfold advance. rewrite Ht. simpl. rewrite Ht. simpl.
  rewrite (proj2 (Z.leb_le d T)) by lia.
  unfold saveToDisk. simpl. rewrite Z.max_r by lia.
  destruct (snapshot (configs w)) as [data|];
    [destruct (write_succeeds d)|]; simpl; rewrite Ht; simpl;
    rewrite bool_decide_eq_true_2 by done; simpl;
    by rewrite ?app_nil_r.
Qed.

Lemma run_burst events : ∀ w t D,
  one_pending w t → D ≤ t + SAVE_DEBOUNCE_MS →
  ordered_from t events →
  Forall (λ e, e.1 < D) events →
  all_mutate' events w →
  one_pending (run' events w) (last_time t events)
  ∧ written (run' events w) = written w.
Proof.
  induction events as [|[t' r] events IH]; intros w t D Hw HD Ho Hb Hm.
  - done.
  - destruct Hw as [(id & Ht & Hs) Hn]. destruct Ho as [Ho1 Ho2].
    apply Forall_cons in Hb as [Hb1 Hb2]. simpl in Hb1.
    destruct Hm as [Hm1 Hm2].
    assert (Ha : advance' t' w = with_now t' w).
    { rewrite advance_quiet; [by rewrite Z.max_r by lia|].
      right. exists id, (t + SAVE_DEBOUNCE_MS). split; [done|lia]. }
    cbn [run]. rewrite Ha in *.
    destruct (serve_mutates r (with_now t' w) Hm1) as (c & Hserve & _).
    rewrite Hserve in *.
    destruct (scheduleSave_rearms c (with_now t' w)) as [Hp Hwr].
    { right. exists id, (t + SAVE_DEBOUNCE_MS). done. }
    change (now (with_now t' w)) with t' in Hp.
    change (written (with_now t' w)) with (written w) in Hwr.
    destruct (IH _ t' D Hp ltac:(lia) Ho2 Hb2 Hm2) as [IH1 IH2].
    split.
    + replace (last_time t ((t', r) :: events)) with (last_time t' events);
        [done|].
      unfold last_time. rewrite fmap_cons, last_cons.
      by destruct (last events.*1).
    + by rewrite IH2, Hwr.
Qed.

(** Requests that each change the map, the first at [t1] and the others
    in order within one debounce window of it, leave one armed timer, due
    one window after the last request (a timer armed earlier and not yet
    due is cancelled by the first); nothing is written before that time;
    when it has passed [saveToDisk] has run exactly once, at that time.
    If every configuration of the map can be written and the write goes
    through, one document has been written, and it holds the whole map as
    the last request left it, the key [__proto__] apart; if not, nothing
    has been written. *)
Theorem burst_is_written_once
    (w0 : world) (t1 : Z) (r1 : request) (events : list (Z * request)) :
  (timers w0 = []
   ∨ ∃ id d, timers w0 = [(id, d)] ∧ saveTimer w0 = Some id ∧ t1 < d) →
  now w0 ≤ t1 →
  ordered_from t1 events →
  Forall (λ e, e.1 < t1 + SAVE_DEBOUNCE_MS) events →
  all_mutate' ((t1, r1) :: events) w0 →
  let w := run' ((t1, r1) :: events) w0 in
  let due := last_time t1 events + SAVE_DEBOUNCE_MS in
  (∃ id, timers w = [(id, due)] ∧ saveTimer w = Some id)
  ∧ written w = written w0
  ∧ (∀ T, T < due → written (advance' T w) = written w0)
  ∧ (∀ T, due ≤ T →
       timers (advance' T w) = []
       ∧ if decide (saveable (configs w) ∧ write_succeeds due = true)
         then ∃ data, written (advance' T w) = written w0 ++ [(due, data)]
                      ∧ holds data (configs w)
         else written (advance' T w) = written w0).
Proof.
  intros Ht0 Hn0 Ho Hb [Hm1 Hm2] w due. unfold w, due. clear w due.
  cbn [run]. 
  assert (Ha : advance' t1 w0 = with_now t1 w0).
  { rewrite advance_quiet; [by rewrite Z.max_r by lia|].
    destruct Ht0 as [?|(id & d & ? & _ & ?)]; [by left|].
    right. by exists id, d. }
  rewrite Ha in *.
  destruct (serve_mutates r1 (with_now t1 w0) Hm1) as (c & Hserve & _).
  rewrite Hserve in *.
  destruct (scheduleSave_rearms c (with_now t1 w0)) as [Hp Hwr].
  { destruct Ht0 as [?|(id & d & ? & ? & _)]; [by left|].
    right. by exists id, d. }
  change (now (with_now t1 w0)) with t1 in Hp.
  change (written (with_now t1 w0)) with (written w0) in Hwr.
  destruct (run_burst events _ t1 (t1 + SAVE_DEBOUNCE_MS) Hp ltac:(lia)
              Ho Hb Hm2) as [[(id & Ht & Hs) Hn] Hw].
  rewrite Hwr in Hw.
  split; [by exists id|]. split; [done|]. split.
  - intros T HT. rewrite advance_quiet; [done|].
    right. by exists id, (last_time t1 events + SAVE_DEBOUNCE_MS).
  - intros T HT.
    destruct (advance_fires _ T id _ Ht) as [Hf1 Hf2];
      [unfold SAVE_DEBOUNCE_MS; lia | done |].
    split; [done|]. rewrite Hf1, Hw.
    set (final := configs _).
    pose proof (snapshot_saveable final) as Hsave.
    pose proof (snapshot_holds final) as Hholds.
    destruct (snapshot final) as [data|].
    + destruct (write_succeeds _) eqn:Hok.
      * rewrite decide_True by (split; [by apply Hsave|done]).
        exists data. split; [done|]. by apply Hholds.
      * rewrite decide_False by (by intros [_ ?]). by rewrite app_nil_r.
    + rewrite decide_False; [by rewrite app_nil_r|].
      intros [Hs' _]. apply Hsave in Hs'. by destruct Hs'.
Qed.

End DebounceProperties.

Section DebounceSample.
Import WorkingDirectoryManager DirectorySpec StoreSpec.

Local Abbreviation run_sample :=
  (run [] (lit "/home/bot") sample_exists sample_stat (λ _, true)
     sample_stringify).
Local Abbreviation advance_sample :=
  (advance (λ _, true) sample_stringify).

(** [burst_is_written_once] on three requests at times 0, 300 and 900:
    nothing is written by time 1899, one document by time 5000, holding
    the two channels the map then has. *)
Lemma burst_is_written_once_witness :
  (timers sample_world = []
   ∨ ∃ id d, timers sample_world = [(id, d)]
             ∧ saveTimer sample_world = Some id ∧ 0 < d)
  ∧ now sample_world ≤ 0
  ∧ ordered_from 0 sample_burst
  ∧ Forall (λ e, e.1 < 0 + SAVE_DEBOUNCE_MS) sample_burst
  ∧ all_mutate [] (lit "/home/bot") sample_exists sample_stat (λ _, true)
      sample_stringify ((0, sample_first) :: sample_burst) sample_world
  ∧ let w := run_sample ((0, sample_first) :: sample_burst) sample_world in
    written (advance_sample 1899 w) = []
    ∧ ∃ data, written (advance_sample 5000 w) = [(1900, data)]
              ∧ holds data (configs w).
Proof.
  assert (H1 : ordered_from 0 sample_burst) by (simpl; lia).
  assert (H2 : Forall (λ e, e.1 < 0 + SAVE_DEBOUNCE_MS) sample_burst).
  { repeat apply Forall_cons_2; [reflexivity..|apply Forall_nil_2]. }
  assert (H3 : all_mutate [] (lit "/home/bot") sample_exists sample_stat
                 (λ _, true) sample_stringify
                 ((0, sample_first) :: sample_burst) sample_world).
  { simpl. repeat split; vm_compute; reflexivity. }
  split; [left; reflexivity|]. split; [simpl; lia|]. split; [exact H1|].
  split; [exact H2|]. split; [exact H3|].
  destruct (burst_is_written_once [] (lit "/home/bot") sample_exists
              sample_stat (λ _, true) sample_stringify sample_world 0
              sample_first sample_burst (or_introl eq_refl)
              ltac:(simpl; lia) H1 H2 H3)
    as (_ & _ & Hquiet & Hfire).
  split.
  - apply Hquiet. vm_compute. reflexivity.
  - destruct (Hfire 5000) as [_ Hdoc]; [vm_compute; discriminate|].
    rewrite decide_True in Hdoc; [exact Hdoc|]. split; [|reflexivity].
    apply snapshot_saveable. vm_compute. by eexists.
Defined.

(** C7 (where the code departs from it).  A directory is set for the
    channel named [__proto__], and a second later the save runs: one
    document is written, and it has no entry at all, while the map has
    the entry of that channel.  The assignment
    [data.directories[key] = ...] sets the prototype of the object under
    that key. *)
Theorem C7_proto_entry_is_not_written :
  ∃ config data,
    configs proto_run = {[ lit "__proto__" := config ]}
    ∧ directory config = lit "/tmp"
    ∧ written proto_run = [(1000, data)]
    ∧ directories data = ∅
    ∧ disk proto_run = Content (sample_stringify data).
Proof.
  eexists _, _. split; [vm_compute; reflexivity|].
  split; [reflexivity|]. split; [vm_compute; reflexivity|].
  split; [reflexivity|]. vm_compute. reflexivity.
Qed.

End DebounceSample.

(* ================================================================== *)
(** * Properties of the pattern matcher and of the command parser *)
(* ================================================================== *)

Section MatcherProperties.
Import RegExp CommandSpec.

(** A walk consumes a prefix of the input and moves the index along. *)
Lemma rounds_frame R x s y :
  (∀ x s y, R x s y → rest x = s ++ rest y
                      ∧ index y = (index x + length s)%nat) →
  rounds R x s y →
  rest x = s ++ rest y ∧ index y = (index x + length s)%nat.
Proof.
  intros HR Hr. induction Hr as [x|x s1 y s2 z H1 Hne _ [IH1 IH2]].
  - simpl. split; [done|lia].
  - destruct (HR _ _ _ H1) as [E1 E2]. split.
    + by rewrite E1, IH1, app_assoc.
    + rewrite IH2, E2, length_app. lia.
Qed.

Lemma walks_frame r : ∀ x s y,
  walks r x s y →
  rest x = s ++ rest y ∧ index y = (index x + length s)%nat.
Proof.
  induction r as [| | |ch|p|r1 IH1 r2 IH2|r1 IH1 r2 IH2|r1 IH1|r1 IH1|r1 IH1];
    intros x s y; simpl.
  - intros [-> ->]. simpl. split; [done|lia].
  - intros (_ & -> & ->). simpl. split; [done|lia].
  - intros (_ & -> & ->). simpl. split; [done|lia].
  - intros (a & -> & _ & Hx & ->). simpl. split; [done|lia].
  - intros (a & -> & _ & Hx & ->). simpl. split; [done|lia].
  - intros (s1 & y1 & s2 & -> & H1 & H2).
    destruct (IH1 _ _ _ H1) as [E1 E2], (IH2 _ _ _ H2) as [E3 E4]. split.
    + by rewrite E1, E3, app_assoc.
    + rewrite E4, E2, length_app. lia.
  - intros [H|H]; eauto.
  - intros [[-> ->]|[_ H]]; [simpl; split; [done|lia] | eauto].
  - intros (s1 & y1 & s2 & -> & H1 & H2).
    destruct (IH1 _ _ _ H1) as [E1 E2].
    destruct (rounds_frame _ _ _ _ IH1 H2) as [E3 E4]. split.
    + by rewrite E1, E3, app_assoc.
    + rewrite E4, E2, length_app. lia.
  - intros (y1 & H1 & ->). simpl. eauto.
Qed.

Lemma walks_nonempty r x s y :
  walks r x s y → (s ≠ [] ↔ index y ≠ index x).
Proof.
  intros H. destruct (walks_frame _ _ _ _ H) as [_ E]. rewrite E.
  destruct s; simpl; split; intros ?; try done; lia.
Qed.

Lemma group_capture r x s y :
  walks r x s y → take (index y - index x) (rest x) = s.
Proof.
  intros H. destruct (walks_frame _ _ _ _ H) as [-> ->].
  replace (index x + length s - index x)%nat with (length s) by lia.
  by rewrite take_app_length.
Qed.

(** ** The matcher finds only walks *)

Lemma repeat_greedy_sound r c :
  (∀ x c z, m r x c = Some z → ∃ s y, walks r x s y ∧ c y = Some z) →
  ∀ n x z, repeat_greedy (m r) c n x = Some z →
           ∃ s y, rounds (walks r) x s y ∧ c y = Some z.
Proof.
  intros Hr. induction n as [|n IH]; intros x z; simpl.
  - intros Hc. exists [], x. split; [constructor|done].
  - destruct (m r x _) as [z0|] eqn:Hm.
    + intros [= ->]. apply Hr in Hm as (s & y & Hw & Hk).
      destruct (decide (index y = index x)) as [|Hne]; [done|].
      apply IH in Hk as (s2 & y2 & Hrounds & Hc).
      exists (s ++ s2), y2. split; [|done].
      econstructor; [exact Hw| |exact Hrounds].
      by apply (walks_nonempty _ _ _ _ Hw).
    + intros Hc. exists [], x. split; [constructor|done].
Qed.

Lemma m_sound r : ∀ x c z,
  m r x c = Some z → ∃ s y, walks r x s y ∧ c y = Some z.
Proof.
  induction r as [| | |ch|p|r1 IH1 r2 IH2|r1 IH1 r2 IH2|r1 IH1|r1 IH1|r1 IH1];
    intros x c z; simpl.
  - intros Hc. by exists [], x.
  - destruct (decide (index x = 0%nat)); [|done]. intros Hc. by exists [], x.
  - destruct (rest x) eqn:Hx; [|done]. intros Hc. by exists [], x.
  - destruct (rest x) as [|a s'] eqn:Hx; [done|].
    destruct (canonicalize a =? canonicalize ch)%N eqn:Ha; [|done].
    apply N.eqb_eq in Ha. intros Hc. exists [a], (step x s').
    split; [|done]. by exists a.
  - destruct (rest x) as [|a s'] eqn:Hx; [done|].
    destruct (p a) eqn:Ha; [|done].
    intros Hc. exists [a], (step x s'). split; [|done]. by exists a.
  - intros H. apply IH1 in H as (s1 & y1 & H1 & H).
    apply IH2 in H as (s2 & y2 & H2 & Hc).
    exists (s1 ++ s2), y2. split; [|done]. by exists s1, y1, s2.
  - destruct (m r1 x c) as [z0|] eqn:H1.
    + intros [= ->]. apply IH1 in H1 as (s & y & ? & ?). exists s, y. auto.
    + intros H2. apply IH2 in H2 as (s & y & ? & ?). exists s, y. auto.
  - destruct (m r1 x _) as [z0|] eqn:H1.
    + intros [= ->]. apply IH1 in H1 as (s & y & Hw & Hk).
      destruct (decide (index y = index x)) as [|Hne]; [done|].
      exists s, y. split; [|done]. right. split; [|done].
      by apply (walks_nonempty _ _ _ _ Hw).
    + intros Hc. exists [], x. split; [by left|done].
  - intros H. apply IH1 in H as (s1 & y1 & H1 & H).
    apply (repeat_greedy_sound _ _ IH1) in H as (s2 & y2 & H2 & Hc).
    exists (s1 ++ s2), y2. split; [|done]. by exists s1, y1, s2.
  - intros H. apply IH1 in H as (s & y1 & H1 & Hc).
    rewrite (group_capture _ _ _ _ H1) in Hc.
    eexists s, _. split; [|exact Hc]. by exists y1.
Qed.

(** ** The matcher misses no walk *)

Lemma repeat_greedy_complete r c :
  (∀ x s y c, walks r x s y → is_Some (c y) → is_Some (m r x c)) →
  ∀ x s y, rounds (walks r) x s y → is_Some (c y) →
  ∀ n, (length (rest x) ≤ n)%nat → is_Some (repeat_greedy (m r) c n x).
Proof.
  intros Hr x s y Hrounds Hc.
  induction Hrounds as [x|x s1 y s2 z H1 Hne Hrounds IH]; intros n Hn.
  - destruct n as [|n]; simpl; [done|]. by destruct (m r x _).
  - destruct (walks_frame _ _ _ _ H1) as [E1 E2].
    destruct n as [|n].
    { rewrite E1, length_app in Hn. destruct s1; [done|simpl in Hn; lia]. }
    simpl.
    assert (Hk : is_Some (m r x (λ y0, if decide (index y0 = index x)
                                       then None
                                       else repeat_greedy (m r) c n y0))).
    { apply (Hr _ _ _ _ H1).
      rewrite decide_False by (by apply (walks_nonempty _ _ _ _ H1)).
      apply IH; [done|]. rewrite E1, length_app in Hn.
      destruct s1; [done|simpl in Hn; lia]. }
    by destruct Hk as [z0 ->].
Qed.

Lemma m_complete r : ∀ x s y c,
  walks r x s y → is_Some (c y) → is_Some (m r x c).
Proof.
  induction r as [| | |ch|p|r1 IH1 r2 IH2|r1 IH1 r2 IH2|r1 IH1|r1 IH1|r1 IH1];
    intros x s y c; simpl.
  - by intros [_ ->].
  - intros (Hx & _ & ->) Hc. by rewrite decide_True.
  - intros (Hx & _ & ->) Hc. by rewrite Hx.
  - intros (a & _ & Ha & Hx & Hy) Hc. rewrite Hx.
    apply N.eqb_eq in Ha as ->. by rewrite <- Hy.
  - intros (a & _ & Ha & Hx & Hy) Hc. rewrite Hx, Ha. by rewrite <- Hy.
  - intros (s1 & y1 & s2 & _ & H1 & H2) Hc.
    apply (IH1 _ _ _ _ H1). by apply (IH2 _ _ _ _ H2).
  - intros [H|H] Hc.
    + destruct (IH1 _ _ _ _ H Hc) as [z ->]. done.
    + destruct (m r1 x c); [done|]. by apply (IH2 _ _ _ _ H).
  - intros [[_ ->]|[Hne H]] Hc.
    + by destruct (m r1 x _).
    + assert (Hk : is_Some (m r1 x (λ y0, if decide (index y0 = index x)
                                          then None else c y0))).
      { apply (IH1 _ _ _ _ H).
        by rewrite decide_False by (by apply (walks_nonempty _ _ _ _ H)). }
      by destruct Hk as [z ->].
  - intros (s1 & y1 & s2 & _ & H1 & H2) Hc.
    apply (IH1 _ _ _ _ H1).
    by apply (repeat_greedy_complete _ _ IH1 _ _ _ H2).
  - intros (y1 & H1 & ->) Hc. apply (IH1 _ _ _ _ H1).
    by rewrite (group_capture _ _ _ _ H1).
Qed.

End MatcherProperties.

Section BlockProperties.
Import RegExp CommandSpec.

Lemma after_nil x : after x [] = x.
Proof. destruct x. unfold after. simpl. f_equal. lia. Qed.

Lemma after_app x s1 s2 : after (after x s1) s2 = after x (s1 ++ s2).
Proof.
  unfold after. simpl. rewrite length_app, drop_drop. f_equal. lia.
Qed.

Lemma ahead_app x s1 s2 :
  ahead x (s1 ++ s2) ↔ ahead x s1 ∧ ahead (after x s1) s2.
Proof.
  unfold ahead. simpl. split.
  - intros [t Ht]. split.
    + exists (s2 ++ t). by rewrite Ht, app_assoc.
    + exists t. by rewrite Ht, <- app_assoc, drop_app_length.
  - intros [[t1 H1] [t2 H2]]. exists t2.
    rewrite H1, drop_app_length in H2. by rewrite H1, H2, app_assoc.
Qed.

Lemma step_after x a t : rest x = a :: t → step x t = after x [a].
Proof.
  intros Hx. unfold step, after. simpl. rewrite Hx. simpl. rewrite drop_0.
  f_equal. lia.
Qed.

Lemma walks_sequence_cons r rs x s y :
  walks (sequence (r :: rs)) x s y
  ↔ ∃ s1 y1 s2, s = s1 ++ s2 ∧ walks r x s1 y1 ∧ walks (sequence rs) y1 s2 y.
Proof.
  destruct rs as [|r' rs]; [|done]. simpl. split.
  - intros H. exists s, y, []. by rewrite app_nil_r.
  - intros (s1 & y1 & s2 & -> & H & -> & ->). by rewrite app_nil_r.
Qed.

Lemma walks_Chr ch x s y :
  walks (Chr ch) x s y
  ↔ ∃ a, s = [a] ∧ canonicalize a = canonicalize ch
         ∧ ahead x [a] ∧ y = after x [a].
Proof.
  simpl. split.
  - intros (a & -> & Ha & Hx & Hy). exists a. repeat split; [done| |].
    + by exists (rest y).
    + rewrite Hy at 1. by apply step_after.
  - intros (a & -> & Ha & [t Hx] & ->). exists a. simpl in *.
    rewrite Hx. simpl. rewrite drop_0. repeat split; [done|].
    symmetry. by apply step_after.
Qed.

Lemma walks_Cls p x s y :
  walks (Cls p) x s y
  ↔ ∃ a, s = [a] ∧ p a = true ∧ ahead x [a] ∧ y = after x [a].
Proof.
  simpl. split.
  - intros (a & -> & Ha & Hx & Hy). exists a. repeat split; [done| |].
    + by exists (rest y).
    + rewrite Hy at 1. by apply step_after.
  - intros (a & -> & Ha & [t Hx] & ->). exists a. simpl in *.
    rewrite Hx. simpl. rewrite drop_0. repeat split; [done|].
    symmetry. by apply step_after.
Qed.

(** A word of pattern characters walks over the texts that agree with
    it up to case. *)
Lemma walks_chars cs : ∀ x s y,
  walks (sequence (Chr <$> cs)) x s y
  ↔ Forall2 (λ a ch, canonicalize a = canonicalize ch) s cs
    ∧ ahead x s ∧ y = after x s.
Proof.
  induction cs as [|ch cs IH]; intros x s y.
  - simpl. split.
    + intros [-> ->]. split; [constructor|]. split; [by exists (rest x)|].
      by rewrite after_nil.
    + intros (H & _ & ->). apply Forall2_nil_inv_r in H as ->.
      by rewrite after_nil.
  - rewrite fmap_cons, walks_sequence_cons. split.
    + intros (s1 & y1 & s2 & -> & H1 & H2).
      apply walks_Chr in H1 as (a & -> & Ha & Hx & ->).
      apply IH in H2 as (Hs & Hx2 & ->). split; [by constructor|].
      split; [by apply ahead_app|]. by rewrite after_app.
    + intros (H & Hx & ->). apply Forall2_cons_inv_r in H
        as (a & s2 & Ha & Hs & ->).
      change (a :: s2) with ([a] ++ s2) in *.
      apply ahead_app in Hx as [Hx1 Hx2].
      exists [a], (after x [a]), s2. split; [done|]. split.
      * apply walks_Chr. by exists a.
      * apply IH. by rewrite after_app.
Qed.

Lemma rounds_Cls p : ∀ s x y,
  rounds (walks (Cls p)) x s y
  ↔ Forall (λ a, p a = true) s ∧ ahead x s ∧ y = after x s.
Proof.
  intros s x y. split.
  - intros H. induction H as [x|x s1 y s2 z H1 _ _ (IH1 & IH2 & ->)].
    + split; [constructor|]. split; [by exists (rest x)|].
      by rewrite after_nil.
    + apply walks_Cls in H1 as (a & -> & Ha & Hx & ->).
      split; [by constructor|]. split; [by apply ahead_app|].
      by rewrite after_app.
  - revert x y. induction s as [|a s IH]; intros x y (Hp & Hx & ->).
    + rewrite after_nil. constructor.
    + apply Forall_cons in Hp as [Ha Hp].
      change (a :: s) with ([a] ++ s) in *.
      apply ahead_app in Hx as [Hx1 Hx2].
      apply (rounds_more _ x [a] (after x [a]) s); [|done|].
      * apply walks_Cls. by exists a.
      * apply IH. by rewrite after_app.
Qed.

(** [p+] walks over the non-empty runs of code units of the class. *)
Lemma walks_Plus_Cls p x s y :
  walks (Plus (Cls p)) x s y
  ↔ s ≠ [] ∧ Forall (λ a, p a = true) s ∧ ahead x s ∧ y = after x s.
Proof.
  cbn [walks]. split.
  - intros (s1 & y1 & s2 & -> & H1 & H2).
    apply walks_Cls in H1 as (a & -> & Ha & Hx & ->).
    apply rounds_Cls in H2 as (Hp & Hx2 & ->).
    split; [done|]. split; [by constructor|].
    split; [by apply ahead_app|]. by rewrite after_app.
  - intros (Hne & Hp & Hx & ->). destruct s as [|a s]; [done|].
    apply Forall_cons in Hp as [Ha Hp].
    change (a :: s) with ([a] ++ s) in *.
    apply ahead_app in Hx as [Hx1 Hx2].
    exists [a], (after x [a]), s. split; [done|]. split.
    + apply walks_Cls. by exists a.
    + apply rounds_Cls. by rewrite after_app.
Qed.

End BlockProperties.

Section PatternProperties.
Import RegExp CommandSpec WorkingDirectoryManager.

Lemma canonicalize_letter ch a :
  (97 ≤ ch ≤ 122)%N →
  canonicalize a = canonicalize ch ↔ a = ch ∨ a = (ch - 32)%N.
Proof.
  intros Hch. unfold canonicalize.
  destruct (N.leb_spec 97 a), (N.leb_spec a 122),
    (N.leb_spec 97 ch), (N.leb_spec ch 122); simpl; lia.
Qed.

Lemma walks_word w x s y :
  lower_case w →
  walks (word w) x s y ↔ spells w s ∧ ahead x s ∧ y = after x s.
Proof.
  intros Hw. unfold word. rewrite walks_chars.
  enough (Forall2 (λ a ch, canonicalize a = canonicalize ch) s (lit w)
          ↔ spells w s) as -> by done.
  unfold spells, lower_case in *. revert s.
  induction Hw as [|ch cs Hch _ IH]; intros s.
  - split; intros H; apply Forall2_nil_inv_r in H as ->; constructor.
  - split; intros H; apply Forall2_cons_inv_r in H
      as (a & s' & Ha & Hs & ->); constructor;
      try (by apply IH); by apply (canonicalize_letter ch a).
Qed.

Lemma lower_cwd : lower_case "cwd".
Proof. repeat (apply Forall_cons; split; [vm_compute; by split|]). done. Qed.
Lemma lower_set : lower_case "set".
Proof. repeat (apply Forall_cons; split; [vm_compute; by split|]). done. Qed.
Lemma lower_dir : lower_case "dir".
Proof. repeat (apply Forall_cons; split; [vm_compute; by split|]). done. Qed.
Lemma lower_directory : lower_case "directory".
Proof. repeat (apply Forall_cons; split; [vm_compute; by split|]). done. Qed.
Lemma lower_working : lower_case "working".
Proof. repeat (apply Forall_cons; split; [vm_compute; by split|]). done. Qed.

(** A pattern that starts with [^] matches at index 0 or not at all. *)
Lemma exec_from_anchored r s : ∀ i,
  i ≠ 0%nat → exec_from (Seq Bol r) i s = None.
Proof.
  induction s as [|a s IH]; intros i Hi; simpl;
    rewrite decide_False by done; [done|]. by apply IH.
Qed.

Lemma match_anchored text r :
  match_ text (Seq Bol r) = capture <$> m (Seq Bol r) (start_of text) Some.
Proof.
  unfold match_, start_of. destruct text as [|a text]; simpl.
  - by destruct (m r _ Some).
  - destruct (m r _ Some); [done|]. by rewrite exec_from_anchored.
Qed.

(** The common tail [\s+(.+)$]. *)
Lemma walks_tail x s y :
  walks (sequence [Plus (Cls space_char); Group (Plus (Cls any_char)); Eol])
    x s y
  ↔ ∃ ws value,
      s = ws ++ value ∧ blank ws ∧ one_line value ∧ rest x = s
      ∧ y = {| index := index x + length s; rest := [];
               capture := Some value |}.
Proof.
  cbn [sequence]. split.
  - intros (ws & y1 & s2 & -> & H1 & value & y3 & s4 & -> & H2 & H3).
    apply walks_Plus_Cls in H1 as (Hne1 & Hsp & [t1 Hx1] & ->).
    destruct H2 as (y2 & H2 & ->).
    apply walks_Plus_Cls in H2 as (Hne2 & Hany & [t2 Hx2] & ->).
    destruct H3 as (Hend & -> & ->). simpl in *.
    rewrite Hx1, drop_app_length in Hx2, Hend. rewrite Hx2 in Hend.
    rewrite drop_app_length in Hend. subst t2 t1.
    exists ws, value. rewrite !app_nil_r in *.
    split; [done|]. split; [done|]. split.
    { split; [done|]. eapply Forall_impl; [exact Hany|].
      intros a Ha. unfold any_char in Ha. by destruct (is_line_terminator a). }
    split; [done|].
    by rewrite Hx1, drop_app_length, drop_all, length_app, Nat.add_assoc.
  - intros (ws & value & -> & [Hne1 Hsp] & [Hne2 Hline] & Hx & ->).
    exists ws, (after x ws), (value ++ []). rewrite app_nil_r.
    split; [done|]. split.
    { apply walks_Plus_Cls. split; [done|]. split; [done|].
      split; [by exists value|done]. }
    exists value, {| index := index (after (after x ws) value);
                     rest := rest (after (after x ws) value);
                     capture := Some value |}, [].
    split; [by rewrite app_nil_r|]. split.
    { exists (after (after x ws) value). split; [|done].
      apply walks_Plus_Cls. split; [done|]. split.
      - eapply Forall_impl; [exact Hline|].
        intros a Ha. unfold any_char. by rewrite Ha.
      - split; [|done]. exists []. simpl.
        by rewrite Hx, drop_app_length, app_nil_r. }
    simpl. rewrite Hx, drop_app_length, drop_all, length_app, Nat.add_assoc.
    done.
Qed.

Lemma dash_or_space_joint a :
  dash_or_space a = true ↔ [a] = joint_text Hyphen ∨ [a] = joint_text Space.
Proof.
  unfold dash_or_space. rewrite orb_true_iff, !N.eqb_eq. split.
  - intros [->| ->]; auto.
  - intros [[= ->]|[= ->]]; auto.
Qed.

(** [working[- ]?directory] and [working[- ]directory]. *)
Lemma walks_working (optional : bool) x s y :
  walks (sequence [word "working";
                   if optional then Opt (Cls dash_or_space)
                   else Cls dash_or_space;
                   word "directory"]) x s y
  ↔ (∃ a j b, s = a ++ joint_text j ++ b
              ∧ spells "working" a ∧ spells "directory" b
              ∧ (optional = false → j ≠ Joined))
    ∧ ahead x s ∧ y = after x s.
Proof.
  rewrite walks_sequence_cons. split.
  - intros (a & y1 & s1 & -> & Ha & H).
    apply walks_sequence_cons in H as (js & y2 & s2 & -> & Hj & Hb).
    apply walks_sequence_cons in Hb as (b & y3 & s3 & -> & Hb & -> & ->).
    apply (walks_word _ _ _ _ lower_working) in Ha as (Ha & Hxa & ->).
    apply (walks_word _ _ _ _ lower_directory) in Hb as (Hb & Hxb & ->).
    rewrite app_nil_r.
    assert (Hjs : (∃ j, js = joint_text j ∧ (optional = false → j ≠ Joined))
                  ∧ ahead (after x a) js ∧ y2 = after (after x a) js).
    { destruct optional.
      - destruct Hj as [[-> ->]|[_ Hj]].
        + split; [by exists Joined|]. split; [by exists (rest (after x a))|].
          by rewrite after_nil.
        + apply walks_Cls in Hj as (c & -> & Hc & ? & ?).
          apply dash_or_space_joint in Hc as [Hc|Hc]; rewrite Hc in *;
            (split; [|done]); by eexists.
      - apply walks_Cls in Hj as (c & -> & Hc & ? & ?).
        apply dash_or_space_joint in Hc as [Hc|Hc]; rewrite Hc in *;
          (split; [|done]); by eexists. }
    destruct Hjs as ((j & -> & Hjne) & Hxj & ->).
    split; [by exists a, j, b|]. rewrite !after_app in *. split; [|done].
    apply ahead_app. split; [done|]. rewrite <- after_app in Hxb.
    by apply ahead_app.
  - intros ((a & j & b & -> & Ha & Hb & Hj) & Hx & ->).
    apply ahead_app in Hx as [Hxa Hx]. apply ahead_app in Hx as [Hxj Hxb].
    exists a, (after x a), (joint_text j ++ b). split; [done|].
    split; [by apply walks_word; [apply lower_working|]|].
    apply walks_sequence_cons.
    exists (joint_text j), (after (after x a) (joint_text j)), b.
    split; [done|]. split.
    + assert (Hc : j ≠ Joined →
                   walks (Cls dash_or_space) (after x a) (joint_text j)
                     (after (after x a) (joint_text j))).
      { intros Hne. apply walks_Cls. destruct j; [done|..];
          eexists; (split; [reflexivity|]); done. }
      destruct optional.
      * destruct j; [left; by rewrite after_nil|right..];
          (split; [done|]); by apply Hc.
      * by apply Hc, Hj.
    + apply walks_sequence_cons. eexists b, _, []. rewrite app_nil_r.
      split; [done|]. split; [|done].
      apply walks_word; [apply lower_directory|].
      split; [done|]. split; [done|]. by rewrite !after_app.
Qed.

Lemma walks_setting_names x s y :
  walks setting_names x s y ↔ setting_name s ∧ ahead x s ∧ y = after x s.
Proof.
  unfold setting_names. cbn [choice walks].
  rewrite (walks_working true), !walks_word
    by (apply lower_cwd || apply lower_dir || apply lower_directory).
  split.
  - intros [(?&?&?)|[(?&?&?)|[(?&?&?)|((a & j & b & -> & ? & ? & _)&?&?)]]];
      (split; [|done]).
    + by apply name_cwd.
    + by apply name_dir.
    + by apply name_directory.
    + by apply name_working.
  - intros (Hn & Hx & Hy). destruct Hn as [s ?|s ?|s ?|a j b ? ?].
    + by left.
    + right. by left.
    + do 2 right. by left.
    + do 3 right. split; [|done]. by exists a, j, b.
Qed.

Lemma walks_listed_names x s y :
  walks listed_names x s y ↔ listed_name s ∧ ahead x s ∧ y = after x s.
Proof.
  unfold listed_names. cbn [choice walks].
  rewrite (walks_working false), !walks_word
    by (apply lower_cwd || apply lower_dir || apply lower_directory).
  split.
  - intros [(?&?&?)|[(?&?&?)|[(?&?&?)|((a & j & b & -> & ? & ? & Hj)&?&?)]]];
      (split; [|done]).
    + by apply listed_cwd.
    + by apply listed_dir.
    + by apply listed_directory.
    + apply listed_working; auto.
  - intros (Hn & Hx & Hy). destruct Hn as [s ?|s ?|s ?|a j b ? ? ?].
    + by left.
    + right. by left.
    + do 2 right. by left.
    + do 3 right. split; [|done]. by exists a, j, b.
Qed.

(** What the two patterns match, from index 0. *)
Lemma walks_cwd_pattern text s y :
  walks cwd_pattern (start_of text) s y
  ↔ ∃ value, short_form text value ∧ s = text ∧ y = end_of text value.
Proof.
  unfold cwd_pattern. rewrite walks_sequence_cons. split.
  - intros (s0 & y0 & s1 & -> & (_ & -> & ->) & H).
    apply walks_sequence_cons in H as (kw & y1 & s2 & -> & Hkw & Ht).
    apply (walks_word _ _ _ _ lower_cwd) in Hkw as (Hkw & [t Hx] & ->).
    apply walks_tail in Ht as (ws & value & -> & Hws & Hv & Hr & ->).
    simpl in Hx, Hr. rewrite Hx, drop_app_length in Hr. subst t.
    exists value. split; [by exists kw, ws|]. simpl. split; [done|].
    unfold end_of. by rewrite Hx, !length_app.
  - intros (value & (kw & ws & Ht & Hkw & Hws & Hv) & -> & ->).
    exists [], (start_of text), text. split; [done|]. split; [done|].
    apply walks_sequence_cons.
    exists kw, (after (start_of text) kw), (ws ++ value).
    split; [done|]. split.
    + apply walks_word; [apply lower_cwd|]. split; [done|].
      split; [|done]. by exists (ws ++ value).
    + apply walks_tail. exists ws, value. simpl.
      rewrite Ht at 1. rewrite drop_app_length.
      split; [done|]. split; [done|]. split; [done|]. split; [done|].
      unfold end_of. by rewrite Ht, !length_app.
Qed.

Lemma walks_long_pattern names_re (names : jsstring → Prop) text s y :
  (∀ x s y, walks names_re x s y ↔ names s ∧ ahead x s ∧ y = after x s) →
  walks (long_pattern names_re) (start_of text) s y
  ↔ ∃ value, long_form names text value ∧ s = text ∧ y = end_of text value.
Proof.
  intros Hnames. unfold long_pattern. rewrite walks_sequence_cons. split.
  - intros (s0 & y0 & s1 & -> & (_ & -> & ->) & H).
    apply walks_sequence_cons in H as (kw & y1 & s2 & -> & Hkw & H).
    apply walks_sequence_cons in H as (ws1 & y2 & s3 & -> & Hws1 & H).
    apply walks_sequence_cons in H as (name & y3 & s4 & -> & Hname & Ht).
    apply (walks_word _ _ _ _ lower_set) in Hkw as (Hkw & [t1 Hx1] & ->).
    apply walks_Plus_Cls in Hws1 as (Hne1 & Hsp1 & [t2 Hx2] & ->).
    apply Hnames in Hname as (Hname & [t3 Hx3] & ->).
    apply walks_tail in Ht as (ws2 & value & -> & Hws2 & Hv & Hr & ->).
    simpl in Hx1, Hx2, Hx3, Hr.
    rewrite Hx1, drop_app_length in Hx2. subst t1.
    rewrite Hx1, drop_app_length, drop_app_length in Hx3. subst t2.
    rewrite Hx1, !drop_app_length in Hr. subst t3.
    exists value. split; [by exists kw, ws1, name, ws2|]. simpl.
    split; [done|]. unfold end_of. rewrite Hx1, !length_app. f_equal. lia.
  - intros (value & (kw & ws1 & name & ws2 & Ht & Hkw & [Hne1 Hsp1] & Hname
            & Hws2 & Hv) & -> & ->).
    exists [], (start_of text), text. split; [done|]. split; [done|].
    apply walks_sequence_cons.
    exists kw, (after (start_of text) kw), (ws1 ++ name ++ ws2 ++ value).
    split; [done|]. split.
    { apply walks_word; [apply lower_set|]. split; [done|].
      split; [|done]. by eexists. }
    apply walks_sequence_cons.
    exists ws1, (after (after (start_of text) kw) ws1),
      (name ++ ws2 ++ value).
    split; [done|]. split.
    { apply walks_Plus_Cls. split; [done|]. split; [done|].
      split; [|done]. eexists. simpl. by rewrite Ht, drop_app_length. }
    apply walks_sequence_cons.
    exists name, (after (after (after (start_of text) kw) ws1) name),
      (ws2 ++ value).
    split; [done|]. split.
    { apply Hnames. split; [done|]. split; [|done]. eexists. simpl.
      by rewrite Ht, !drop_app_length. }
    apply walks_tail. exists ws2, value. simpl.
    rewrite Ht at 1. rewrite !drop_app_length.
    split; [done|]. split; [done|]. split; [done|]. split; [done|].
    unfold end_of. rewrite Ht, !length_app. f_equal. lia.
Qed.

(** From what a [^]-pattern walks over to what [match] returns. *)
Lemma match_characterized r (F : jsstring → jsstring → Prop) text :
  (∀ s y, walks (Seq Bol r) (start_of text) s y
          ↔ ∃ value, F text value ∧ s = text ∧ y = end_of text value) →
  (∀ cap, match_ text (Seq Bol r) = Some cap →
          ∃ value, cap = Some value ∧ F text value)
  ∧ (∀ value, F text value → is_Some (match_ text (Seq Bol r))).
Proof.
  intros Hw. rewrite match_anchored. split.
  - intros cap Hm.
    destruct (m (Seq Bol r) (start_of text) Some) as [z|] eqn:Hz; [|done].
    injection Hm as <-.
    apply m_sound in Hz as (s & y & Hwalk & [= <-]).
    apply Hw in Hwalk as (value & HF & _ & ->). by exists value.
  - intros value HF.
    assert (Hwalk : walks (Seq Bol r) (start_of text) text
                      (end_of text value)) by (apply Hw; by exists value).
    destruct (m_complete _ _ _ _ Some Hwalk) as [z ->]; [done|].
    by eexists.
Qed.

End PatternProperties.

Section GrammarProperties.
Import RegExp CommandSpec WorkingDirectoryManager.

(** ** The parser against the grammar *)

Lemma short_form_match text :
  (∀ cap, match_ text cwd_pattern = Some cap →
          ∃ value, cap = Some value ∧ short_form text value)
  ∧ (∀ value, short_form text value → is_Some (match_ text cwd_pattern)).
Proof.
  apply (match_characterized _ short_form). intros s y.
  apply walks_cwd_pattern.
Qed.

Lemma long_form_match names_re names text :
  (∀ x s y, walks names_re x s y ↔ names s ∧ ahead x s ∧ y = after x s) →
  (∀ cap, match_ text (long_pattern names_re) = Some cap →
          ∃ value, cap = Some value ∧ long_form names text value)
  ∧ (∀ value, long_form names text value →
              is_Some (match_ text (long_pattern names_re))).
Proof.
  intros Hn. apply (match_characterized _ (long_form names)). intros s y.
  by apply walks_long_pattern.
Qed.

Lemma parseSetCommand_sound text v :
  parseSetCommand text = Some v →
  ∃ value, set_command setting_name text value ∧ v = trim value.
Proof.
  unfold parseSetCommand.
  destruct (match_ text cwd_pattern) as [cap|] eqn:Hc.
  - apply short_form_match in Hc as (value & -> & Hs).
    intros [= <-]. exists value. split; [by left|done].
  - destruct (match_ text set_pattern) as [cap|] eqn:Hl; [|done].
    apply (long_form_match _ _ _ walks_setting_names) in Hl
      as (value & -> & Hl).
    intros [= <-]. exists value. split; [by right|done].
Qed.

Lemma parseSetCommand_complete text value :
  set_command setting_name text value → is_Some (parseSetCommand text).
Proof.
  unfold parseSetCommand. intros Hcmd.
  destruct (match_ text cwd_pattern) as [cap|] eqn:Hc.
  - apply short_form_match in Hc as (value' & -> & _). by eexists.
  - destruct Hcmd as [Hs|Hl].
    + apply short_form_match in Hs as [cap Hs]. congruence.
    + apply (long_form_match _ _ _ walks_setting_names) in Hl as [cap Hl].
      change (long_pattern setting_names) with set_pattern in Hl.
      rewrite Hl.
      apply (long_form_match _ _ _ walks_setting_names) in Hl
        as (value' & -> & _).
      by eexists.
Qed.

(** ** A text is a set command in one way only *)

Lemma trim_start_blank ws s :
  Forall (λ a, is_space a = true) ws → trim_start (ws ++ s) = trim_start s.
Proof.
  induction 1 as [|a ws Ha _ IH]; [done|]. simpl. by rewrite Ha.
Qed.

Lemma trim_blank ws s :
  Forall (λ a, is_space a = true) ws → trim (ws ++ s) = trim s.
Proof. intros H. unfold trim. by rewrite trim_start_blank. Qed.

(** A run of a class followed by a code unit outside it is determined by
    the text. *)
Lemma span_unique (p : N → bool) a : ∀ a' b b',
  Forall (λ c, p c = true) a → Forall (λ c, p c = true) a' →
  (∃ c t, b = c :: t ∧ p c = false) →
  (∃ c t, b' = c :: t ∧ p c = false) →
  a ++ b = a' ++ b' → a = a' ∧ b = b'.
Proof.
  induction a as [|x a IH]; intros a' b b' Ha Ha' Hb Hb' E.
  - destruct a' as [|x' a']; [done|]. exfalso.
    destruct Hb as (c & t & -> & Hc). simpl in E. injection E as -> _.
    apply Forall_cons in Ha' as [Hx _]. congruence.
  - apply Forall_cons in Ha as [Hx Ha]. destruct a' as [|x' a'].
    + exfalso. destruct Hb' as (c & t & -> & Hc). simpl in E.
      injection E as -> _. congruence.
    + apply Forall_cons in Ha' as [_ Ha']. simpl in E.
      injection E as -> E. destruct (IH _ _ _ Ha Ha' Hb Hb' E) as [-> ->].
      done.
Qed.

Lemma letter_not_space ch a :
  (97 ≤ ch ≤ 122)%N → a = ch ∨ a = (ch - 32)%N → is_space a = false.
Proof.
  intros Hch Ha. unfold is_space, is_line_terminator.
  repeat match goal with
         | |- context [(a =? ?k)%N] =>
             rewrite (proj2 (N.eqb_neq a k)) by lia
         end.
  rewrite (proj2 (N.leb_gt 8192 a)) by lia. done.
Qed.

Lemma spells_solid w s :
  lower_case w → spells w s → Forall (λ a, is_space a = false) s.
Proof.
  unfold lower_case, spells. intros Hw Hs. revert Hw.
  induction Hs as [|a ch s cs Ha _ IH]; intros Hw; [constructor|].
  apply Forall_cons in Hw as [Hch Hw]. constructor; [|by apply IH].
  by apply (letter_not_space ch).
Qed.

Lemma spells_length w s : spells w s → length s = length (lit w).
Proof. apply Forall2_length. Qed.

Lemma blank_head ws s :
  blank ws → ∃ c t, ws ++ s = c :: t ∧ is_space c = true.
Proof.
  intros [Hne Hsp]. destruct ws as [|c ws]; [done|].
  apply Forall_cons in Hsp as [Hc _]. by exists c, (ws ++ s).
Qed.

(** A name has no white space, but for the space of [working directory]. *)
Lemma setting_name_shape n :
  setting_name n →
  (Forall (λ a, is_space a = false) n ∧ length n ≠ 7%nat ∧ n ≠ [])
  ∨ (∃ a b, n = a ++ lit " " ++ b
            ∧ spells "working" a ∧ spells "directory" b).
Proof.
  intros [s Hs|s Hs|s Hs|a j b Ha Hb].
  - left. pose proof (spells_length _ _ Hs) as Hl.
    split; [by apply (spells_solid "cwd"); [apply lower_cwd|]|].
    split; [by rewrite Hl|]. by destruct s.
  - left. pose proof (spells_length _ _ Hs) as Hl.
    split; [by apply (spells_solid "dir"); [apply lower_dir|]|].
    split; [by rewrite Hl|]. by destruct s.
  - left. pose proof (spells_length _ _ Hs) as Hl.
    split; [by apply (spells_solid "directory"); [apply lower_directory|]|].
    split; [by rewrite Hl|]. by destruct s.
  - pose proof (spells_length _ _ Ha) as Hla.
    pose proof (spells_length _ _ Hb) as Hlb.
    pose proof (spells_solid _ _ lower_working Ha) as Hsa.
    pose proof (spells_solid _ _ lower_directory Hb) as Hsb.
    destruct j.
    + left. split; [by apply Forall_app|].
      split; [|by destruct a].
      simpl. rewrite length_app, Hla, Hlb. done.
    + left. split.
      { apply Forall_app. split; [done|]. by apply Forall_cons. }
      split; [|by destruct a].
      rewrite !length_app, Hla, Hlb. done.
    + right. by exists a, b.
Qed.

Lemma solid_span n n' R R' :
  Forall (λ a, is_space a = false) n → Forall (λ a, is_space a = false) n' →
  (∃ c t, R = c :: t ∧ is_space c = true) →
  (∃ c t, R' = c :: t ∧ is_space c = true) →
  n ++ R = n' ++ R' → n = n' ∧ R = R'.
Proof.
  intros Hn Hn' (c & t & -> & Hc) (c' & t' & -> & Hc').
  apply (span_unique (λ a, negb (is_space a))).
  - eapply Forall_impl; [exact Hn|]. by intros a ->.
  - eapply Forall_impl; [exact Hn'|]. by intros a ->.
  - exists c, t. by rewrite Hc.
  - exists c', t'. by rewrite Hc'.
Qed.

(** The name of a long form is determined by the text at its start. *)
Lemma setting_name_unique n n' R R' :
  setting_name n → setting_name n' →
  (∃ c t, R = c :: t ∧ is_space c = true) →
  (∃ c t, R' = c :: t ∧ is_space c = true) →
  n ++ R = n' ++ R' → R = R'.
Proof.
  intros Hn Hn' HR HR' E.
  destruct (setting_name_shape _ Hn) as [(Hs & Hl & _)|(a & b & -> & Ha & Hb)],
    (setting_name_shape _ Hn')
      as [(Hs' & Hl' & _)|(a' & b' & -> & Ha' & Hb')].
  - by destruct (solid_span _ _ _ _ Hs Hs' HR HR' E).
  - exfalso. rewrite <- app_assoc in E.
    destruct (solid_span n a' R (lit " " ++ b' ++ R')) as [-> _];
      [done|by apply (spells_solid "working"); [apply lower_working|]
      |done|by eexists _, _|by rewrite <- app_assoc in E|].
    by rewrite (spells_length _ _ Ha') in Hl.
  - exfalso. rewrite <- app_assoc in E.
    destruct (solid_span a n' (lit " " ++ b ++ R) R') as [-> _];
      [by apply (spells_solid "working"); [apply lower_working|]|done
      |by eexists _, _|done|by rewrite <- app_assoc in E|].
    by rewrite (spells_length _ _ Ha) in Hl'.
  - rewrite <- !app_assoc in E.
    apply app_inj_1 in E as [_ E];
      [|by rewrite (spells_length _ _ Ha), (spells_length _ _ Ha')].
    injection E as E.
    apply app_inj_1 in E as [_ E];
      [done|by rewrite (spells_length _ _ Hb), (spells_length _ _ Hb')].
Qed.

Lemma setting_name_head n :
  setting_name n → ∀ R, ∃ c t, n ++ R = c :: t ∧ is_space c = false.
Proof.
  intros Hn R.
  destruct (setting_name_shape _ Hn) as [(Hs & _ & Hne)|(a & b & -> & Ha & _)].
  - destruct n as [|c n]; [done|]. apply Forall_cons in Hs as [Hc _].
    by exists c, (n ++ R).
  - pose proof (spells_solid _ _ lower_working Ha) as Hs.
    pose proof (spells_length _ _ Ha) as Hl.
    destruct a as [|c a]; [done|]. apply Forall_cons in Hs as [Hc _].
    by eexists c, _.
Qed.

Lemma short_form_unique text v1 v2 :
  short_form text v1 → short_form text v2 → trim v1 = trim v2.
Proof.
  intros (kw & ws & -> & Hkw & [_ Hws] & _)
         (kw' & ws' & E & Hkw' & [_ Hws'] & _).
  apply app_inj_1 in E as [_ E];
    [|by rewrite (spells_length _ _ Hkw), (spells_length _ _ Hkw')].
  by rewrite <- (trim_blank ws v1), E, trim_blank.
Qed.

Lemma long_form_unique text v1 v2 :
  long_form setting_name text v1 → long_form setting_name text v2 →
  trim v1 = trim v2.
Proof.
  intros (kw & ws1 & n & ws2 & -> & Hkw & [_ Hws1] & Hn & Hws2 & _)
         (kw' & ws1' & n' & ws2' & E & Hkw' & [_ Hws1'] & Hn' & Hws2' & _).
  apply app_inj_1 in E as [_ E];
    [|by rewrite (spells_length _ _ Hkw), (spells_length _ _ Hkw')].
  apply (span_unique is_space) in E as [_ E];
    [|done|done|apply (setting_name_head _ Hn)
     |apply (setting_name_head _ Hn')].
  apply setting_name_unique in E;
    [|done|done|by apply blank_head|by apply blank_head].
  destruct Hws2 as [_ Hws2], Hws2' as [_ Hws2'].
  by rewrite <- (trim_blank ws2 v1), E, trim_blank.
Qed.

Lemma short_not_long names text v1 v2 :
  short_form text v1 → long_form names text v2 → False.
Proof.
  intros (kw & ws & -> & Hkw & _) (kw' & ws1 & n & ws2 & E & Hkw' & _).
  unfold spells in Hkw, Hkw'.
  apply Forall2_cons_inv_r in Hkw as (c & ? & Hc & _ & ->).
  apply Forall2_cons_inv_r in Hkw' as (c' & ? & Hc' & _ & ->).
  simpl in E. injection E as -> _.
  destruct Hc as [->| ->], Hc' as [[=]|[=]].
Qed.

Lemma set_command_unique text v1 v2 :
  set_command setting_name text v1 → set_command setting_name text v2 →
  trim v1 = trim v2.
Proof.
  intros [H1|H1] [H2|H2].
  - by apply (short_form_unique text).
  - by destruct (short_not_long _ _ _ _ H1 H2).
  - by destruct (short_not_long _ _ _ _ H2 H1).
  - by apply (long_form_unique text).
Qed.

End GrammarProperties.

Section CommandClaims.
Import RegExp CommandSpec WorkingDirectoryManager.

(** C9 (as the code has it).  [parseSetCommand] accepts exactly the short
    form [cwd <value>] and the long form
    [set (cwd|dir|directory|working[- ]?directory) <value>] (the words in
    either case, separated by white space, the value a non-empty rest of
    line): it returns the trimmed value for such a text, and [null] for
    every other text. *)
Theorem C9_parseSetCommand_accepts_the_grammar (text : jsstring) :
  (∀ v, parseSetCommand text = Some v
        ↔ ∃ value, set_command setting_name text value ∧ v = trim value)
  ∧ (parseSetCommand text = None
     ↔ ¬ ∃ value, set_command setting_name text value).
Proof.
  assert (Hiff : ∀ v, parseSetCommand text = Some v
                      ↔ ∃ value, set_command setting_name text value
                                 ∧ v = trim value).
  { intros v. split; [apply parseSetCommand_sound|].
    intros (value & Hcmd & ->).
    destruct (parseSetCommand_complete _ _ Hcmd) as [v' Hv'].
    rewrite Hv'. f_equal.
    apply parseSetCommand_sound in Hv' as (value' & Hcmd' & ->).
    by apply (set_command_unique text). }
  split; [exact Hiff|]. split.
  - intros Hnone (value & Hcmd).
    destruct (parseSetCommand_complete _ _ Hcmd) as [v Hv]. congruence.
  - intros Hno. destruct (parseSetCommand text) as [v|] eqn:Hv; [|done].
    exfalso. apply Hno.
    apply parseSetCommand_sound in Hv as (value & Hcmd & _). eauto.
Qed.

(** C9 as stated lists [working[- ]directory], with a hyphen or a space:
    the code also takes the two words written as one. *)
Lemma C9_joined_name_is_accepted :
  parseSetCommand (lit "set workingdirectory /tmp") = Some (lit "/tmp")
  ∧ ¬ ∃ value,
        set_command listed_name (lit "set workingdirectory /tmp") value.
Proof.
  split; [vm_compute; reflexivity|]. intros (value & [Hs|Hl]).
  - apply short_form_match in Hs as [cap Hs]. vm_compute in Hs. done.
  - apply (long_form_match _ _ _ walks_listed_names) in Hl as [cap Hl].
    vm_compute in Hl. done.
Qed.

(** The cases the specification gives. *)
Example parse_cwd :
  parseSetCommand (lit "cwd /tmp/x") = Some (lit "/tmp/x").
Proof. vm_compute. reflexivity. Qed.

Example parse_hello : parseSetCommand (lit "hello") = None.
Proof. vm_compute. reflexivity. Qed.

Example parse_long :
  parseSetCommand (lit "SET Working-Directory   /tmp/x y  ")
  = Some (lit "/tmp/x y").
Proof. vm_compute. reflexivity. Qed.

End CommandClaims.

(* ================================================================== *)
(** * Further properties of ClaudeHandler *)
(* ================================================================== *)

Section SessionRegistry.
Import ClaudeHandler SessionSpec.

(** [createSession] then [getSession] with the same user, channel and
    thread gives the object just created: a new object, active, last
    active now, with no session identifier, whatever record the key held
    before.  No object that existed is changed, and no other key of the
    map is. *)
Theorem createSession_then_getSession
    (now : Z) (h : handler) (userId channelId : jsstring)
    (threadTs : option jsstring) :
  let r := createSession now h userId channelId threadTs in
  getSession r.2 userId channelId threadTs = Some r.1
  ∧ heap r.2 !! r.1
    = Some {| userId := userId; channelId := channelId;
              threadTs := threadTs; sessionId := None; isActive := true;
              lastActivity := now |}
  ∧ heap h !! r.1 = None
  ∧ (∀ l, l ≠ r.1 → heap r.2 !! l = heap h !! l)
  ∧ (∀ userId' channelId' threadTs',
       getSessionKey userId' channelId' threadTs'
         ≠ getSessionKey userId channelId threadTs →
       getSession r.2 userId' channelId' threadTs'
       = getSession h userId' channelId' threadTs').
Proof.
  simpl. unfold getSession. simpl.
  split; [by rewrite lookup_insert_eq|].
  split; [by rewrite lookup_insert_eq|].
  split; [apply not_elem_of_dom, is_fresh|].
  split.
  - intros l Hl. by rewrite lookup_insert_ne.
  - intros u' c' t' Hk. by rewrite lookup_insert_ne.
Qed.

(** The session key does not tell conversations apart in every case: no
    thread, the empty thread and the thread named [direct] share a key, and
    a hyphen can be read as part of the user or of the channel. *)
Theorem getSessionKey_collisions (userId channelId x : jsstring)
    (threadTs : option jsstring) :
  getSessionKey userId channelId None
    = getSessionKey userId channelId (Some (lit "direct"))
  ∧ getSessionKey userId channelId (Some [])
    = getSessionKey userId channelId None
  ∧ getSessionKey (userId ++ lit "-" ++ x) channelId threadTs
    = getSessionKey userId (x ++ lit "-" ++ channelId) threadTs.
Proof.
  unfold getSessionKey. split; [done|]. split; [done|].
  by rewrite <- !app_assoc.
Qed.

(** A session created at time [t0] and swept at time [now] is still found
    when [now - t0 ≤ maxAge], and is gone when [now - t0 > maxAge]:
    nothing in the handler refreshes [lastActivity]. *)
Theorem created_session_lifetime
    (t0 now maxAge : Z) (h : handler) (userId channelId : jsstring)
    (threadTs : option jsstring) :
  let created := createSession t0 h userId channelId threadTs in
  let swept := (cleanupInactiveSessions now maxAge created.2).1.1 in
  getSession swept userId channelId threadTs
  = if decide (now - t0 > maxAge) then None else Some created.1.
Proof.
  intros created swept. unfold swept, cleanupInactiveSessions.
  destruct created.2 as [hp ss] eqn:Hc. rewrite sweep_loop_spec.
  unfold getSession. simpl.
  assert (Hss : ss !! getSessionKey userId channelId threadTs
                = Some created.1).
  { unfold created, createSession in *. simpl in *.
    injection Hc as <- <-. by rewrite lookup_insert_eq. }
  assert (Hhp : hp !! created.1
                = Some {| userId := userId; channelId := channelId;
                          threadTs := threadTs; sessionId := None;
                          isActive := true; lastActivity := t0 |}).
  { unfold created, createSession in *. simpl in *.
    injection Hc as <- <-. by rewrite lookup_insert_eq. }
  rewrite map_lookup_filter, Hss. simpl.
  destruct (decide (now - t0 > maxAge)) as [Hold|Hyoung].
  - rewrite option_guard_False; [done|]. intros Hn. apply Hn.
    eexists. split; [exact Hhp|done].
  - rewrite option_guard_True; [done|].
    intros (s & Hs & Hgt).
    pose proof (eq_trans (eq_sym Hhp) Hs) as [= <-]. done.
Qed.

End SessionRegistry.

Section ArgumentList.
Import ClaudeHandler SessionSpec ArgumentSpec.

Variable getServerConfiguration : option servers.
Variable getDefaultAllowedTools : list jsstring.
Variable stringify_mcp_config : servers → jsstring.
Variable stringify_context : SlackContext → jsstring.
Variable process_cwd : jsstring.
Variable SLACK_BOT_TOKEN : jsstring.

Local Abbreviation args :=
  (build_args getServerConfiguration getDefaultAllowedTools
     stringify_mcp_config stringify_context process_cwd SLACK_BOT_TOKEN).

(** Without caller context and without configured servers the argument
    list has no [--mcp-config] and no [--allowedTools], also when the
    default list of allowed tools is not empty: the fixed flags, the
    [--cwd] pair if any, the bypass permission mode, the resume pair if
    any, the prompt. *)
Theorem args_without_servers
    (hp : gmap loc ConversationSession) (prompt : jsstring)
    (session : option loc) (workingDirectory : option jsstring) :
  default [] getServerConfiguration = [] →
  args hp prompt session workingDirectory None
  = fixed_flags ++ cwd_flags workingDirectory
    ++ [str "--permission-mode"; str "bypassPermissions"]
    ++ resume_args hp session ++ [VString prompt].
Proof.
  intros Hnone. unfold build_args, fixed_flags, cwd_flags. rewrite Hnone.
  simpl. destruct workingDirectory as [wd|]; [|done].
  destruct (truthy wd); [|done]. by rewrite <- !app_assoc.
Qed.

(** [{...o, [k]: v}] on an object with distinct keys: the keys stay
    distinct, [k] holds [v] and nothing else, every other entry is as it
    was, in the order it had. *)
Theorem spread_set_replaces (o : servers) (k : jsstring) (v : McpServerConfig) :
  NoDup o.*1 →
  NoDup (spread_set o k v).*1
  ∧ (∀ v', (k, v') ∈ spread_set o k v ↔ v' = v)
  ∧ (∀ k' v', k' ≠ k → (k', v') ∈ spread_set o k v ↔ (k', v') ∈ o)
  ∧ (spread_set o k v).*1 = (if decide (k ∈ o.*1) then o.*1 else o.*1 ++ [k]).
Proof.
  induction o as [|[k0 v0] o IH]; intros Hnd.
  - simpl. split; [apply NoDup_singleton|]. split.
    + intros v'. rewrite list_elem_of_singleton. split; congruence.
    + split; [|done]. intros k' v' Hk. rewrite list_elem_of_singleton.
      rewrite elem_of_nil. split; [congruence|done].
  - rewrite fmap_cons in Hnd. apply NoDup_cons in Hnd as [Hk0 Hnd].
    destruct (IH Hnd) as (IH1 & IH2 & IH3 & IH4). simpl.
    destruct (decide (k0 = k)) as [->|Hne].
    + split; [by apply NoDup_cons|]. split; [|split].
      * intros v'. rewrite elem_of_cons. split.
        -- intros [[= ->]|Hin]; [done|]. exfalso. apply Hk0.
           apply list_elem_of_fmap. by exists (k, v').
        -- intros ->. by left.
      * intros k' v' Hk. rewrite !elem_of_cons. split.
        -- intros [[= -> _]|?]; [done|by right].
        -- intros [[= -> _]|?]; [done|by right].
      * rewrite decide_True by (simpl; left). done.
    + split; [|split; [|split]].
      * rewrite fmap_cons. apply NoDup_cons. split; [|done]. simpl.
        rewrite IH4. destruct (decide (k ∈ o.*1)); [done|].
        rewrite elem_of_app, list_elem_of_singleton. intros [?|?]; done.
      * intros v'. rewrite elem_of_cons, <- IH2. split.
        -- intros [[= ? _]|?]; done.
        -- intros ?. by right.
      * intros k' v' Hk. rewrite !elem_of_cons. by rewrite IH3.
      * rewrite fmap_cons, IH4. simpl.
        destruct (decide (k ∈ o.*1)) as [Hin|Hnin].
        -- rewrite decide_True by (by right). done.
        -- rewrite decide_False; [done|].
           rewrite elem_of_cons. intros [?|?]; done.
Qed.

(** With caller context the argument list always has [--mcp-config], over
    the configured servers with the permission server put under its name,
    and [--allowedTools], over the default tools followed by the
    permission tool; the permission mode is [default]. *)
Theorem args_with_context
    (hp : gmap loc ConversationSession) (prompt : jsstring)
    (session : option loc) (workingDirectory : option jsstring)
    (ctx : SlackContext) :
  args hp prompt session workingDirectory (Some ctx)
  = fixed_flags ++ cwd_flags workingDirectory
    ++ [str "--permission-mode"; str "default";
        str "--permission-prompt-tool-name";
        str "mcp__permission-prompt__permission_prompt";
        str "--mcp-config";
        VString
          (stringify_mcp_config
             (spread_set (default [] getServerConfiguration)
                (lit "permission-prompt")
                (permissionServer stringify_context process_cwd
                   SLACK_BOT_TOKEN ctx)));
        str "--allowedTools"]
    ++ (VString <$> getDefaultAllowedTools)
    ++ [str "mcp__permission-prompt"]
    ++ resume_args hp session ++ [VString prompt].
Proof.
  unfold build_args, fixed_flags, cwd_flags.
  assert (Hlen : ∀ o k v, (0 <? length (spread_set o k v))%nat = true).
  { intros o k v. destruct o as [|[k0 v0] o]; simpl; [done|].
    by destruct (decide (k0 = k)). }
  rewrite Hlen.
  assert (Htools : (0 <? length (getDefaultAllowedTools
                                   ++ [lit "mcp__permission-prompt"]))%nat
                   = true).
  { rewrite length_app. simpl. apply Nat.ltb_lt. lia. }
  rewrite Htools, fmap_app.
  change (VString <$> [lit "mcp__permission-prompt"])
    with [str "mcp__permission-prompt"].
  destruct workingDirectory as [wd|]; [destruct (truthy wd)|];
    simpl; rewrite <- ?app_assoc; simpl; by rewrite <- ?app_assoc.
Qed.

End ArgumentList.

Section ArgumentSamples.
Import ClaudeHandler SessionSpec ArgumentSpec.

(** [args_without_servers] with tools configured and no server. *)
Lemma args_without_servers_witness :
  default [] (@None servers) = []
  ∧ build_args None [lit "mcp__files"] (λ _, []) (λ _, []) (lit "/srv")
      (lit "xoxb") ∅ (lit "hello") None (Some (lit "/tmp")) None
    = [str "--print"; str "--output-format"; str "stream-json";
       str "--verbose"; str "--cwd"; str "/tmp"; str "--permission-mode";
       str "bypassPermissions"; str "hello"].
Proof.
  split; [reflexivity|].
  apply (args_without_servers None [lit "mcp__files"] (λ _, []) (λ _, [])
           (lit "/srv") (lit "xoxb") ∅ (lit "hello") None
           (Some (lit "/tmp")) eq_refl).
Defined.

(** [spread_set_replaces] on a configuration that already has a server
    under the name of the synthesized one. *)
Lemma spread_set_replaces_witness :
  NoDup external_servers.*1
  ∧ (spread_set external_servers (lit "permission-prompt")
       {| command := lit "npx"; server_args := []; env := [] |}).*1
    = [lit "files"; lit "permission-prompt"].
Proof.
  assert (Hnd : NoDup external_servers.*1).
  { apply NoDup_cons. split; [|apply NoDup_singleton].
    rewrite list_elem_of_singleton. discriminate. }
  split; [exact Hnd|].
  destruct (spread_set_replaces external_servers (lit "permission-prompt")
              {| command := lit "npx"; server_args := []; env := [] |} Hnd)
    as (_ & _ & _ & Hkeys).
  rewrite Hkeys. reflexivity.
Defined.

End ArgumentSamples.

Section StreamExtras.
Import ClaudeHandler SessionSpec ArgumentSpec.

Variable JSON_parse : jsstring → option value.

(** How a run over a subprocess that started goes.  The consumer receives
    the decoded messages, in order.  Then, if the [close] event of the
    subprocess was emitted while the generator was suspended at a
    [yield], nothing more comes; if not, the iteration ends normally for
    the code 0 and for no code ([null], as after a kill), and with the
    error [Claude CLI exited with code c] for any other code [c].
    Without a session object no session object is changed. *)
Theorem streamQuery_outcome
    (p : subprocess) (session : option loc)
    (hp : gmap loc ConversationSession) :
  let ms := delivered JSON_parse (stdout p) in
  ∃ r hp',
    consume JSON_parse (S (length (stdout p))) (start p session) hp
    = Some (ms, r, hp')
    ∧ (session = None → hp' = hp)
    ∧ (closes_unheard p (length ms) → r = Pending)
    ∧ (¬ closes_unheard p (length ms) →
       match exit_code p with
       | None => r = Done
       | Some c =>
           if decide (c = 0) then r = Done
           else r = Raised (ExitedWithCode c)
       end).
Proof.
  intros ms. eexists _, _. split; [apply consume_start|]. fold ms.
  split; [intros ->; apply heap_after_None|]. split.
  - intros Hearly. by rewrite decide_True.
  - intros Hheard. rewrite decide_False by done.
    unfold on_close. destruct (exit_code p) as [c|]; [|done].
    destruct (decide (c = 0)) as [->|Hc]; [done|].
    by apply Z.eqb_neq in Hc as ->.
Qed.

(** The messages handed to the consumer are the values [JSON.parse] gave
    for lines of the output, in the order of the lines: none is made up,
    changed or moved. *)
Theorem delivered_in_line_order
    (p : subprocess) (session : option loc)
    (hp : gmap loc ConversationSession) :
  ∃ ms r hp',
    consume JSON_parse (S (length (stdout p))) (start p session) hp
    = Some (ms, r, hp')
    ∧ (Some <$> ms) `sublist_of` (JSON_parse <$> stdout p).
Proof.
  eexists _, _, _. split; [apply consume_start|].
  unfold delivered. induction (stdout p) as [|l lines IH]; [done|].
  simpl. unfold decode at 1, parse_message. destruct (truthy (trim l)).
  - destruct (JSON_parse l) as [m|]; simpl.
    + destruct m; simpl;
        solve [by apply sublist_skip | by apply sublist_cons].
    + by apply sublist_cons.
  - by apply sublist_cons.
Qed.

(** A query whose subprocess does not start delivers nothing.  When
    [spawn] throws, the first [next()] raises its error; when the
    subprocess emits [error], the listener throws outside the generator
    and no error reaches the consumer. *)
Example spawn_failures (message : jsstring) (session : option loc)
    (hp : gmap loc ConversationSession) :
  consume JSON_parse 1 (streamQuery (NoChild (Thrown message)) session) hp
  = Some ([], Raised (SpawnThrew message), hp)
  ∧ consume JSON_parse 1 (streamQuery (NoChild (Emitted message)) session) hp
    = Some ([], Uncaught (FailedToSpawn message), hp).
Proof. done. Qed.

End StreamExtras.

Section StreamSamples.
Import ClaudeHandler SessionSpec ArgumentSpec.

(** [streamQuery_outcome] on a subprocess that ends with code 1 after the
    generator has read its one line. *)
Lemma streamQuery_outcome_witness :
  ¬ closes_unheard late_exit
      (length (delivered sample_parse (stdout late_exit)))
  ∧ consume sample_parse 2 (start late_exit None) ∅
    = Some ([assistant_message], Raised (ExitedWithCode 1), ∅).
Proof.
  assert (Hheard : ¬ closes_unheard late_exit
                       (length (delivered sample_parse (stdout late_exit))))
    by (intros (i & Hi & _); discriminate Hi).
  split; [exact Hheard|].
  destruct (streamQuery_outcome sample_parse late_exit None ∅)
    as (r & hp' & Hc & Hhp & _ & Hr).
  specialize (Hr Hheard). simpl in Hr. subst r.
  rewrite (Hhp eq_refl) in Hc. exact Hc.
Defined.

End StreamSamples.

Section BlankLines.
Import ClaudeHandler SessionSpec ArgumentSpec.

(** A line of white space only is never given to [JSON.parse]: two parsers
    that agree on the other lines give the same run. *)
Theorem blank_lines_are_not_parsed
    (parse1 parse2 : jsstring → option value)
    (p : subprocess) (session : option loc)
    (hp : gmap loc ConversationSession) :
  (∀ line, trim line ≠ [] → parse1 line = parse2 line) →
  consume parse1 (S (length (stdout p))) (start p session) hp
  = consume parse2 (S (length (stdout p))) (start p session) hp.
Proof.
  intros Hagree. rewrite !consume_start.
  enough (delivered parse1 (stdout p) = delivered parse2 (stdout p)) as ->
    by done.
  unfold delivered. induction (stdout p) as [|l lines IH]; [done|].
  cbn [omap list_omap]. rewrite IH.
  enough (decode parse1 l = decode parse2 l) as -> by done.
  unfold decode, parse_message. destruct (trim l) eqn:Ht; [done|]. simpl.
  rewrite Hagree; [done|]. by rewrite Ht.
Qed.

(** [blank_lines_are_not_parsed] on an output with an empty line and a
    line of spaces, with a parser that would answer on them. *)
Lemma blank_lines_are_not_parsed_witness :
  (∀ line, trim line ≠ [] → sample_parse line = eager_parse sample_parse line)
  ∧ ∃ r hp',
      consume (eager_parse sample_parse) 4
        (start {| stdout := [[]; render assistant_fields; lit "  "];
                  exit_code := Some 0; closed_early := None |} None) ∅
      = Some ([assistant_message], r, hp').
Proof.
  assert (Hagree : ∀ line, trim line ≠ [] →
                           sample_parse line = eager_parse sample_parse line).
  { intros line Hl. unfold eager_parse. by destruct (trim line). }
  split; [exact Hagree|].
  rewrite <- (blank_lines_are_not_parsed sample_parse
                (eager_parse sample_parse)
                {| stdout := [[]; render assistant_fields; lit "  "];
                   exit_code := Some 0; closed_early := None |}
                None ∅ Hagree).
  eexists _, _. vm_compute. reflexivity.
Defined.

End BlankLines.

(* ================================================================== *)
(** * Further properties of WorkingDirectoryManager *)
(* ================================================================== *)

Section StoreOperations.
Import WorkingDirectoryManager DirectorySpec StoreSpec.

Variable baseDirectory : jsstring.
Variable process_cwd : jsstring.
Variable existsSync : jsstring → bool.
Variable statSync_isDirectory : jsstring → option bool.

Local Abbreviation resolveDirectory' :=
  (resolveDirectory baseDirectory process_cwd existsSync).
Local Abbreviation setWorkingDirectory' :=
  (setWorkingDirectory baseDirectory process_cwd existsSync
     statSync_isDirectory).

Lemma configs_scheduleSave w : configs (scheduleSave w) = configs w.
Proof. unfold scheduleSave. simpl. by destruct (saveTimer w). Qed.

Lemma getConfigKey_thread_any channelId threadTs userId userId' :
  truthy_opt threadTs = true →
  getConfigKey channelId threadTs userId
  = getConfigKey channelId threadTs userId'.
Proof. intros Ht. unfold getConfigKey. by rewrite Ht. Qed.

(** What a successful [setWorkingDirectory] did. *)
Lemma setWorkingDirectory_success channelId directory threadTs userId w
    result w' :
  setWorkingDirectory' channelId directory threadTs userId w
  = (Returns result, w') →
  success result = true →
  ∃ resolved,
    resolveDirectory' directory = Some resolved
    ∧ statSync_isDirectory resolved = Some true
    ∧ resolvedPath result = Some resolved
    ∧ configs w'
      = <[getConfigKey channelId threadTs userId :=
            {| channelId := Some (VString channelId);
               threadTs := VString <$> threadTs;
               userId := VString <$> userId; directory := resolved;
               setAt := Some (now w) |}]> (configs w).
Proof.
  intros Hcall Hs.
  destruct (setWorkingDirectory_cases baseDirectory process_cwd existsSync
              statSync_isDirectory channelId directory threadTs userId w)
    as [(message & Hm & _)|(resolved & Hr & Hd & Hm)];
    rewrite Hm in Hcall; injection Hcall as <- <-; [done|].
  exists resolved. by rewrite configs_scheduleSave.
Qed.

(** After a successful [setWorkingDirectory], [getWorkingDirectory] with
    the same channel, thread and user returns the path the call reported,
    and that path is one [statSync] calls a directory. *)
Theorem set_then_get
    (channelId directory : jsstring) (threadTs userId : option jsstring)
    (w w' : world) (result : set_result) :
  setWorkingDirectory' channelId directory threadTs userId w
  = (Returns result, w') →
  success result = true →
  ∃ resolved,
    resolvedPath result = Some resolved
    ∧ getWorkingDirectory w' channelId threadTs userId = Some resolved
    ∧ statSync_isDirectory resolved = Some true.
Proof.
  intros Hcall Hs.
  destruct (setWorkingDirectory_success _ _ _ _ _ _ _ Hcall Hs)
    as (resolved & _ & Hd & Hp & Hc).
  exists resolved. split; [done|]. split; [|done].
  unfold getWorkingDirectory. rewrite Hc.
  destruct (truthy_opt threadTs) eqn:Ht.
  - rewrite (getConfigKey_thread_any channelId threadTs None userId Ht).
    by rewrite lookup_insert_eq.
  - rewrite (getConfigKey_no_thread channelId threadTs userId Ht).
    rewrite (getConfigKey_no_thread channelId None userId eq_refl).
    by rewrite lookup_insert_eq.
Qed.

Lemma thread_key_not_channel_key channelId t userId :
  userId ≠ Some t → thread_key channelId t ≠ channel_or_dm_key channelId userId.
Proof.
  intros Hu. unfold thread_key, channel_or_dm_key.
  assert (Hlen : ∀ x : jsstring, channelId ++ lit "-" ++ x ≠ channelId).
  { intros x E. apply (f_equal length) in E. rewrite length_app in E.
    simpl in E. lia. }
  destruct userId as [u|]; [|apply Hlen].
  destruct (truthy u && startsWith (lit "D") channelId); [|apply Hlen].
  intros E. apply app_inv_head in E. apply app_inv_head in E. congruence.
Qed.

(** A directory set for a thread does not change what the channel, or the
    direct-message conversation, resolves to (the thread id being no user
    id). *)
Theorem thread_set_keeps_channel_lookup
    (channelId directory t : jsstring) (userId : option jsstring)
    (w w' : world) (result : set_result) :
  t ≠ [] → userId ≠ Some t →
  setWorkingDirectory' channelId directory (Some t) userId w
  = (Returns result, w') →
  getWorkingDirectory w' channelId None userId
  = getWorkingDirectory w channelId None userId.
Proof.
  intros Ht Hu Hcall.
  destruct (success result) eqn:Hs.
  - destruct (setWorkingDirectory_success _ _ _ _ _ _ _ Hcall Hs)
      as (resolved & _ & _ & _ & Hc).
    rewrite !getWorkingDirectory_fallback by (by left). rewrite Hc.
    rewrite getConfigKey_thread by done.
    rewrite lookup_insert_ne; [done|]. by apply thread_key_not_channel_key.
  - destruct (setWorkingDirectory_cases baseDirectory process_cwd existsSync
                statSync_isDirectory channelId directory (Some t) userId w)
      as [(message & Hm & _)|(resolved & _ & _ & Hm)];
      rewrite Hm in Hcall; injection Hcall as <- <-; done.
Qed.

(** [removeWorkingDirectory] after a successful [setWorkingDirectory] for
    a thread reports [true], and the thread then resolves to what the
    channel resolved to before. *)
Theorem remove_thread_restores_channel
    (channelId directory t : jsstring) (userId : option jsstring)
    (w w' : world) (result : set_result) :
  t ≠ [] → userId ≠ Some t →
  setWorkingDirectory' channelId directory (Some t) userId w
  = (Returns result, w') →
  success result = true →
  let removed := removeWorkingDirectory channelId (Some t) userId w' in
  removed.1 = true
  ∧ getWorkingDirectory removed.2 channelId (Some t) userId
    = getWorkingDirectory w channelId None userId.
Proof.
  intros Ht Hu Hcall Hs.
  destruct (setWorkingDirectory_success _ _ _ _ _ _ _ Hcall Hs)
    as (resolved & _ & _ & _ & Hc).
  unfold removeWorkingDirectory. rewrite Hc, lookup_insert_eq.
  cbn [fst snd]. split; [done|].
  rewrite !getWorkingDirectory_fallback.
  - rewrite configs_scheduleSave. simpl.
    rewrite getConfigKey_thread by done.
    rewrite lookup_delete_ne by (by apply thread_key_not_channel_key).
    rewrite lookup_insert_ne by (by apply thread_key_not_channel_key).
    done.
  - by left.
  - right. rewrite configs_scheduleSave. simpl.
    rewrite getConfigKey_thread by done. apply lookup_delete_eq.
Qed.

End StoreOperations.

Section RemoveProperties.
Import WorkingDirectoryManager DirectorySpec StoreSpec.

(** [removeWorkingDirectory] of a key that is not in the map reports
    [false] and leaves the world as it is, no save scheduled; so does the
    second of two removals in a row. *)
Theorem remove_absent_is_noop
    (channelId : jsstring) (threadTs userId : option jsstring) (w : world) :
  (configs w !! getConfigKey channelId threadTs userId = None →
   removeWorkingDirectory channelId threadTs userId w = (false, w))
  ∧ let once := (removeWorkingDirectory channelId threadTs userId w).2 in
    removeWorkingDirectory channelId threadTs userId once = (false, once).
Proof.
  assert (Habsent : ∀ w0,
            configs w0 !! getConfigKey channelId threadTs userId = None →
            removeWorkingDirectory channelId threadTs userId w0 = (false, w0)).
  { intros w0 Hk. unfold removeWorkingDirectory. by rewrite Hk. }
  split; [apply Habsent|]. intros once. apply Habsent.
  unfold once, removeWorkingDirectory.
  destruct (configs w !! _) eqn:Hk; [|done]. simpl.
  unfold scheduleSave. simpl.
  destruct (saveTimer w); simpl; apply lookup_delete_eq.
Qed.

(** The keys of different conversations can coincide: in a direct-message
    channel the thread [x] and the user [x] share a key, and the thread
    [t] of channel [c] has the key of the channel named [c-t]. *)
Theorem getConfigKey_collisions (channelId x : jsstring) :
  x ≠ [] →
  (startsWith (lit "D") channelId = true →
   getConfigKey channelId (Some x) None
   = getConfigKey channelId None (Some x))
  ∧ getConfigKey channelId (Some x) None
    = getConfigKey (channelId ++ lit "-" ++ x) None None.
Proof.
  intros Hx. unfold getConfigKey. destruct x as [|a x]; [done|]. simpl.
  split; [by intros ->|done].
Qed.

End RemoveProperties.

Section StoreOperationSamples.
Import WorkingDirectoryManager DirectorySpec StoreSpec.

Local Abbreviation set_sample :=
  (setWorkingDirectory [] (lit "/home/bot") sample_exists sample_stat).

(** The sample manager after [/tmp/] is set for thread 17.5 of C1. *)
Lemma sample_thread_set :
  ∃ result w',
    set_sample (lit "C1") (lit "/tmp/") (Some (lit "17.5")) None sample_world
    = (Returns result, w')
    ∧ success result = true ∧ resolvedPath result = Some (lit "/tmp").
Proof.
  destruct (set_sample (lit "C1") (lit "/tmp/") (Some (lit "17.5")) None
              sample_world) as [c w'] eqn:Hcall.
  assert (Hc : c = Returns {| success := true;
                              resolvedPath := Some (lit "/tmp");
                              error := None |}).
  { apply (f_equal fst) in Hcall. vm_compute in Hcall. by subst c. }
  subst c. by eexists _, _.
Qed.

(** [set_then_get] on the sample manager. *)
Lemma set_then_get_witness :
  ∃ result w',
    set_sample (lit "C1") (lit "/tmp/") (Some (lit "17.5")) None sample_world
    = (Returns result, w')
    ∧ success result = true
    ∧ getWorkingDirectory w' (lit "C1") (Some (lit "17.5")) None
      = Some (lit "/tmp").
Proof.
  destruct sample_thread_set as (result & w' & Hcall & Hs & Hp).
  exists result, w'. split; [exact Hcall|]. split; [exact Hs|].
  destruct (set_then_get [] (lit "/home/bot") sample_exists sample_stat
              _ _ _ _ _ _ _ Hcall Hs) as (resolved & Hp' & Hg & _).
  rewrite Hg. rewrite <- Hp', Hp. reflexivity.
Defined.

(** [thread_set_keeps_channel_lookup] on the sample manager. *)
Lemma thread_set_keeps_channel_lookup_witness :
  lit "17.5" ≠ [] ∧ @None jsstring ≠ Some (lit "17.5")
  ∧ ∃ result w',
      set_sample (lit "C1") (lit "/tmp/") (Some (lit "17.5")) None
        sample_world
      = (Returns result, w')
      ∧ getWorkingDirectory w' (lit "C1") None None
        = Some (lit "/srv/channel").
Proof.
  split; [discriminate|]. split; [discriminate|].
  destruct sample_thread_set as (result & w' & Hcall & _ & _).
  exists result, w'. split; [exact Hcall|].
  assert (Ht : lit "17.5" ≠ []) by discriminate.
  assert (Hu : @None jsstring ≠ Some (lit "17.5")) by discriminate.
  rewrite (thread_set_keeps_channel_lookup [] (lit "/home/bot")
             sample_exists sample_stat _ _ _ _ _ _ _ Ht Hu Hcall).
  vm_compute. reflexivity.
Defined.

(** [remove_thread_restores_channel] on the sample manager. *)
Lemma remove_thread_restores_channel_witness :
  ∃ result w',
    set_sample (lit "C1") (lit "/tmp/") (Some (lit "17.5")) None sample_world
    = (Returns result, w')
    ∧ success result = true
    ∧ getWorkingDirectory
        (removeWorkingDirectory (lit "C1") (Some (lit "17.5")) None w').2
        (lit "C1") (Some (lit "17.5")) None
      = Some (lit "/srv/channel").
Proof.
  destruct sample_thread_set as (result & w' & Hcall & Hs & _).
  exists result, w'. split; [exact Hcall|]. split; [exact Hs|].
  assert (Ht : lit "17.5" ≠ []) by discriminate.
  assert (Hu : @None jsstring ≠ Some (lit "17.5")) by discriminate.
  destruct (remove_thread_restores_channel [] (lit "/home/bot")
              sample_exists sample_stat _ _ _ _ _ _ _ Ht Hu Hcall Hs)
    as [_ Hg].
  rewrite Hg. vm_compute. reflexivity.
Defined.

(** [getConfigKey_collisions] in the direct-message channel D1. *)
Lemma getConfigKey_collisions_witness :
  lit "U7" ≠ []
  ∧ getConfigKey (lit "D1") (Some (lit "U7")) None
    = getConfigKey (lit "D1") None (Some (lit "U7"))
  ∧ getConfigKey (lit "D1") (Some (lit "U7")) None
    = getConfigKey (lit "D1-U7") None None.
Proof.
  split; [discriminate|].
  assert (Hx : lit "U7" ≠ []) by discriminate.
  destruct (getConfigKey_collisions (lit "D1") (lit "U7") Hx) as [H1 H2].
  split; [by apply H1 | exact H2].
Defined.

End StoreOperationSamples.

Section Persistence.
Import WorkingDirectoryManager DirectorySpec StoreSpec.

Variable existsSync : jsstring → bool.
Variable JSON_parse : jsstring → option value.
Variable Date_of : option value → option Z.

Local Abbreviation new' := (new existsSync JSON_parse Date_of).
Local Abbreviation load_entries' := (load_entries existsSync Date_of).
Local Abbreviation loads' := (loads existsSync Date_of).

(** [loadFromDisk] changes nothing but the map. *)
Lemma loadFromDisk_frame w :
  let w' := loadFromDisk existsSync JSON_parse Date_of w in
  saveTimer w' = saveTimer w ∧ now w' = now w ∧ timers w' = timers w
  ∧ next_timer w' = next_timer w ∧ disk w' = disk w
  ∧ written w' = written w.
Proof.
  unfold loadFromDisk. destruct (disk w) as [| |text] eqn:Hd; [done..|].
  destruct (JSON_parse text) as [data|]; [|done].
  destruct (get data "version") as [version|]; [|done].
  destruct (version_mismatch version); [done|].
  by destruct (entries _).
Qed.

Lemma readable_cons key entry es :
  entry ≠ VNull → readable ((key, entry) :: es) = (key, entry) :: readable es.
Proof. by destruct entry. Qed.

Lemma load_entries_cons key entry es c :
  entry ≠ VNull →
  load_entries' ((key, entry) :: es) c
  = match field "directory" entry with
    | Some (VString directory) =>
        if existsSync directory
        then load_entries' es
               (<[key := {| channelId := field "channelId" entry;
                            threadTs := field "threadTs" entry;
                            userId := field "userId" entry;
                            directory := directory;
                            setAt := Date_of (field "setAt" entry) |}]> c)
        else load_entries' es c
    | _ => load_entries' es c
    end.
Proof. by destruct entry. Qed.

Lemma readable_elem_of key entry es :
  (key, entry) ∈ readable es → key ∈ es.*1.
Proof.
  induction es as [|[k e] es IH]; [by intros ?%elem_of_nil|].
  assert (He : e = VNull ∨ e ≠ VNull) by (destruct e; auto).
  destruct He as [->|He]; [by intros ?%elem_of_nil|].
  rewrite readable_cons, fmap_cons by done.
  intros [[= -> ->]|Hin]%elem_of_cons; [by left|]. right. by apply IH.
Qed.

Lemma loads_functional entry config1 config2 :
  loads' entry config1 → loads' entry config2 → config1 = config2.
Proof.
  intros (Hd1 & _ & H1 & H2 & H3 & H4) (Hd2 & _ & H5 & H6 & H7 & H8).
  destruct config1, config2. simpl in *. rewrite Hd1 in Hd2.
  injection Hd2 as ->. congruence.
Qed.

(** Every configuration the loop stores has a directory that exists. *)
Lemma load_entries_exist es : ∀ c key config,
  load_entries' es c !! key = Some config →
  c !! key = Some config ∨ existsSync (directory config) = true.
Proof.
  induction es as [|[k e] es IH]; intros c key config; [by left|].
  assert (He : e = VNull ∨ e ≠ VNull) by (destruct e; auto).
  destruct He as [->|He]; [by left|].
  rewrite load_entries_cons by done.
  destruct (field "directory" e) as [[| | |d| |]|]; try apply IH.
  destruct (existsSync d) eqn:Hd; [|apply IH].
  intros [Hk|Hk]%IH; [|by right].
  apply lookup_insert_Some in Hk as [[_ <-]|[_ Hk]]; [by right|by left].
Qed.

(** What the loop stores under a key that is listed once: the entry
    listed under it, if the loop gets to it and it can be loaded. *)
Lemma load_entries_spec es : ∀ c key config,
  NoDup es.*1 →
  load_entries' es c !! key = Some config
  ↔ (∃ entry, (key, entry) ∈ readable es ∧ loads' entry config)
    ∨ ((∀ entry config', (key, entry) ∈ readable es →
                          ¬ loads' entry config')
       ∧ c !! key = Some config).
Proof.
  induction es as [|[k e] es IH]; intros c key config Hnd.
  { simpl. split.
    - intros Hc. right. split; [|done]. by intros ? ? ?%elem_of_nil.
    - intros [(? & ?%elem_of_nil & _)|[_ ?]]; done. }
  rewrite fmap_cons in Hnd. apply NoDup_cons in Hnd as [Hk Hnd].
  assert (He : e = VNull ∨ e ≠ VNull) by (destruct e; auto).
  destruct He as [->|He].
  { simpl. split.
    - intros Hc. right. split; [|done]. by intros ? ? ?%elem_of_nil.
    - intros [(? & ?%elem_of_nil & _)|[_ ?]]; done. }
  rewrite load_entries_cons, readable_cons by done.
  assert (Hfresh : ∀ entry, (k, entry) ∉ readable es).
  { intros entry Hin. apply Hk. by apply (readable_elem_of _ entry). }
  assert (Hload : (∃ d, field "directory" e = Some (VString d)
                        ∧ existsSync d = true)
                  ∨ ∀ config', ¬ loads' e config').
  { unfold loads.
    destruct (field "directory" e) as [[| | |d| |]|] eqn:Hf;
      try (right; by intros config' ([=] & _)).
    destruct (existsSync d) eqn:Hd; [left; by exists d|].
    right. intros config' (Hf' & Hx & _). injection Hf' as ->.
    by rewrite Hd in Hx. }
  destruct Hload as [(d & Hf & Hd)|Hnot].
  - rewrite Hf, Hd. rewrite IH by done.
    set (loaded := {| channelId := _ |}).
    assert (Hl : loads' e loaded) by done.
    destruct (decide (key = k)) as [->|Hne].
    + rewrite lookup_insert_eq. split.
      * intros [(entry & Hin & _)|[_ [= <-]]]; [by destruct (Hfresh entry)|].
        left. exists e. split; [by left|done].
      * intros [(entry & Hin & Hc)|[Hno _]].
        -- apply elem_of_cons in Hin as [[= ->]|Hin];
             [|by destruct (Hfresh entry)].
           right. split; [by intros entry' ? ?%Hfresh|].
           f_equal. by apply (loads_functional e).
        -- destruct (Hno e loaded); [by left|done].
    + rewrite lookup_insert_ne by done. split.
      * intros [(entry & Hin & Hc)|[Hno Hc]].
        -- left. exists entry. split; [by right|done].
        -- right. split; [|done]. intros entry config' Hin.
           apply elem_of_cons in Hin as [[= -> _]|Hin]; [done|].
           by apply Hno.
      * intros [(entry & Hin & Hc)|[Hno Hc]].
        -- apply elem_of_cons in Hin as [[= -> _]|Hin]; [done|].
           left. by exists entry.
        -- right. split; [|done]. intros entry config' Hin.
           apply Hno. by right.
  - assert (Hsame : match field "directory" e with
                    | Some (VString directory) =>
                        if existsSync directory
                        then load_entries' es
                               (<[k := {| channelId := field "channelId" e;
                                          threadTs := field "threadTs" e;
                                          userId := field "userId" e;
                                          directory := directory;
                                          setAt := Date_of (field "setAt" e)
                                       |}]> c)
                        else load_entries' es c
                    | _ => load_entries' es c
                    end = load_entries' es c).
    { destruct (field "directory" e) as [[| | |d| |]|] eqn:Hf; try done.
      destruct (existsSync d) eqn:Hd; [|done].
      destruct (Hnot {| channelId := field "channelId" e;
                        threadTs := field "threadTs" e;
                        userId := field "userId" e; directory := d;
                        setAt := Date_of (field "setAt" e) |}). done. }
    rewrite Hsame, IH by done. split.
    + intros [(entry & Hin & Hc)|[Hno Hc]].
      * left. exists entry. split; [by right|done].
      * right. split; [|done]. intros entry config' Hin.
        apply elem_of_cons in Hin as [[= _ ->]|Hin]; [apply Hnot|].
        by apply Hno.
    + intros [(entry & Hin & Hc)|[Hno Hc]].
      * apply elem_of_cons in Hin as [[= _ ->]|Hin]; [by destruct (Hnot config)|].
        left. by exists entry.
      * right. split; [|done]. intros entry config' Hin.
        apply Hno. by right.
Qed.

Lemma new_lists t text es :
  lists JSON_parse text es →
  configs (new' t (Content text)) = load_entries' es ∅.
Proof.
  intros (data & Hp & Hv & He). unfold new, loadFromDisk. simpl.
  rewrite Hp, Hv, He. unfold version_mismatch.
  by rewrite bool_decide_eq_false_2 by (by intros ?).
Qed.


(** Save, then restart: when [saveToDisk] writes a document and
    [JSON.parse] reads it back from its text, a manager constructed over
    the file holds the configurations of the map that was saved whose
    directory still exists, each as it was; but the one under the key
    [__proto__], which is lost. *)
Theorem save_then_load
    (write_succeeds : Z → bool)
    (JSON_stringify : PersistenceData → jsstring)
    (w : world) (t : Z) (data : PersistenceData) :
  snapshot (configs w) = Some data →
  write_succeeds (now w) = true →
  parses_back JSON_parse JSON_stringify Date_of data →
  ∀ key config,
    configs (new' t (disk (saveToDisk write_succeeds JSON_stringify w)))
      !! key = Some config
    ↔ key ≠ lit "__proto__"
      ∧ configs w !! key = Some config
      ∧ existsSync (directory config) = true.
Proof.
  intros Hsnap Hok (v & es & Hp & Hv & He & Hnd & Hes & Hall) key config.
  destruct (snapshot_holds _ _ Hsnap) as (Hversion & Hproto & Hholds).
  unfold saveToDisk. rewrite Hsnap, Hok. cbn [disk].
  rewrite Hversion in Hv.
  rewrite (new_lists t _ es) by (by exists v).
  rewrite load_entries_spec by done.
  assert (Hreadable : ∀ k ev, (k, ev) ∈ readable es ↔ (k, ev) ∈ es).
  { assert (Hnonnull : Forall (λ e, e.2 ≠ VNull) es).
    { apply Forall_forall. intros [k ev] Hin.
      by apply Hes in Hin as (e & _ & Hn & _). }
    clear -Hnonnull. induction Hnonnull as [|[k e] es He _ IH]; [done|].
    intros k' ev. rewrite readable_cons by done.
    by rewrite !elem_of_cons, IH. }
  split.
  - intros [(entry & Hin & Hl)|[_ ?]]; [|done].
    apply Hreadable, Hes in Hin as (e & Hk & Hback).
    assert (Hne : key ≠ lit "__proto__") by (intros ->; congruence).
    split; [done|]. specialize (Hholds key Hne). rewrite Hk in Hholds.
    destruct (configs w !! key) as [original|]; [|done].
    destruct Hl as (Hd & Hx & H1 & H2 & H3 & H4).
    destruct Hback as (_ & Hd' & H1' & H2' & H3' & H4').
    destruct Hholds as (R1 & R2 & R3 & R4 & R5 & _).
    rewrite Hd' in Hd. injection Hd as Hd.
    split; [|done]. f_equal. destruct original, config. simpl in *.
    congruence.
  - intros (Hne & Hk & Hx). left.
    specialize (Hholds key Hne). rewrite Hk in Hholds.
    destruct (directories data !! key) as [e|] eqn:He'; [|done].
    assert (Hin : key ∈ es.*1) by (apply Hall; by rewrite He').
    apply list_elem_of_fmap in Hin as ([k ev] & -> & Hin). simpl in *.
    exists ev. split; [by apply Hreadable|].
    apply Hes in Hin as (e' & Hk' & Hback).
    rewrite He' in Hk'. injection Hk' as <-.
    destruct Hback as (_ & Hd' & H1' & H2' & H3' & H4').
    destruct Hholds as (R1 & R2 & R3 & R4 & R5 & _).
    unfold loads. rewrite Hd', H1', H2', H3', H4'.
    by rewrite R1, R2, R3, R4, R5.
Qed.

End Persistence.

Section PersistenceSamples.
Import WorkingDirectoryManager DirectorySpec StoreSpec.


(** [save_then_load] on a manager that holds channel C1. *)
Lemma save_then_load_witness :
  snapshot (configs channel_world) = Some channel_data
  ∧ parses_back saved_json sample_stringify sample_date channel_data
  ∧ configs (new sample_exists saved_json sample_date 5
               (disk (saveToDisk (λ _, true) sample_stringify
                        channel_world)))
      !! lit "C1"
    = Some (sample_config "C1" None "/tmp").
Proof.
  assert (Hsnap : snapshot (configs channel_world) = Some channel_data)
    by (vm_compute; reflexivity).
  assert (Hback : parses_back saved_json sample_stringify sample_date
                    channel_data).
  { exists current_document, [(lit "C1", sample_entry "C1" "/tmp")].
    split; [reflexivity|]. split; [reflexivity|]. split; [reflexivity|].
    split; [apply NoDup_singleton|]. split.
    - intros key ev [= -> ->]%list_elem_of_singleton.
      eexists. split; [apply lookup_singleton_eq|]. by repeat split.
    - intros key [e He]. unfold channel_data in He. cbn [directories] in He.
      apply lookup_singleton_Some in He as [<- _]. by left. }
  split; [exact Hsnap|]. split; [exact Hback|].
  apply (save_then_load sample_exists saved_json sample_date (λ _, true)
           sample_stringify channel_world 5 channel_data Hsnap eq_refl
           Hback).
  split; [discriminate|]. split; [|reflexivity].
  apply lookup_singleton_eq.
Defined.

End PersistenceSamples.

Section RunInvariants.
Import WorkingDirectoryManager DirectorySpec StoreSpec.

Variable baseDirectory : jsstring.
Variable process_cwd : jsstring.
Variable existsSync : jsstring → bool.
Variable statSync_isDirectory : jsstring → option bool.
Variable write_succeeds : Z → bool.
Variable JSON_stringify : PersistenceData → jsstring.
Variable JSON_parse : jsstring → option value.
Variable Date_of : option value → option Z.

Local Abbreviation serve' :=
  (serve baseDirectory process_cwd existsSync statSync_isDirectory).
Local Abbreviation run' :=
  (run baseDirectory process_cwd existsSync statSync_isDirectory
     write_succeeds JSON_stringify).
Local Abbreviation advance' := (advance write_succeeds JSON_stringify).
Local Abbreviation saveToDisk' := (saveToDisk write_succeeds JSON_stringify).
Local Abbreviation new' := (new existsSync JSON_parse Date_of).
Local Abbreviation last_write' := (file_is_last_write JSON_stringify).
Local Abbreviation settled' := (settled JSON_stringify).

(** A request that does not change the map changes nothing. *)
Lemma serve_fails r w : (serve' r w).1 = false → (serve' r w).2 = w.
Proof.
  destruct r as [channelId directory threadTs userId
                |channelId threadTs userId]; simpl.
  - destruct (setWorkingDirectory_cases baseDirectory process_cwd existsSync
                statSync_isDirectory channelId directory threadTs userId w)
      as [(message & -> & _)|(resolved & _ & _ & ->)]; simpl; done.
  - unfold removeWorkingDirectory. by destruct (configs w !! _).
Qed.

(** A request touches neither the file nor the record of writes. *)
Lemma serve_keeps_file r w :
  disk (serve' r w).2 = disk w ∧ written (serve' r w).2 = written w.
Proof.
  destruct (serve' r w).1 eqn:Hs.
  - destruct (serve_mutates baseDirectory process_cwd existsSync
                statSync_isDirectory r w Hs) as (c & -> & _).
    unfold scheduleSave. simpl. by destruct (saveTimer w).
  - by rewrite serve_fails.
Qed.

Lemma serve_tidy r w : tidy w → tidy (serve' r w).2.
Proof.
  intros Hw. destruct (serve' r w).1 eqn:Hs.
  - destruct (serve_mutates baseDirectory process_cwd existsSync
                statSync_isDirectory r w Hs) as (c & -> & _).
    destruct (scheduleSave_rearms c w Hw) as [[(id & Ht & Hi) _] _].
    right. by eexists id, _.
  - by rewrite serve_fails.
Qed.

Lemma timers_saveToDisk w : timers (saveToDisk' w) = timers w.
Proof.
  unfold saveToDisk. destruct (snapshot _); [|done].
  by destruct (write_succeeds _).
Qed.

Lemma now_saveToDisk w : now (saveToDisk' w) = now w.
Proof.
  unfold saveToDisk. destruct (snapshot _); [|done].
  by destruct (write_succeeds _).
Qed.

Lemma configs_saveToDisk w : configs (saveToDisk' w) = configs w.
Proof.
  unfold saveToDisk. destruct (snapshot _); [|done].
  by destruct (write_succeeds _).
Qed.

(** Time passing in a tidy world: either no timer is due and only the
    clock moves, or the one timer fires, [saveToDisk] runs once, and no
    timer is left. *)
Lemma advance_tidy w T :
  tidy w →
  ((timers w = [] ∨ ∃ id d, timers w = [(id, d)] ∧ T < d)
   ∧ advance' T w = with_now (Z.max (now w) T) w)
  ∨ (∃ id d, timers w = [(id, d)] ∧ d ≤ T
     ∧ advance' T w
       = with_now (Z.max (Z.max (now w) d) T)
           (saveToDisk' (with_now (Z.max (now w) d) (clearTimeout id w)))
     ∧ timers (advance' T w) = []).
Proof.
  intros [Ht|(id & d & Ht & Hs)].
  - left. split; [by left|]. apply advance_quiet. by left.
  - destruct (decide (T < d)) as [Hlt|Hge].
    + left. split; [right; by exists id, d|].
      apply advance_quiet. right. by exists id, d.
    + right. exists id, d. split; [done|]. split; [lia|].
      unfold advance. rewrite Ht. simpl. rewrite Ht. simpl.
      rewrite (proj2 (Z.leb_le d T)) by lia.
      assert (Hc : timers (saveToDisk'
                             (with_now (Z.max (now w) d) (clearTimeout id w)))
                   = []).
      { rewrite timers_saveToDisk. simpl. rewrite Ht. simpl.
        by rewrite bool_decide_eq_true_2. }
      rewrite Hc. simpl. split; [|done].
      by rewrite now_saveToDisk.
Qed.

Lemma advance_keeps_tidy w T : tidy w → tidy (advance' T w).
Proof.
  intros Hw.
  destruct (advance_tidy w T Hw) as [[_ ->]|(id & d & _ & _ & _ & Ht)].
  - exact Hw.
  - by left.
Qed.

Lemma configs_advance w T : tidy w → configs (advance' T w) = configs w.
Proof.
  intros Hw.
  destruct (advance_tidy w T Hw) as [[_ ->]|(id & d & _ & _ & -> & _)].
  - done.
  - simpl. by rewrite configs_saveToDisk.
Qed.

Lemma new_tidy t f : tidy (new' t f).
Proof.
  left. unfold new.
  by destruct (loadFromDisk_frame existsSync JSON_parse Date_of
                 {| configs := ∅; saveTimer := None; now := t; timers := [];
                    next_timer := 0; disk := f; written := [] |})
    as (_ & _ & -> & _).
Qed.

Lemma run_tidy events : ∀ w, tidy w → tidy (run' events w).
Proof.
  induction events as [|[t r] events IH]; intros w Hw; [done|].
  simpl. apply IH, serve_tidy, advance_keeps_tidy, Hw.
Qed.

(** In every state a manager reaches, at whatever time it is looked at,
    at most one timer is armed, and it is the one [saveTimer] holds:
    timers do not pile up, whatever the requests and their timing. *)
Theorem at_most_one_timer
    (t : Z) (f : file) (events : list (Z * request)) (T : Z) :
  tidy (run' events (new' t f))
  ∧ tidy (advance' T (run' events (new' t f))).
Proof.
  assert (H : tidy (run' events (new' t f)))
    by apply run_tidy, new_tidy.
  split; [exact H | by apply advance_keeps_tidy].
Qed.

Lemma saveToDisk_last_write f w :
  last_write' f w → last_write' f (saveToDisk' w).
Proof.
  unfold file_is_last_write, saveToDisk.
  destruct (snapshot _); [|done].
  destruct (write_succeeds _); [|done]. simpl. by rewrite last_snoc.
Qed.

Lemma run_timers_last_write f fuel T : ∀ w,
  last_write' f w →
  last_write' f (run_timers write_succeeds JSON_stringify fuel T w).
Proof.
  induction fuel as [|fuel IH]; intros w Hw; [done|]. simpl.
  destruct (first_due T (timers w)) as [[id due]|]; [|done].
  apply IH, saveToDisk_last_write. exact Hw.
Qed.

Lemma run_last_write f events : ∀ w,
  last_write' f w → last_write' f (run' events w).
Proof.
  induction events as [|[t r] events IH]; intros w Hw; [done|].
  simpl. apply IH. unfold file_is_last_write.
  destruct (serve_keeps_file r (advance' t w)) as [-> ->].
  unfold advance. by apply run_timers_last_write.
Qed.

(** At every moment the persistence file is in one of two states: the
    file the manager found when it started, if no write has gone through,
    or else the text of the document of the last write that went through;
    a save that fails leaves it as it was. *)
Theorem disk_holds_last_write
    (t : Z) (f : file) (events : list (Z * request)) (T : Z) :
  file_is_last_write JSON_stringify f
    (advance' T (run' events (new' t f))).
Proof.
  unfold advance. apply run_timers_last_write, run_last_write.
  unfold file_is_last_write, new.
  by destruct (loadFromDisk_frame existsSync JSON_parse Date_of
                 {| configs := ∅; saveTimer := None; now := t; timers := [];
                    next_timer := 0; disk := f; written := [] |})
    as (_ & _ & _ & _ & -> & ->).
Qed.

Lemma serve_configs r w key config :
  configs (serve' r w).2 !! key = Some config →
  configs w !! key = Some config
  ∨ statSync_isDirectory (directory config) = Some true.
Proof.
  destruct r as [channelId directory threadTs userId
                |channelId threadTs userId]; simpl.
  - destruct (setWorkingDirectory_cases baseDirectory process_cwd existsSync
                statSync_isDirectory channelId directory threadTs userId w)
      as [(message & -> & _)|(resolved & _ & Hd & ->)];
      cbn [fst snd success]; [by left|].
    rewrite configs_scheduleSave. cbn [configs with_configs].
    intros [[_ <-]|[_ ?]]%lookup_insert_Some; [by right|by left].
  - unfold removeWorkingDirectory.
    destruct (configs w !! getConfigKey _ _ _); cbn [fst snd]; [|by left].
    rewrite configs_scheduleSave. cbn [configs with_configs].
    intros [_ ?]%lookup_delete_Some. by left.
Qed.

Lemma run_configs events : ∀ w key config,
  tidy w →
  configs (run' events w) !! key = Some config →
  configs w !! key = Some config
  ∨ statSync_isDirectory (directory config) = Some true.
Proof.
  induction events as [|[t r] events IH]; intros w key config Hw Hk;
    [by left|].
  simpl in Hk.
  apply IH in Hk as [Hk|Hk];
    [|by right|by apply serve_tidy, advance_keeps_tidy].
  apply serve_configs in Hk as [Hk|Hk]; [|by right].
  left. by rewrite configs_advance in Hk.
Qed.

Lemma new_configs_exist t f key config :
  configs (new' t f) !! key = Some config →
  existsSync (directory config) = true.
Proof.
  unfold new, loadFromDisk. simpl.
  destruct f as [| |text]; [done..|].
  destruct (JSON_parse text) as [data|]; [|done].
  destruct (get data "version") as [version|]; [|done].
  destruct (version_mismatch version); [done|].
  destruct (entries _) as [es|]; [|done]. simpl.
  by intros [?|?]%load_entries_exist.
Qed.

(** Every directory in the map of a manager, however it was reached, has
    passed a check: it was loaded from the file and existed then, or it
    was set and [statSync] called it a directory. *)
Theorem stored_directories_were_checked
    (t : Z) (f : file) (events : list (Z * request))
    (key : jsstring) (config : WorkingDirectoryConfig) :
  configs (run' events (new' t f)) !! key = Some config →
  existsSync (directory config) = true
  ∨ statSync_isDirectory (directory config) = Some true.
Proof.
  intros Hk. apply run_configs in Hk as [Hk|Hk];
    [|by right|apply new_tidy].
  left. by apply (new_configs_exist t f key).
Qed.







End RunInvariants.

Section RunSamples.
Import WorkingDirectoryManager DirectorySpec StoreSpec.

(** [stored_directories_were_checked] on the sample run: channel C2 holds
    [/tmp]. *)
Lemma stored_directories_were_checked_witness :
  ∃ config,
    configs (sample_run Missing) !! lit "C2" = Some config
    ∧ directory config = lit "/tmp"
    ∧ (sample_exists (directory config) = true
       ∨ sample_stat (directory config) = Some true).
Proof.
  assert (Hk : ∃ config, configs (sample_run Missing) !! lit "C2" = Some config
                         ∧ directory config = lit "/tmp").
  { eexists. split; vm_compute; reflexivity. }
  destruct Hk as (config & Hk & Hd). exists config.
  split; [exact Hk|]. split; [exact Hd|].
  exact (stored_directories_were_checked [] (lit "/home/bot") sample_exists
           sample_stat (λ _, true) sample_stringify sample_json sample_date
           0 Missing ((0, sample_first) :: sample_burst) (lit "C2") config
           Hk).
Defined.


End RunSamples.

Section ResolutionProperties.
Import WorkingDirectoryManager DirectorySpec StoreSpec.

Lemma split_no_slash p : Forall (λ seg, Path.SLASH ∉ seg) (Path.split p).
Proof.
  induction p as [|c p IH]; simpl.
  - apply Forall_cons. split; [apply not_elem_of_nil|apply Forall_nil_2].
  - destruct (c =? Path.SLASH)%N eqn:Hc.
    + apply Forall_cons. split; [apply not_elem_of_nil|done].
    + apply N.eqb_neq in Hc. destruct (Path.split p) as [|seg segs].
      * apply Forall_cons. split; [|done].
        rewrite elem_of_cons, elem_of_nil. intros [?|?]; done.
      * apply Forall_cons in IH as [Hs IH]. apply Forall_cons.
        split; [|done]. rewrite elem_of_cons. intros [?|?]; done.
Qed.

Lemma normalize_segments_proper segs : ∀ kept,
  Forall proper_segment kept → Forall (λ seg, Path.SLASH ∉ seg) segs →
  Forall proper_segment (fold_left (Path.normalize_segment false) segs kept).
Proof.
  induction segs as [|seg segs IH]; intros kept Hk Hs; [done|].
  apply Forall_cons in Hs as [Hseg Hs]. simpl. apply IH; [|done].
  unfold Path.normalize_segment.
  destruct (decide (seg = [] ∨ seg = [Path.DOT])) as [|Hd]; [done|].
  destruct (decide (seg = [Path.DOT; Path.DOT])) as [|Hdd].
  - destruct kept as [|top below]; [done|].
    destruct (decide _); [done|]. by apply Forall_cons in Hk as [_ Hk].
  - apply Forall_cons. split; [|done].
    split; [tauto|]. split; [tauto|]. done.
Qed.

(** [path.resolve] in a process with an absolute working directory gives
    an absolute path in normal form. *)
Lemma resolve_is_normal cwd p :
  Path.isAbsolute cwd = true → normal_absolute (Path.resolve cwd [p]).
Proof.
  intros Hcwd. unfold Path.resolve.
  assert (Hr : (fold_left Path.resolve_step (rev [p] ++ [cwd]) ([], false)).2
               = true).
  { simpl. unfold Path.resolve_step at 2. simpl.
    destruct p as [|c p]; simpl.
    - unfold Path.resolve_step. simpl. by destruct cwd.
    - unfold Path.resolve_step. simpl.
      destruct (c =? Path.SLASH)%N; [done|]. by destruct cwd. }
  rewrite Hr. simpl negb. unfold Path.normalizeString.
  eexists. split; [reflexivity|]. apply Forall_rev.
  apply normalize_segments_proper; [done|apply split_no_slash].
Qed.

Variable baseDirectory : jsstring.
Variable process_cwd : jsstring.
Variable existsSync : jsstring → bool.

Local Abbreviation resolveDirectory' :=
  (resolveDirectory baseDirectory process_cwd existsSync).

(** Whatever the input, a path [resolveDirectory] returns is absolute and
    in normal form (the process running in an absolute directory), and
    giving it back as input returns it unchanged as long as it exists. *)
Theorem resolved_path_is_normal (directory resolved : jsstring) :
  Path.isAbsolute process_cwd = true →
  resolveDirectory' directory = Some resolved →
  normal_absolute resolved
  ∧ Path.isAbsolute resolved = true
  ∧ (existsSync resolved = true → resolveDirectory' resolved = Some resolved).
Proof.
  intros Hcwd Hr.
  assert (Hn : normal_absolute resolved).
  { unfold resolveDirectory in Hr.
    destruct (Path.isAbsolute directory).
    - destruct (existsSync directory); [|done]. injection Hr as <-.
      by apply resolve_is_normal.
    - destruct (truthy baseDirectory);
        [destruct (existsSync (Path.join _))|].
      + injection Hr as <-. by apply resolve_is_normal.
      + destruct (existsSync (Path.resolve _ _)); [|done].
        injection Hr as <-. by apply resolve_is_normal.
      + destruct (existsSync (Path.resolve _ _)); [|done].
        injection Hr as <-. by apply resolve_is_normal. }
  split; [done|].
  assert (Ha : Path.isAbsolute resolved = true).
  { by destruct Hn as (segs & -> & _). }
  split; [done|]. intros Hex. unfold resolveDirectory.
  by rewrite Ha, Hex, resolve_normal_absolute.
Qed.

Lemma unsplit_app a b :
  a ≠ [] → b ≠ [] →
  Path.unsplit (a ++ b) = Path.unsplit a ++ Path.SLASH :: Path.unsplit b.
Proof.
  intros Ha Hb. induction a as [|x a IH]; [done|].
  destruct a as [|y a].
  - simpl. by destruct b.
  - change ((x :: y :: a) ++ b) with (x :: (y :: a) ++ b).
    change ((y :: a) ++ b) with (y :: a ++ b) at 1.
    rewrite !unsplit_cons.
    change (y :: a ++ b) with ((y :: a) ++ b). rewrite IH by done.
    by rewrite <- app_assoc.
Qed.

Lemma split_unsplit segs :
  segs ≠ [] → Forall proper_segment segs →
  Path.split (Path.unsplit segs) = segs.
Proof.
  induction segs as [|seg segs IH]; intros Hne Hp; [done|].
  apply Forall_cons in Hp as [(_ & _ & _ & Hs) Hp].
  destruct segs as [|seg' segs].
  - simpl. clear IH Hp Hne. induction seg as [|c seg IH]; [done|]. simpl.
    rewrite elem_of_cons in Hs.
    destruct (c =? Path.SLASH)%N eqn:Hc.
    + apply N.eqb_eq in Hc. exfalso. apply Hs. by left.
    + rewrite IH; [done|]. intros ?. apply Hs. by right.
  - rewrite unsplit_cons, split_segment by done. by rewrite IH.
Qed.

Lemma unsplit_last segs :
  segs ≠ [] → Forall proper_segment segs →
  Path.unsplit segs ≠ [] ∧ last (Path.unsplit segs) ≠ Some Path.SLASH.
Proof.
  induction segs as [|seg segs IH]; intros Hne Hp; [done|].
  apply Forall_cons in Hp as [(Hn & _ & _ & Hs) Hp].
  destruct segs as [|seg' segs].
  - simpl. split; [done|]. intros Hl. apply Hs.
    apply last_Some in Hl as [l' ->]. apply elem_of_app. right. by left.
  - rewrite unsplit_cons. destruct (IH ltac:(done) Hp) as [IH1 IH2].
    split; [by destruct seg|].
    rewrite last_app. 
    destruct (last (Path.SLASH :: Path.unsplit (seg' :: segs))) eqn:Hl.
    + rewrite last_cons in Hl.
      destruct (last (Path.unsplit (seg' :: segs))) eqn:Hl2.
      * by injection Hl as <-.
      * apply last_None in Hl2. done.
    + by apply last_None in Hl.
Qed.

(** [path.normalize] gives back an absolute path in normal form. *)
Lemma normalize_normal_absolute p :
  normal_absolute p → Path.normalize p = p.
Proof.
  intros (segs & -> & Hp). destruct segs as [|seg segs]; [done|].
  destruct (unsplit_last (seg :: segs) ltac:(done) Hp) as [Hu1 Hu2].
  unfold Path.normalize.
  assert (Hn : Path.normalizeString
                 (Path.SLASH :: Path.unsplit (seg :: segs)) false
               = Path.unsplit (seg :: segs)).
  { unfold Path.normalizeString.
    change (Path.split (Path.SLASH :: Path.unsplit (seg :: segs)))
      with ([] :: Path.split (Path.unsplit (seg :: segs))).
    rewrite split_unsplit by done.
    change (fold_left (Path.normalize_segment false) ([] :: seg :: segs) [])
      with (fold_left (Path.normalize_segment false) (seg :: segs) []).
    by rewrite normalize_proper, app_nil_r, rev_involutive. }
  change (Path.isAbsolute (Path.SLASH :: Path.unsplit (seg :: segs)))
    with true.
  cbn [negb]. rewrite Hn.
  destruct (Path.unsplit (seg :: segs)) as [|c u] eqn:Hu; [done|].
  rewrite bool_decide_eq_false_2; [done|].
  rewrite last_cons. destruct (last (c :: u)) eqn:Hl; [done|].
  by apply last_None in Hl.
Qed.

(** [path.join] of two non-empty paths. *)
Lemma join_two a b :
  a ≠ [] → b ≠ [] → Path.join [a; b] = Path.normalize (a ++ Path.SLASH :: b).
Proof. intros Ha Hb. unfold Path.join. by destruct a, b. Qed.

(** A relative path in normal form, under a base directory in normal
    form, resolves to base, separator, path when that exists, whether or
    not the path also exists under the process's own directory. *)
Theorem base_relative_wins (directory : jsstring) :
  normal_absolute baseDirectory → baseDirectory ≠ [Path.SLASH] →
  normal_relative directory →
  existsSync (baseDirectory ++ Path.SLASH :: directory) = true →
  resolveDirectory' directory
  = Some (baseDirectory ++ Path.SLASH :: directory).
Proof.
  intros (bsegs & Hb & Hbp) Hroot (dsegs & -> & Hdne & Hdp) Hex.
  assert (Hbne : bsegs ≠ []) by (intros ->; by rewrite Hb in Hroot).
  destruct (unsplit_last dsegs Hdne Hdp) as [Hd1 Hd2].
  assert (Hrel : Path.isAbsolute (Path.unsplit dsegs) = false).
  { destruct dsegs as [|seg dsegs]; [done|].
    apply Forall_cons in Hdp as [(Hn & _ & _ & Hs) _].
    destruct seg as [|c seg]; [done|].
    assert (c ≠ Path.SLASH) by (intros ->; apply Hs; by left).
    destruct dsegs; simpl; by apply N.eqb_neq. }
  set (joined := baseDirectory ++ Path.SLASH :: Path.unsplit dsegs) in *.
  assert (Hj : joined = Path.SLASH :: Path.unsplit (bsegs ++ dsegs)).
  { unfold joined. rewrite Hb, unsplit_app by done. done. }
  assert (Hjn : normal_absolute joined).
  { exists (bsegs ++ dsegs). split; [done|]. by apply Forall_app. }
  assert (Hjoin : Path.join [baseDirectory; Path.unsplit dsegs] = joined).
  { rewrite join_two; [by apply normalize_normal_absolute|by rewrite Hb|done]. }
  unfold resolveDirectory. rewrite Hrel.
  assert (Htb : truthy baseDirectory = true) by by rewrite Hb.
  rewrite Htb, Hjoin, Hex. by rewrite resolve_normal_absolute.
Qed.

End ResolutionProperties.

Section ResolutionSamples.
Import WorkingDirectoryManager DirectorySpec StoreSpec.

Lemma word_is_proper (w : string) :
  Forall (λ c, (97 ≤ c ≤ 122)%N) (lit w) → lit w ≠ [] →
  proper_segment (lit w).
Proof.
  intros Hw Hne. split; [done|].
  assert (Hin : ∀ c, c ∈ lit w → (97 ≤ c ≤ 122)%N)
    by by apply Forall_forall.
  split; [|split].
  - intros E. specialize (Hin Path.DOT). rewrite E in Hin.
    assert (97 ≤ Path.DOT ≤ 122)%N by (apply Hin; by left).
    unfold Path.DOT in *. lia.
  - intros E. specialize (Hin Path.DOT). rewrite E in Hin.
    assert (97 ≤ Path.DOT ≤ 122)%N by (apply Hin; by left).
    unfold Path.DOT in *. lia.
  - intros Hs. apply Hin in Hs. unfold Path.SLASH in *. lia.
Qed.

Lemma code_is_normal : normal_absolute (lit "/code").
Proof.
  exists [lit "code"]. split; [done|]. apply Forall_singleton.
  apply word_is_proper; [|done].
  repeat (apply Forall_cons; split; [vm_compute; by split|]). done.
Qed.

Lemma proj_is_normal : normal_relative (lit "proj").
Proof.
  exists [lit "proj"]. split; [done|]. split; [done|]. apply Forall_singleton.
  apply word_is_proper; [|done].
  repeat (apply Forall_cons; split; [vm_compute; by split|]). done.
Qed.

(** [base_relative_wins] with base [/code] and input [proj], both
    [/code/proj] and [/home/bot/proj] existing. *)
Lemma base_relative_wins_witness :
  normal_absolute (lit "/code") ∧ lit "/code" ≠ [Path.SLASH]
  ∧ normal_relative (lit "proj")
  ∧ code_exists (lit "/code" ++ Path.SLASH :: lit "proj") = true
  ∧ resolveDirectory (lit "/code") (lit "/home/bot") code_exists (lit "proj")
    = Some (lit "/code/proj").
Proof.
  assert (Hne : lit "/code" ≠ [Path.SLASH]) by discriminate.
  assert (Hex : code_exists (lit "/code" ++ Path.SLASH :: lit "proj") = true)
    by reflexivity.
  split; [exact code_is_normal|]. split; [exact Hne|].
  split; [exact proj_is_normal|]. split; [exact Hex|].
  exact (base_relative_wins (lit "/code") (lit "/home/bot") code_exists
           (lit "proj") code_is_normal Hne proj_is_normal Hex).
Defined.

(** [resolved_path_is_normal] on the input [/tmp/]. *)
Lemma resolved_path_is_normal_witness :
  Path.isAbsolute (lit "/home/bot") = true
  ∧ resolveDirectory [] (lit "/home/bot") sample_exists (lit "/tmp/")
    = Some (lit "/tmp")
  ∧ normal_absolute (lit "/tmp")
  ∧ resolveDirectory [] (lit "/home/bot") sample_exists (lit "/tmp")
    = Some (lit "/tmp").
Proof.
  assert (Hr : resolveDirectory [] (lit "/home/bot") sample_exists
                 (lit "/tmp/") = Some (lit "/tmp"))
    by (vm_compute; reflexivity).
  split; [reflexivity|]. split; [exact Hr|].
  destruct (resolved_path_is_normal [] (lit "/home/bot") sample_exists
              (lit "/tmp/") (lit "/tmp") eq_refl Hr) as (Hn & _ & Hagain).
  split; [exact Hn|]. apply Hagain. reflexivity.
Defined.

End ResolutionSamples.

(* ================================================================== *)
(** * Further properties of the commands *)
(* ================================================================== *)

Section ParserEdges.
Import RegExp CommandSpec WorkingDirectoryManager StoreSpec.

Lemma parse_of_command text value :
  set_command setting_name text value →
  parseSetCommand text = Some (trim value).
Proof.
  intros Hcmd. destruct (parseSetCommand_complete _ _ Hcmd) as [v Hv].
  rewrite Hv. f_equal.
  apply parseSetCommand_sound in Hv as (value' & Hcmd' & ->).
  by apply (set_command_unique text).
Qed.

(** What [trimStart] removes and what it leaves. *)
Lemma trim_start_spec s :
  ∃ pre, s = pre ++ trim_start s
         ∧ Forall (λ a, is_space a = true) pre
         ∧ (trim_start s = []
            ∨ ∃ c t, trim_start s = c :: t ∧ is_space c = false).
Proof.
  induction s as [|a s (pre & Hs & Hpre & Hhead)].
  - exists []. split; [done|]. split; [done|by left].
  - simpl. destruct (is_space a) eqn:Ha.
    + exists (a :: pre). split; [by rewrite Hs at 1|].
      split; [by constructor|done].
    + exists []. split; [done|]. split; [done|]. right. by exists a, s.
Qed.

Lemma trim_start_id s :
  (s = [] ∨ ∃ c t, s = c :: t ∧ is_space c = false) → trim_start s = s.
Proof. intros [->|(c & t & -> & Hc)]; [done|]. simpl. by rewrite Hc. Qed.

(** [trim] cuts white space off both ends and nothing else. *)
Lemma trim_spec s :
  ∃ pre post,
    s = pre ++ trim s ++ post
    ∧ Forall (λ a, is_space a = true) pre
    ∧ Forall (λ a, is_space a = true) post
    ∧ trim (trim s) = trim s.
Proof.
  unfold trim, trim_end.
  destruct (trim_start_spec s) as (pre & Hs & Hpre & Ha).
  destruct (trim_start_spec (rev (trim_start s))) as (erp & Hr & Herp & Hb).
  set (a := trim_start s) in *. set (b := trim_start (rev a)) in *.
  assert (Ea : a = rev b ++ rev erp).
  { rewrite <- (rev_involutive a), Hr. apply rev_app_distr. }
  exists pre, (rev erp). split; [by rewrite Hs, Ea at 1|].
  split; [done|]. split; [by apply Forall_rev|].
  destruct Hb as [Hb|(c & t & Hb & Hc)].
  - by rewrite Hb.
  - assert (Hrb : trim_start (rev b) = rev b).
    { apply trim_start_id. right. rewrite Hb. simpl.
      destruct Ha as [Ha|(c0 & t0 & Ha & Hc0)].
      - rewrite Ha in Ea. rewrite Hb in Ea. simpl in Ea.
        by destruct (rev t).
      - rewrite Ha, Hb in Ea. simpl in Ea.
        destruct (rev t) as [|x r]; simpl in *; injection Ea as -> _;
          by eexists _, _. }
    rewrite Hrb, rev_involutive. rewrite trim_start_id; [done|].
    right. by exists c, t.
Qed.

(** The value [parseSetCommand] returns is a piece of the text, followed in
    the text by white space only; it has no white space at either end and
    no line terminator inside. *)
Theorem parsed_value_is_trimmed (text v : jsstring) :
  parseSetCommand text = Some v →
  (∃ front back, text = front ++ v ++ back
                 ∧ Forall (λ a, is_space a = true) back)
  ∧ trim v = v
  ∧ Forall (λ a, is_line_terminator a = false) v.
Proof.
  intros Hp. apply parseSetCommand_sound in Hp as (value & Hcmd & ->).
  destruct (trim_spec value) as (pre & post & Hv & _ & Hpost & Hidem).
  assert (Hline : Forall (λ a, is_line_terminator a = false) value).
  { destruct Hcmd as [(kw & ws & _ & _ & _ & [_ H])
                     |(kw & ws1 & n & ws2 & _ & _ & _ & _ & _ & [_ H])];
      done. }
  assert (Htail : ∃ head, text = head ++ value).
  { destruct Hcmd as [(kw & ws & -> & _)|(kw & ws1 & n & ws2 & -> & _)].
    - exists (kw ++ ws). by rewrite <- app_assoc.
    - exists (kw ++ ws1 ++ n ++ ws2). by rewrite <- !app_assoc. }
  destruct Htail as [head ->]. split; [|split; [done|]].
  - exists (head ++ pre), post. split; [|done].
    rewrite Hv at 1. by rewrite <- !app_assoc.
  - rewrite Hv in Hline. apply Forall_app in Hline as [_ Hline].
    by apply Forall_app in Hline as [Hline _].
Qed.

(** A command whose value is white space is still a command: the keyword,
    white space, and one more white-space character that ends no line
    parse to the empty string, not to [null]. *)
Theorem blank_value_parses_to_empty (head ws : jsstring) (c : N) :
  (spells "cwd" head
   ∨ ∃ kw ws1 name, head = kw ++ ws1 ++ name
                    ∧ spells "set" kw ∧ blank ws1 ∧ setting_name name) →
  blank ws → is_space c = true → is_line_terminator c = false →
  parseSetCommand (head ++ ws ++ [c]) = Some [].
Proof.
  intros Hhead Hws Hc Hl.
  assert (Hv : one_line [c]) by (split; [done|by apply Forall_singleton]).
  assert (Ht : trim [c] = []).
  { unfold trim, trim_end. simpl. by rewrite Hc. }
  rewrite (parse_of_command _ [c]); [by rewrite Ht|].
  destruct Hhead as [Hkw|(kw & ws1 & name & -> & Hkw & Hws1 & Hn)].
  - left. by exists head, ws.
  - right. exists kw, ws1, name, ws. by rewrite <- !app_assoc.
Qed.

End ParserEdges.

Section ParserSamples.
Import RegExp CommandSpec WorkingDirectoryManager StoreSpec.

(** [parsed_value_is_trimmed] on a long-form command with white space
    around the value. *)
Lemma parsed_value_is_trimmed_witness :
  parseSetCommand (lit "set dir   /a b  ") = Some (lit "/a b")
  ∧ trim (lit "/a b") = lit "/a b"
  ∧ Forall (λ a, is_line_terminator a = false) (lit "/a b").
Proof.
  assert (Hp : parseSetCommand (lit "set dir   /a b  ") = Some (lit "/a b"))
    by (vm_compute; reflexivity).
  split; [exact Hp|].
  destruct (parsed_value_is_trimmed _ _ Hp) as (_ & Ht & Hl).
  split; [exact Ht | exact Hl].
Defined.

(** [blank_value_parses_to_empty] on [cwd] and two spaces. *)
Lemma blank_value_parses_to_empty_witness :
  spells "cwd" (lit "CWD") ∧ blank (lit " ")
  ∧ is_space 32 = true ∧ is_line_terminator 32 = false
  ∧ parseSetCommand (lit "CWD  ") = Some [].
Proof.
  assert (Hkw : spells "cwd" (lit "CWD")).
  { repeat (constructor; [by right|]). constructor. }
  assert (Hws : blank (lit " ")).
  { split; [discriminate|]. by apply Forall_singleton. }
  split; [exact Hkw|]. split; [exact Hws|].
  split; [reflexivity|]. split; [reflexivity|].
  exact (blank_value_parses_to_empty (lit "CWD") (lit " ") 32
           (or_introl Hkw) Hws eq_refl eq_refl).
Defined.

End ParserSamples.

Section GetCommand.
Import RegExp CommandSpec WorkingDirectoryManager StoreSpec.

Lemma lower_get : lower_case "get".
Proof. repeat (apply Forall_cons; split; [vm_compute; by split|]). done. Qed.

Lemma canonicalize_question a : canonicalize a = canonicalize 63 → a = 63%N.
Proof.
  unfold canonicalize.
  destruct (N.leb_spec 97 a), (N.leb_spec a 122); simpl; lia.
Qed.

(** What the pattern of [isGetCommand] walks over, from index 0. *)
Lemma walks_get_pattern text :
  (∃ s y, walks get_pattern (start_of text) s y) ↔ get_command text.
Proof.
  unfold get_pattern. split.
  - intros (s & y & H).
    destruct (walks_frame _ _ _ _ H) as [Ht _].
    apply walks_sequence_cons in H as (s0 & y0 & s1 & -> & (_ & -> & ->) & H).
    apply walks_sequence_cons in H as (pre & y1 & s2 & -> & Hpre & H).
    apply walks_sequence_cons in H as (name & y2 & s3 & -> & Hname & H).
    apply walks_sequence_cons in H as (mark & y3 & s4 & -> & Hmark & H).
    destruct H as (Hend & -> & ->). rewrite Hend in Ht.
    simpl in Ht. rewrite !app_nil_r in Ht.
    exists pre, name, mark. split; [done|]. split; [|split].
    + destruct Hpre as [[-> _]|[_ (y' & Hpre & _)]]; [by left|right].
      apply walks_sequence_cons in Hpre as (kw & y4 & s5 & -> & Hkw & Hws).
      apply walks_sequence_cons in Hws as (ws & y5 & s6 & -> & Hws & -> & _).
      apply (walks_word _ _ _ _ lower_get) in Hkw as (Hkw & _).
      apply walks_Plus_Cls in Hws as (Hne & Hsp & _).
      exists kw, ws. by rewrite app_nil_r.
    + destruct Hname as (y' & Hname & _).
      by apply walks_setting_names in Hname as [Hname _].
    + destruct Hmark as [[-> _]|[_ (y' & Hmark & _)]]; [by left|right].
      apply walks_Chr in Hmark as (a & -> & Ha & _).
      by rewrite (canonicalize_question _ Ha).
  - intros (pre & name & mark & -> & Hpre & Hname & Hmark).
    set (x := start_of (pre ++ name ++ mark)).
    set (grouped := λ (z : mstate) (s : jsstring),
           {| index := index z; rest := rest z; capture := Some s |}).
    assert (H1 : ∃ y1, walks (Opt (Group (sequence
                         [word "get"; Plus (Cls space_char)]))) x pre y1
                       ∧ rest y1 = name ++ mark).
    { destruct Hpre as [->|(kw & ws & -> & Hkw & Hne & Hsp)].
      - exists x. split; [by left|done].
      - exists (grouped (after (after x kw) ws) (kw ++ ws)). split.
        + right. split; [by destruct kw, ws|].
          exists (after (after x kw) ws). split; [|done].
          apply walks_sequence_cons. exists kw, (after x kw), ws.
          split; [done|]. split.
          * apply walks_word; [apply lower_get|]. split; [done|].
            split; [|done]. eexists. simpl. by rewrite <- !app_assoc.
          * apply walks_sequence_cons. exists ws, (after (after x kw) ws), [].
            rewrite app_nil_r. split; [done|]. split; [|done].
            apply walks_Plus_Cls. split; [done|]. split; [done|].
            split; [|done]. eexists. simpl.
            by rewrite <- !app_assoc, drop_app_length.
        + simpl. by rewrite <- !app_assoc, !drop_app_length. }
    destruct H1 as (y1 & H1 & Hr1).
    assert (H3 : ∃ y3, walks (Opt (Group (Chr 63)))
                         (grouped (after y1 name) name) mark y3
                       ∧ rest y3 = []).
    { assert (Hr2 : rest (grouped (after y1 name) name) = mark).
      { simpl. by rewrite Hr1, drop_app_length. }
      destruct Hmark as [->| ->].
      - eexists. split; [by left|done].
      - eexists (grouped (after _ (lit "?")) (lit "?")). split.
        + right. split; [done|]. eexists. split; [|done].
          apply walks_Chr. exists 63%N. split; [done|]. split; [done|].
          split; [|done]. exists []. by rewrite Hr2.
        + simpl in *. by rewrite Hr2. }
    destruct H3 as (y3 & H3 & Hr3).
    exists ([] ++ pre ++ name ++ mark ++ []), y3.
    apply walks_sequence_cons. exists [], x, (pre ++ name ++ mark ++ []).
    split; [done|]. split; [done|].
    apply walks_sequence_cons. exists pre, y1, (name ++ mark ++ []).
    split; [done|]. split; [done|].
    apply walks_sequence_cons.
    exists name, (grouped (after y1 name) name), (mark ++ []).
    split; [done|]. split.
    { exists (after y1 name). split; [|done].
      apply walks_setting_names. split; [done|]. split; [|done].
      exists mark. done. }
    apply walks_sequence_cons. exists mark, y3, [].
    split; [done|]. split; [done|]. done.
Qed.

Lemma match_get_pattern text :
  is_Some (match_ text get_pattern) ↔ get_command text.
Proof.
  rewrite <- walks_get_pattern.
  change get_pattern with (Seq Bol (sequence
    [Opt (Group (sequence [word "get"; Plus (Cls space_char)]));
     Group setting_names; Opt (Group (Chr 63)); Eol])).
  rewrite match_anchored. split.
  - intros [cap Hm].
    destruct (m _ (start_of text) Some) as [z|] eqn:Hz; [|done].
    apply m_sound in Hz as (s & y & Hw & _). by exists s, y.
  - intros (s & y & Hw).
    destruct (m_complete _ _ _ _ Some Hw) as [z ->]; [done|]. by eexists.
Qed.

Lemma spells_head ch w s :
  spells (String ch w) s →
  ∃ c t, s = c :: t
         ∧ (c = N_of_ascii ch ∨ c = (N_of_ascii ch - 32)%N).
Proof.
  unfold spells. intros H.
  apply Forall2_cons_inv_r in H as (c & t & Hc & _ & ->). by exists c, t.
Qed.

Lemma setting_name_initial n :
  setting_name n →
  ∃ c t, n = c :: t
         ∧ ((c = 99 ∨ c = 67) ∧ spells "cwd" n
            ∨ (c = 100 ∨ c = 68) ∨ (c = 119 ∨ c = 87))%N.
Proof.
  intros [s Hs|s Hs|s Hs|a j b Ha Hb].
  - destruct (spells_head _ _ _ Hs) as (c & t & -> & Hc).
    exists c, t. split; [done|]. left. split; [exact Hc|done].
  - destruct (spells_head _ _ _ Hs) as (c & t & -> & Hc).
    exists c, t. split; [done|]. right. left. exact Hc.
  - destruct (spells_head _ _ _ Hs) as (c & t & -> & Hc).
    exists c, t. split; [done|]. right. left. exact Hc.
  - destruct (spells_head _ _ _ Ha) as (c & t & -> & Hc).
    eexists c, _. split; [done|]. right. right. exact Hc.
Qed.

Lemma set_command_initial text value :
  set_command setting_name text value →
  ∃ c t, text = c :: t
         ∧ ((c = 99 ∨ c = 67) ∧ short_form text value
            ∨ (c = 115 ∨ c = 83))%N.
Proof.
  intros [Hs|Hl].
  - pose proof Hs as (kw & ws & -> & Hkw & _).
    destruct (spells_head _ _ _ Hkw) as (c & t & -> & Hc).
    eexists c, _. split; [done|]. left. split; [exact Hc|done].
  - destruct Hl as (kw & ws1 & n & ws2 & -> & Hkw & _).
    destruct (spells_head _ _ _ Hkw) as (c & t & -> & Hc).
    eexists c, _. split; [done|]. right. exact Hc.
Qed.

(** No text is a query and a set command at once. *)
Lemma get_command_not_set text value :
  get_command text → set_command setting_name text value → False.
Proof.
  intros (pre & name & mark & Ht & Hpre & Hname & Hmark) Hset.
  destruct (set_command_initial _ _ Hset) as (c & t & Hc & Hset').
  destruct Hpre as [->|(kw & ws & -> & Hkw & _)].
  - destruct (setting_name_initial _ Hname) as (c' & t' & Hn & Hc').
    assert (c' = c) as -> by (rewrite Hn, Hc in Ht; by injection Ht).
    destruct Hset' as [[Hcc Hshort]|Hcs]; [|lia].
    destruct Hc' as [[_ Hcwd]|Hc']; [|lia].
    destruct Hshort as (kw & ws & Ht' & Hkw & Hws & _).
    rewrite Ht' in Ht. simpl in Ht.
    apply app_inj_1 in Ht as [_ Ht];
      [|by rewrite (spells_length _ _ Hkw), (spells_length _ _ Hcwd)].
    destruct (blank_head ws value Hws) as (a & r & Ha & Hsp).
    rewrite Ha in Ht. destruct Hmark as [->| ->]; [done|].
    by injection Ht as -> _.
  - destruct (spells_head _ _ _ Hkw) as (c' & t' & -> & Hc').
    rewrite Hc in Ht. injection Ht as -> _.
    change (N_of_ascii "g") with 103%N in Hc'. lia.
Qed.

(** [trim] leaves a text without white space as it is, and drops the white
    space that follows it. *)
Lemma trim_solid s ws :
  Forall (λ a, is_space a = false) s → Forall (λ a, is_space a = true) ws →
  trim (s ++ ws) = s.
Proof.
  intros Hs Hws.
  assert (Hid : ∀ l, Forall (λ a, is_space a = false) l → trim_start l = l).
  { intros l Hl. apply trim_start_id. destruct Hl as [|a l Ha _]; [by left|].
    right. by exists a, l. }
  unfold trim, trim_end. destruct s as [|a s].
  - change ([] ++ ws) with ws.
    by rewrite <- (app_nil_r ws), trim_start_blank.
  - rewrite (trim_start_id ((a :: s) ++ ws))
      by (right; apply Forall_cons in Hs as [Ha _]; by eexists a, _).
    rewrite rev_app_distr, trim_start_blank by (by apply Forall_rev).
    rewrite Hid by (by apply Forall_rev). apply rev_involutive.
Qed.

(** [isGetCommand] accepts exactly the texts that, once trimmed, read:
    optionally [get] and white space, then one of the names of the
    setting ([cwd], [dir], [directory], [working], an optional hyphen or
    space, [directory]), then optionally a question mark; letters in
    either case. *)
Theorem isGetCommand_accepts_the_queries (text : jsstring) :
  isGetCommand text = true ↔ get_command (trim text).
Proof.
  unfold isGetCommand. rewrite bool_decide_eq_true. apply match_get_pattern.
Qed.

(** A trimmed text that [isGetCommand] accepts is no set command:
    [parseSetCommand] returns [null] on it. *)
Theorem query_is_no_set_command (text : jsstring) :
  isGetCommand text = true → parseSetCommand (trim text) = None.
Proof.
  unfold isGetCommand. rewrite bool_decide_eq_true, match_get_pattern.
  intros Hget. destruct (parseSetCommand (trim text)) as [v|] eqn:Hp; [|done].
  apply parseSetCommand_sound in Hp as (value & Hset & _).
  destruct (get_command_not_set _ _ Hget Hset).
Qed.

(** On the text as it comes the two commands overlap: [cwd] followed by
    two or more white-space characters, the last of them ending no line,
    is accepted by [isGetCommand] (which trims first) and is parsed by
    [parseSetCommand] (which trims last) as a set command with the empty
    string for a value. *)
Theorem untrimmed_query_is_a_set_command (kw ws : jsstring) (c : N) :
  spells "cwd" kw → blank ws →
  is_space c = true → is_line_terminator c = false →
  isGetCommand (kw ++ ws ++ [c]) = true
  ∧ parseSetCommand (kw ++ ws ++ [c]) = Some [].
Proof.
  intros Hkw Hws Hc Hl. split.
  - unfold isGetCommand. rewrite bool_decide_eq_true, match_get_pattern.
    rewrite trim_solid.
    + exists [], kw, []. rewrite app_nil_r. split; [done|].
      split; [by left|]. split; [by apply name_cwd|by left].
    + by apply (spells_solid "cwd"); [apply lower_cwd|].
    + destruct Hws as [_ Hws]. apply Forall_app. split; [done|].
      by apply Forall_singleton.
  - assert (Ht : trim [c] = []).
    { unfold trim, trim_end. simpl. by rewrite Hc. }
    rewrite (parse_of_command _ [c]); [by rewrite Ht|].
    left. exists kw, ws. split; [done|]. split; [done|]. split; [done|].
    split; [done|by apply Forall_singleton].
Qed.

End GetCommand.

Section GetCommandSamples.
Import RegExp CommandSpec WorkingDirectoryManager StoreSpec.

(** [query_is_no_set_command] on a query with white space around it. *)
Lemma query_is_no_set_command_witness :
  isGetCommand (lit " get working-directory? ") = true
  ∧ parseSetCommand (trim (lit " get working-directory? ")) = None.
Proof.
  assert (Hg : isGetCommand (lit " get working-directory? ") = true)
    by (vm_compute; reflexivity).
  split; [exact Hg|]. exact (query_is_no_set_command _ Hg).
Defined.

(** [untrimmed_query_is_a_set_command] on [cwd] and two spaces. *)
Lemma untrimmed_query_is_a_set_command_witness :
  spells "cwd" (lit "cwd") ∧ blank (lit " ")
  ∧ isGetCommand (lit "cwd  ") = true
  ∧ parseSetCommand (lit "cwd  ") = Some [].
Proof.
  assert (Hkw : spells "cwd" (lit "cwd")).
  { repeat (constructor; [by left|]). constructor. }
  assert (Hws : blank (lit " ")).
  { split; [discriminate|]. by apply Forall_singleton. }
  split; [exact Hkw|]. split; [exact Hws|].
  exact (untrimmed_query_is_a_set_command (lit "cwd") (lit " ") 32
           Hkw Hws eq_refl eq_refl).
Defined.

End GetCommandSamples.

(* ================================================================== *)
(** * The channel default *)
(* ================================================================== *)

Section ChannelDefault.
Import WorkingDirectoryManager DirectorySpec StoreSpec.

Variable baseDirectory : jsstring.
Variable process_cwd : jsstring.
Variable existsSync : jsstring → bool.
Variable statSync_isDirectory : jsstring → option bool.

Local Abbreviation resolveDirectory' :=
  (resolveDirectory baseDirectory process_cwd existsSync).
Local Abbreviation setWorkingDirectory' :=
  (setWorkingDirectory baseDirectory process_cwd existsSync
     statSync_isDirectory).

(** [path.resolve] never returns the empty string. *)
Lemma resolve_not_empty cwd paths : Path.resolve cwd paths ≠ [].
Proof.
  unfold Path.resolve. destruct (fold_left _ _ _) as [r abs]. simpl.
  destruct abs; [done|]. simpl.
  by destruct (Path.normalizeString r true).
Qed.

Lemma resolveDirectory_not_empty directory resolved :
  resolveDirectory' directory = Some resolved → resolved ≠ [].
Proof.
  unfold resolveDirectory.
  repeat match goal with
         | |- context [if ?b then _ else _] => destruct b
         end; simpl; intros [= <-] || done; apply resolve_not_empty.
Qed.

Lemma suffixed_key_differs (channelId x : jsstring) :
  channelId ++ lit "-" ++ x ≠ channelId.
Proof.
  intros E. apply (f_equal length) in E. rewrite length_app in E.
  simpl in E. lia.
Qed.

(** What [hasChannelWorkingDirectory] answers after a successful
    [setWorkingDirectory]: [true] when the call named no thread and was
    not made with a user in a direct-message channel; otherwise what it
    answered before, since the directory went under a key that
    [getChannelWorkingDirectory] never reads. *)
Theorem hasChannelWorkingDirectory_after_set
    (channelId directory : jsstring) (threadTs userId : option jsstring)
    (w w' : world) (result : set_result) :
  setWorkingDirectory' channelId directory threadTs userId w
  = (Returns result, w') →
  success result = true →
  hasChannelWorkingDirectory w' channelId
  = if truthy_opt threadTs
       || (truthy_opt userId && startsWith (lit "D") channelId)
    then hasChannelWorkingDirectory w channelId
    else true.
Proof.
  intros Hcall Hs.
  destruct (setWorkingDirectory_cases baseDirectory process_cwd existsSync
              statSync_isDirectory channelId directory threadTs userId w)
    as [(message & Hm & _)|(resolved & Hr & _ & Hm)];
    rewrite Hm in Hcall; injection Hcall as <- <-; [done|].
  apply resolveDirectory_not_empty in Hr.
  unfold hasChannelWorkingDirectory, getChannelWorkingDirectory.
  rewrite configs_scheduleSave. cbn [configs with_configs].
  change (getConfigKey channelId None None) with channelId.
  unfold getConfigKey.
  destruct (truthy_opt threadTs); cbn [orb].
  - by rewrite lookup_insert_ne by apply suffixed_key_differs.
  - destruct (truthy_opt userId && startsWith (lit "D") channelId).
    + by rewrite lookup_insert_ne by apply suffixed_key_differs.
    + rewrite lookup_insert_eq. simpl. by destruct resolved.
Qed.

End ChannelDefault.

Section ChannelDefaultSamples.
Import WorkingDirectoryManager DirectorySpec StoreSpec.

(** [hasChannelWorkingDirectory_after_set] in a direct-message channel:
    the directory is set for the user, and found for the user, and the
    channel still has none. *)
Lemma hasChannelWorkingDirectory_after_set_witness :
  ∃ result w',
    setWorkingDirectory [] (lit "/home/bot") sample_exists sample_stat
      (lit "D1") (lit "/tmp/") None (Some (lit "U7")) sample_world
    = (Returns result, w')
    ∧ success result = true
    ∧ getWorkingDirectory w' (lit "D1") None (Some (lit "U7"))
      = Some (lit "/tmp")
    ∧ hasChannelWorkingDirectory w' (lit "D1") = false.
Proof.
  destruct (setWorkingDirectory [] (lit "/home/bot") sample_exists
              sample_stat (lit "D1") (lit "/tmp/") None (Some (lit "U7"))
              sample_world) as [c w'] eqn:Hcall.
  assert (Hc : c = Returns {| success := true;
                              resolvedPath := Some (lit "/tmp");
                              error := None |}).
  { apply (f_equal fst) in Hcall. vm_compute in Hcall. by subst c. }
  assert (Hg : getWorkingDirectory w' (lit "D1") None (Some (lit "U7"))
               = Some (lit "/tmp")).
  { apply (f_equal snd) in Hcall. simpl in Hcall. subst w'.
    vm_compute. reflexivity. }
  subst c. eexists _, _. split; [reflexivity|]. split; [reflexivity|].
  split; [exact Hg|].
  rewrite (hasChannelWorkingDirectory_after_set [] (lit "/home/bot")
             sample_exists sample_stat _ _ _ _ _ _ _ Hcall eq_refl).
  vm_compute. reflexivity.
Defined.

End ChannelDefaultSamples.

Section EmptyDirectory.
Import WorkingDirectoryManager DirectorySpec StoreSpec.

Variable baseDirectory : jsstring.
Variable process_cwd : jsstring.
Variable existsSync : jsstring → bool.

(** [path.resolve('')] is the directory of the process. *)
Lemma resolve_empty cwd :
  normal_absolute cwd → Path.resolve cwd [[] : jsstring] = cwd.
Proof.
  intros Hn. rewrite <- (resolve_normal_absolute cwd cwd Hn) at 2.
  by destruct Hn as (segs & -> & _).
Qed.

Lemma join_empty base :
  normal_absolute base → Path.join [base; [] : jsstring] = base.
Proof.
  intros Hn. rewrite <- (normalize_normal_absolute base Hn) at 2.
  by destruct Hn as (segs & -> & _).
Qed.

(** The empty string is a directory name like another: it resolves to the
    base directory when one is configured and exists, and else to the
    directory of the process when that exists (both in normal form). *)
Theorem empty_directory_is_the_base :
  baseDirectory = [] ∨ normal_absolute baseDirectory →
  normal_absolute process_cwd →
  resolveDirectory baseDirectory process_cwd existsSync []
  = if truthy baseDirectory && existsSync baseDirectory
    then Some baseDirectory
    else if existsSync process_cwd then Some process_cwd else None.
Proof.
  intros Hbase Hcwd. unfold resolveDirectory. cbn [Path.isAbsolute].
  rewrite (resolve_empty _ Hcwd).
  destruct Hbase as [->|Hbase]; [done|].
  rewrite (join_empty _ Hbase), (resolve_normal_absolute _ _ Hbase).
  assert (Ht : truthy baseDirectory = true)
    by (by destruct Hbase as (segs & -> & _)).
  rewrite Ht. cbn [andb]. by destruct (existsSync baseDirectory).
Qed.

End EmptyDirectory.

Section EmptyDirectorySamples.
Import WorkingDirectoryManager DirectorySpec StoreSpec.

(** [empty_directory_is_the_base] with base [/code], which exists. *)
Lemma empty_directory_is_the_base_witness :
  normal_absolute (lit "/code") ∧ normal_absolute (lit "/home")
  ∧ resolveDirectory (lit "/code") (lit "/home")
      (λ p, bool_decide (p = lit "/code")) []
    = Some (lit "/code").
Proof.
  assert (Hhome : normal_absolute (lit "/home")).
  { exists [lit "home"]. split; [done|]. apply Forall_singleton.
    apply word_is_proper; [|done].
    repeat (apply Forall_cons; split; [vm_compute; by split|]). done. }
  split; [exact code_is_normal|]. split; [exact Hhome|].
  exact (empty_directory_is_the_base (lit "/code") (lit "/home")
           (λ p, bool_decide (p = lit "/code"))
           (or_intror code_is_normal) Hhome).
Defined.

End EmptyDirectorySamples.
